(** * nnabla/parameter.py: scoped parameter registry

    A shallow embedding of [python/src/nnabla/parameter.py].  Python objects
    live in a store addressed by [addr]; an [OrderedDict] is an association
    list kept in insertion order, a [nn.Variable] is a record whose data
    buffer is a separate store object (so that [unlinked] views can share
    it), and every function of the module is a computation in a state and
    exception monad over the store, the two module globals and the file
    system. *)

From Stdlib Require Import String Ascii List Arith Lia Bool ZArith Permutation.
From stdpp Require Import base list strings gmap.
Import ListNotations.

(** ** Strings: [str.split('/')] and ['/'.join] *)

Definition slash : ascii := "/"%char.

(** [key.split('/')]: never empty, one more segment than there are slashes. *)
Fixpoint split (s : string) : list string :=
  match s with
  | EmptyString => [EmptyString]
  | String c s' =>
      if Ascii.eqb c slash then EmptyString :: split s'
      else match split s' with
           | x :: xs => String c x :: xs
           | [] => [String c EmptyString]
           end
  end.

(** ['/'.join(names)] *)
Fixpoint join (names : list string) : string :=
  match names with
  | [] => EmptyString
  | [x] => x
  | x :: rest => String.append x (String slash (join rest))
  end.

Fixpoint no_slash (s : string) : bool :=
  match s with
  | EmptyString => true
  | String c s' => negb (Ascii.eqb c slash) && no_slash s'
  end.

(** ** Ordered dictionaries *)

Section odict.
Context {V : Type}.

Fixpoint od_get (k : string) (d : list (string * V)) : option V :=
  match d with
  | [] => None
  | (k', v) :: d' => if String.eqb k k' then Some v else od_get k d'
  end.

(** [d[k] = v]: an existing key keeps its position, a new one goes last. *)
Fixpoint od_set (k : string) (v : V) (d : list (string * V)) : list (string * V) :=
  match d with
  | [] => [(k, v)]
  | (k', v') :: d' =>
      if String.eqb k k' then (k, v) :: d' else (k', v') :: od_set k v d'
  end.

(** [del d[k]] *)
Fixpoint od_del (k : string) (d : list (string * V)) : list (string * V) :=
  match d with
  | [] => []
  | (k', v') :: d' => if String.eqb k k' then d' else (k', v') :: od_del k d'
  end.

Definition od_keys (d : list (string * V)) : list string := map fst d.
End odict.

(** ** The store *)

Abbreviation addr := nat (only parsing).

(** An element of a float32 buffer, as its bit pattern: the module only
    copies elements, it never computes with them. *)
Definition float32 := Z.

(** Modelled from the spec: [nn.Variable] is not part of this file; section 6
    of the specification gives its contract: a shape, a [need_grad] flag and
    a dense data buffer that [unlinked()] views share. *)
Record nn_Variable := mkVariable {
  shape : list nat;
  need_grad : bool;
  data : addr
}.

Inductive obj :=
| ODict (items : list (string * addr))
| OVariable (v : nn_Variable)
| OArray (a : list float32).

(** ** Files *)

(** One [Parameter] record of [nnabla_pb2.NNablaProtoBuf]. *)
Record ProtoParameter := mkParameter {
  variable_name : string;
  shape_dim : list nat;
  parameter_data : list float32;
  parameter_need_grad : bool
}.

(** One h5py dataset with the two attributes the module reads. *)
Record Dataset := mkDataset {
  ds_shape : list nat;
  ds_value : list float32;
  ds_need_grad : option bool;
  ds_index : option nat
}.

(** The codecs are opaque services: a file holds what was encoded into it. *)
Inductive file :=
| ProtoFile (parameter : list ProtoParameter)
| H5File (datasets : list (string * Dataset)).

(** ** Program state: the store, the two module globals, the file system *)

Record state := mkState {
  heap : list obj;
  current_scope : addr;
  root_scope : addr;
  files : gmap string file
}.

Definition set_heap (h : list obj) (s : state) : state :=
  mkState h (current_scope s) (root_scope s) (files s).
Definition set_current (c : addr) (s : state) : state :=
  mkState (heap s) c (root_scope s) (files s).
Definition set_files (f : gmap string file) (s : state) : state :=
  mkState (heap s) (current_scope s) (root_scope s) f.

(** The state right after the module is imported:
    [current_scope = OrderedDict(); root_scope = current_scope]. *)
Definition initial_state : state := mkState [ODict []] 0 0 ∅.

(** ** Exceptions and the monad *)

Inductive assertion :=
| NotAScope          (* assert isinstance(tmp, dict) *)
| NotAVariable       (* assert isinstance(param, nn.Variable) *)
| ShapeMismatch      (* assert param.shape == tuple(shape) *)
| UnsupportedFormat. (* assert False in save_parameters *)

Inductive exn :=
| AssertionError (why : assertion)
| AttributeError
| KeyError
| ValueError
| IOError
| RuntimeError.

Inductive result (A : Type) :=
| Ok (a : A)
| Raise (e : exn).
Arguments Ok {A} a.
Arguments Raise {A} e.

Definition M (A : Type) : Type := state -> result A * state.

Definition ret {A} (a : A) : M A := fun s => (Ok a, s).
Definition raise {A} (e : exn) : M A := fun s => (Raise e, s).
Definition bind {A B} (m : M A) (f : A -> M B) : M B :=
  fun s => match m s with
           | (Ok a, s') => f a s'
           | (Raise e, s') => (Raise e, s')
           end.

Declare Scope py_scope.
Delimit Scope py_scope with py.
Notation "'do' x <- m ;; k" := (bind m (fun x => k))
  (at level 10, x name, m at level 99, k at level 200) : py_scope.
Notation "'exec' m ;; k" := (bind m (fun _ => k))
  (at level 10, m at level 99, k at level 200) : py_scope.
Local Open Scope py_scope.

Definition assert (b : bool) (why : assertion) : M unit :=
  if b then ret tt else raise (AssertionError why).

(** *** Store primitives *)

Definition new (o : obj) : M addr :=
  fun s => (Ok (length (heap s)), set_heap (heap s ++ [o]) s).

Definition deref (a : addr) : M obj :=
  fun s => match heap s !! a with
           | Some o => (Ok o, s)
           | None => (Raise AttributeError, s)
           end.

Definition store (a : addr) (o : obj) : M unit :=
  fun s => (Ok tt, set_heap (<[a := o]> (heap s)) s).

Definition get_current_scope : M addr := fun s => (Ok (current_scope s), s).
Definition set_current_scope (c : addr) : M unit := fun s => (Ok tt, set_current c s).

Definition dict_items (a : addr) : M (list (string * addr)) :=
  do o <- deref a ;;
  match o with
  | ODict d => ret d
  | _ => raise AttributeError
  end.

Definition dict_get (a : addr) (k : string) : M (option addr) :=
  do d <- dict_items a ;; ret (od_get k d).

Definition dict_setitem (a : addr) (k : string) (v : addr) : M unit :=
  do d <- dict_items a ;; store a (ODict (od_set k v d)).

Definition dict_delitem (a : addr) (k : string) : M unit :=
  do d <- dict_items a ;;
  match od_get k d with
  | Some _ => store a (ODict (od_del k d))
  | None => raise KeyError
  end.

Definition isinstance_dict (a : addr) : M bool :=
  fun s => (Ok match heap s !! a with Some (ODict _) => true | _ => false end, s).

Definition isinstance_Variable (a : addr) : M bool :=
  fun s => (Ok match heap s !! a with Some (OVariable _) => true | _ => false end, s).

(** *** The [nn.Variable] operations the module uses *)

Definition size_of (sh : list nat) : nat := fold_right Nat.mul 1 sh.

Definition get_Variable (a : addr) : M nn_Variable :=
  do o <- deref a ;;
  match o with
  | OVariable v => ret v
  | _ => raise AttributeError
  end.

(** [nn.Variable(shape, need_grad=need_grad)]: a fresh zeroed buffer. *)
Definition Variable_new (sh : list nat) (ng : bool) : M addr :=
  do d <- new (OArray (repeat 0%Z (size_of sh))) ;;
  new (OVariable (mkVariable sh ng d)).

(** [param.unlinked()]: a new Variable on the same buffer. *)
Definition unlinked (a : addr) : M addr :=
  do v <- get_Variable a ;;
  new (OVariable (mkVariable (shape v) (need_grad v) (data v))).

(** [param.need_grad = b] *)
Definition set_need_grad (a : addr) (b : bool) : M unit :=
  do v <- get_Variable a ;;
  store a (OVariable (mkVariable (shape v) b (data v))).

(** [param.d] *)
Definition get_d (a : addr) : M (list float32) :=
  do v <- get_Variable a ;;
  do o <- deref (data v) ;;
  match o with
  | OArray x => ret x
  | _ => raise AttributeError
  end.

(** [param.d = value]: copies [value] into the buffer; the value has to
    have as many elements as the Variable's shape. *)
Definition set_d (a : addr) (value : list float32) : M unit :=
  do v <- get_Variable a ;;
  if Nat.eqb (length value) (size_of (shape v)) then store (data v) (OArray value)
  else raise ValueError.

(** ** [parameter_scope] *)

(** The generator body up to [yield]; the result is the local [prev_scope].
    The default [OrderedDict()] of [.get] is only put in the store when it is
    used: when [name] is present it is never referenced. *)
Definition parameter_scope_enter (name : string) : M addr :=
  do prev_scope <- get_current_scope ;;
  do found <- dict_get prev_scope name ;;
  do tmp <- match found with
         | Some x => ret x
         | None => new (ODict [])
         end ;;
  do is_dict <- isinstance_dict tmp ;;
  exec assert is_dict NotAScope ;;
  do cur <- get_current_scope ;;
  exec dict_setitem cur name tmp ;;
  exec set_current_scope tmp ;;
  ret prev_scope.

(** The generator body after [yield]. *)
Definition parameter_scope_exit (prev_scope : addr) : M unit :=
  set_current_scope prev_scope.

(** [with parameter_scope(name): body], with the protocol of
    [contextlib.contextmanager]: when the body finishes (also by [return])
    the generator is resumed; when the body raises, the exception is thrown
    into the generator at its [yield], which has no handler around it, so
    the rest of the generator does not run and the exception goes on. *)
Definition with_parameter_scope {A} (name : string) (body : M A) : M A :=
  fun s =>
    match parameter_scope_enter name s with
    | (Raise e, s1) => (Raise e, s1)
    | (Ok prev_scope, s1) =>
        match body s1 with
        | (Ok r, s2) =>
            match parameter_scope_exit prev_scope s2 with
            | (Ok _, s3) => (Ok r, s3)
            | (Raise e, s3) => (Raise e, s3)
            end
        | (Raise e, s2) => (Raise e, s2)
        end
    end.

(** ** [get_parameter], [set_parameter], [get_parameter_or_create] *)

(** The part of [get_parameter] after the [if]. *)
Definition get_parameter_leaf (key : string) : M (option addr) :=
  do cur <- get_current_scope ;;
  do param <- dict_get cur key ;;
  match param with
  | Some p =>
      do is_var <- isinstance_Variable p ;;
      exec assert is_var NotAVariable ;;
      ret (Some p)
  | None => ret None
  end.

(** The recursion of [get_parameter] goes through
    ['/'.join(names[1:]).split('/')], which is [names[1:]] again
    ([get_parameter_eq] below), so it is written on the list of names. *)
Fixpoint get_parameter_names (names : list string) : M (option addr) :=
  match names with
  | [] => get_parameter_leaf EmptyString
  | [key] => get_parameter_leaf key
  | n0 :: rest => with_parameter_scope n0 (get_parameter_names rest)
  end.

Definition get_parameter (key : string) : M (option addr) :=
  get_parameter_names (split key).

Fixpoint set_parameter_names (names : list string) (param : addr) : M unit :=
  match names with
  | [] => do cur <- get_current_scope ;; dict_setitem cur EmptyString param
  | [key] => do cur <- get_current_scope ;; dict_setitem cur key param
  | n0 :: rest => with_parameter_scope n0 (set_parameter_names rest param)
  end.

Definition set_parameter (key : string) (param : addr) : M unit :=
  set_parameter_names (split key) param.

(** The part of [get_parameter_or_create] after the first [if]; [name] has
    a single segment there. *)
Definition get_parameter_or_create_leaf (name : string) (sh : list nat)
    (initializer : option (list nat -> list float32)) (ng : bool) : M addr :=
  do param <- get_parameter name ;;
  match param with
  | None =>
      do p <- Variable_new sh ng ;;
      exec match initializer with
      | Some init => set_d p (init sh)
      | None => ret tt
      end ;;
      exec set_parameter name p ;;
      ret p
  | Some p =>
      do v <- get_Variable p ;;
      exec assert (bool_decide (shape v = sh)) ShapeMismatch ;;
      if negb (Bool.eqb ng (need_grad v)) then
        do q <- unlinked p ;;
        exec set_need_grad q ng ;;
        ret q
      else ret p
  end.

Fixpoint get_parameter_or_create_names (names : list string) (sh : list nat)
    (initializer : option (list nat -> list float32)) (ng : bool) : M addr :=
  match names with
  | [] => get_parameter_or_create_leaf EmptyString sh initializer ng
  | [name] => get_parameter_or_create_leaf name sh initializer ng
  | n0 :: rest =>
      with_parameter_scope n0 (get_parameter_or_create_names rest sh initializer ng)
  end.

Definition get_parameter_or_create (name : string) (sh : list nat)
    (initializer : option (list nat -> list float32)) (ng : bool) : M addr :=
  get_parameter_or_create_names (split name) sh initializer ng.

(** ** [get_parameters] and [clear_parameters] *)

(** A [for] loop over a list, threading the loop-carried value. *)
Fixpoint for_each {A B} (l : list A) (body : A -> B -> M B) (acc : B) : M B :=
  match l with
  | [] => ret acc
  | x :: l' => do acc' <- body x acc ;; for_each l' body acc'
  end.

(** ['/'.join([path, k]) if path else k] *)
Definition child_path (path k : string) : string :=
  if String.eqb path EmptyString then k else join [path; k].

(** [get_parameters(params, path, grad_only)].  [limit] is the number of
    nested calls the interpreter still allows (its recursion limit); the
    [params] dictionary is local to the traversal and is threaded as a
    value; the loop runs over the entries the scope has when it starts. *)
Fixpoint get_parameters_rec (limit : nat) (params : list (string * addr))
    (path : string) (grad_only : bool) : M (list (string * addr)) :=
  match limit with
  | 0 => raise RuntimeError
  | S limit' =>
      do cur <- get_current_scope ;;
      do entries <- dict_items cur ;;
      for_each entries
        (fun kv params =>
           let k := fst kv in
           let v := snd kv in
           do is_dict <- isinstance_dict v ;;
           if is_dict then
             with_parameter_scope k
               (get_parameters_rec limit' params (child_path path k) grad_only)
           else
             do is_var <- isinstance_Variable v ;;
             exec assert is_var NotAVariable ;;
             do var <- get_Variable v ;;
             if negb grad_only || need_grad var
             then ret (od_set (child_path path k) v params)
             else ret params)
        params
  end.

Definition get_parameters (limit : nat) (grad_only : bool) : M (list (string * addr)) :=
  get_parameters_rec limit [] EmptyString grad_only.

Definition clear_parameters : M unit :=
  do cur <- get_current_scope ;;
  do entries <- dict_items cur ;;
  for_each (od_keys entries)
    (fun key _ => do cur <- get_current_scope ;; dict_delitem cur key) tt.

(** ** [os.path.splitext] (POSIX) *)

Definition dot : ascii := "."%char.

(** [p.rfind(c)], -1 when [c] does not occur. *)
Fixpoint rfind_from (c : ascii) (s : string) (i : Z) : Z :=
  match s with
  | EmptyString => (-1)%Z
  | String x s' =>
      let r := rfind_from c s' (i + 1)%Z in
      if (0 <=? r)%Z then r else if Ascii.eqb x c then i else (-1)%Z
  end.
Definition rfind (c : ascii) (s : string) : Z := rfind_from c s 0%Z.

(** The [while] loop of [genericpath._splitext]: is there a character
    other than a dot among the [n] characters from [filenameIndex] on. *)
Fixpoint has_non_dot (p : string) (filenameIndex n : nat) : bool :=
  match n with
  | 0 => false
  | S n' =>
      match String.get filenameIndex p with
      | Some c => if Ascii.eqb c dot then has_non_dot p (S filenameIndex) n' else true
      | None => false
      end
  end.

Definition splitext (p : string) : string * string :=
  let sepIndex := rfind slash p in
  let dotIndex := rfind dot p in
  if (sepIndex <? dotIndex)%Z then
    let filenameIndex := Z.to_nat (sepIndex + 1) in
    if has_non_dot p filenameIndex (Z.to_nat dotIndex - filenameIndex) then
      (String.substring 0 (Z.to_nat dotIndex) p,
       String.substring (Z.to_nat dotIndex) (String.length p - Z.to_nat dotIndex) p)
    else (p, EmptyString)
  else (p, EmptyString).

(** ** Files and the two codecs *)

Definition open_file (path : string) : M file :=
  fun s => match files s !! path with
           | Some f => (Ok f, s)
           | None => (Raise IOError, s)
           end.

Definition write_file (path : string) (f : file) : M unit :=
  fun s => (Ok tt, set_files (<[path := f]> (files s)) s).

(** [sorted]: the order is total on the keys it is used for, so insertion
    sort gives the list Python's [sorted] gives. *)
Section sorting.
Context {A : Type} (leb : A -> A -> bool).
Fixpoint insert_sorted (x : A) (l : list A) : list A :=
  match l with
  | [] => [x]
  | y :: l' => if leb x y then x :: l else y :: insert_sorted x l'
  end.
Fixpoint sorted (l : list A) : list A :=
  match l with
  | [] => []
  | x :: l' => insert_sorted x (sorted l')
  end.
End sorting.

Definition string_leb (a b : string) : bool :=
  match String.compare a b with Gt => false | _ => true end.

(** Python 2 orders [None] before every integer. *)
Definition index_compare (i j : option nat) : comparison :=
  match i, j with
  | None, None => Eq
  | None, Some _ => Lt
  | Some _, None => Gt
  | Some a, Some b => Nat.compare a b
  end.

(** The order of the tuples [(index, name)]. *)
Definition key_leb (x y : option nat * string) : bool :=
  match index_compare (fst x) (fst y) with
  | Lt => true
  | Gt => false
  | Eq => string_leb (snd x) (snd y)
  end.

(** Links of an HDF5 group are iterated in the order of their names, so
    [hd.visit] reaches the datasets in the order of their segment lists. *)
Fixpoint names_leb (a b : list string) : bool :=
  match a, b with
  | [], _ => true
  | _ :: _, [] => false
  | x :: a', y :: b' =>
      match String.compare x y with
      | Lt => true
      | Gt => false
      | Eq => names_leb a' b'
      end
  end.

Definition h5_visit (datasets : list (string * Dataset)) : list (string * Dataset) :=
  sorted (fun x y => names_leb (split (fst x)) (split (fst y))) datasets.

(** [hd[key]] for a dataset name. *)
Definition h5_get (datasets : list (string * Dataset)) (key : string) : M Dataset :=
  match od_get key datasets with
  | Some ds => ret ds
  | None => raise KeyError
  end.

(** [hd[k] = v.d] with its two attributes; a name can be linked once. *)
Definition h5_create (path k : string) (ds : Dataset) : M unit :=
  do f <- open_file path ;;
  match f with
  | H5File datasets =>
      match od_get k datasets with
      | None => write_file path (H5File (datasets ++ [(k, ds)]))
      | Some _ => raise RuntimeError
      end
  | ProtoFile _ => raise IOError
  end.

Definition unwrap {A} (o : option A) (e : exn) : M A :=
  match o with
  | Some a => ret a
  | None => raise e
  end.

(** [numpy.reshape(parameter.data, parameter.shape.dim)] *)
Definition reshape (values : list float32) (dim : list nat) : M (list float32) :=
  if Nat.eqb (length values) (size_of dim) then ret values else raise ValueError.

(** The body of the loop over the datasets of an [.h5] file. *)
Definition load_h5_entry (datasets : list (string * Dataset)) (key : string)
    (proto : list ProtoParameter) : M (list ProtoParameter) :=
  do ds <- h5_get datasets key ;;
  do ng <- unwrap (ds_need_grad ds) KeyError ;;
  do var <- get_parameter_or_create key (ds_shape ds) None ng ;;
  exec set_d var (ds_value ds) ;;
  do v <- get_Variable var ;;
  do d <- get_d var ;;
  ret (proto ++ [mkParameter key (shape v) d (need_grad v)]).

(** The body of the loop over the records of a [.protobuf] file. *)
Definition load_protobuf_record (parameter : ProtoParameter) : M unit :=
  do var <- get_parameter_or_create (variable_name parameter) (shape_dim parameter) None true ;;
  do param <- reshape (parameter_data parameter) (shape_dim parameter) ;;
  exec set_d var param ;;
  set_need_grad var (parameter_need_grad parameter).

Definition dot_h5 : string := ".h5"%string.
Definition dot_protobuf : string := ".protobuf"%string.

(** [load_parameters(path, proto)]; the logger call leaves no trace in the
    state. *)
Definition load_parameters (path : string) (proto : option (list ProtoParameter))
  : M (list ProtoParameter) :=
  let ext := snd (splitext path) in
  let proto := match proto with Some p => p | None => [] end in
  if String.eqb ext dot_h5 then
    do f <- open_file path ;;
    match f with
    | H5File datasets =>
        let keys := map (fun e => (ds_index (snd e), fst e)) (h5_visit datasets) in
        for_each (map snd (sorted key_leb keys)) (load_h5_entry datasets) proto
    | ProtoFile _ => raise IOError
    end
  else if String.eqb ext dot_protobuf then
    do f <- open_file path ;;
    match f with
    | ProtoFile records =>
        let proto := proto ++ records in
        exec for_each proto (fun parameter _ => load_protobuf_record parameter) tt ;;
        ret proto
    | H5File _ => raise IOError
    end
  else ret proto.

(** The body of the [.h5] loop of [save_parameters]. *)
Definition save_h5_entry (path : string) (ikv : nat * (string * addr)) (_ : unit) : M unit :=
  let i := fst ikv in
  let k := fst (snd ikv) in
  let v := snd (snd ikv) in
  do d <- get_d v ;;
  do var <- get_Variable v ;;
  h5_create path k (mkDataset (shape var) d (Some (need_grad var)) (Some i)).

(** The body of the [.protobuf] loop of [save_parameters]. *)
Definition save_protobuf_record (kv : string * addr) (proto : list ProtoParameter)
  : M (list ProtoParameter) :=
  do var <- get_Variable (snd kv) ;;
  do d <- get_d (snd kv) ;;
  ret (proto ++ [mkParameter (fst kv) (shape var) d (need_grad var)]).

Definition enumerate {A} (l : list A) : list (nat * A) := combine (seq 0 (length l)) l.

(** [save_parameters(path)]; [format] is only used in the log line. *)
Definition save_parameters (limit : nat) (path : string) : M unit :=
  let ext := snd (splitext path) in
  do params <- get_parameters limit false ;;
  if String.eqb ext dot_h5 then
    exec write_file path (H5File []) ;;
    do params <- get_parameters limit false ;;
    for_each (enumerate params) (save_h5_entry path) tt
  else if String.eqb ext dot_protobuf then
    do proto <- for_each params save_protobuf_record [] ;;
    write_file path (ProtoFile proto)
  else
    exec assert false UnsupportedFormat ;;
    ret tt.

(** ** Reading the scope tree without running the program *)

(** The entry [k] of the scope at [c]. *)
Definition lookup_entry (h : list obj) (c : addr) (k : string) : option addr :=
  match h !! c with
  | Some (ODict d) => od_get k d
  | _ => None
  end.

Definition is_dict (h : list obj) (a : addr) : bool :=
  match h !! a with Some (ODict _) => true | _ => false end.

Definition is_Variable (h : list obj) (a : addr) : bool :=
  match h !! a with Some (OVariable _) => true | _ => false end.

(** The object stored at the path [names] below the scope [c]: every
    segment but the last names a subscope. *)
Fixpoint resolve (h : list obj) (c : addr) (names : list string) : option addr :=
  match names with
  | [] => None
  | [k] => lookup_entry h c k
  | n :: rest =>
      match lookup_entry h c n with
      | Some x => if is_dict h x then resolve h x rest else None
      | None => None
      end
  end.

(** The subscope reached from [c] along [names]. *)
Fixpoint resolve_scope (h : list obj) (c : addr) (names : list string) : option addr :=
  match names with
  | [] => if is_dict h c then Some c else None
  | n :: rest =>
      match lookup_entry h c n with
      | Some x => if is_dict h x then resolve_scope h x rest else None
      | None => None
      end
  end.

(** A parameter exists at [path] below the current scope. *)
Definition parameter_at (s : state) (path : string) (a : addr) (v : nn_Variable) : Prop :=
  resolve (heap s) (current_scope s) (split path) = Some a /\
  heap s !! a = Some (OVariable v).

(** * Properties *)

(** ** Strings *)

Lemma split_nonempty (s : string) : split s <> [].
Proof.
  destruct s as [|c s]; simpl; [discriminate|].
  destruct (Ascii.eqb c slash); [discriminate|].
  destruct (split s); discriminate.
Qed.

Lemma split_no_slash (s : string) : Forall (fun n => no_slash n = true) (split s).
Proof.
  induction s as [|c s IH]; simpl.
  - repeat constructor.
  - destruct (Ascii.eqb c slash) eqn:E.
    + constructor; [reflexivity | exact IH].
    + destruct (split s) as [|x xs].
      * repeat constructor. simpl. rewrite E. reflexivity.
      * inversion IH; subst. constructor; [|assumption].
        simpl. rewrite E. assumption.
Qed.

Lemma split_single (n : string) : no_slash n = true -> split n = [n].
Proof.
  induction n as [|c n IH]; simpl; [reflexivity|].
  intros H. apply andb_true_iff in H as [H1 H2].
  apply negb_true_iff in H1. rewrite H1, (IH H2). reflexivity.
Qed.

Lemma split_append_slash (x rest : string) :
  no_slash x = true ->
  split (String.append x (String slash rest)) = x :: split rest.
Proof.
  induction x as [|c x IH]; simpl; intros H.
  - reflexivity.
  - apply andb_true_iff in H as [H1 H2]. apply negb_true_iff in H1.
    rewrite H1, (IH H2). reflexivity.
Qed.

(** ['/'.join(names).split('/')] gives [names] back. *)
Lemma split_join (names : list string) :
  names <> [] -> Forall (fun n => no_slash n = true) names ->
  split (join names) = names.
Proof.
  induction names as [|x rest IH]; [congruence|].
  intros _ H. inversion H as [|? ? Hx Hrest]; subst.
  destruct rest as [|y rest].
  - simpl. apply split_single; assumption.
  - change (join (x :: y :: rest)) with (String.append x (String slash (join (y :: rest)))).
    rewrite split_append_slash by assumption.
    f_equal. apply IH; [discriminate | assumption].
Qed.

(** The recursion of the source, on strings. *)
Lemma get_parameter_eq (key : string) :
  get_parameter key =
  match split key with
  | n0 :: (_ :: _) as rest => with_parameter_scope n0 (get_parameter (join rest))
  | _ => get_parameter_leaf key
  end.
Proof.
  unfold get_parameter. pose proof (split_no_slash key) as H.
  destruct (split key) as [|n0 [|n1 rest]] eqn:E.
  - exfalso. eapply split_nonempty; eauto.
  - simpl. f_equal.
    revert E. clear.
    revert n0. induction key as [|c k IH]; simpl; intros n0 E.
    + congruence.
    + destruct (Ascii.eqb c slash).
      * pose proof (split_nonempty k). destruct (split k); congruence.
      * destruct (split k) as [|x [|y xs]] eqn:Ek; try congruence.
        -- exfalso. eapply split_nonempty; eauto.
        -- inversion E; subst. f_equal. apply IH. reflexivity.
  - inversion H as [|? ? _ H']; subst.
    rewrite split_join by (discriminate || assumption). reflexivity.
Qed.

Lemma get_parameter_or_create_eq (name : string) sh init ng :
  get_parameter_or_create name sh init ng =
  match split name with
  | n0 :: (_ :: _) as rest =>
      with_parameter_scope n0 (get_parameter_or_create (join rest) sh init ng)
  | _ => get_parameter_or_create_leaf (hd EmptyString (split name)) sh init ng
  end.
Proof.
  unfold get_parameter_or_create. pose proof (split_no_slash name) as H.
  destruct (split name) as [|n0 [|n1 rest]] eqn:E; try reflexivity.
  inversion H as [|? ? _ H']; subst.
  rewrite split_join by (discriminate || assumption). reflexivity.
Qed.

(** ** Ordered dictionaries and scope entry *)

Lemma od_set_same {V} (k : string) (v : V) d : od_get k d = Some v -> od_set k v d = d.
Proof.
  induction d as [|[k' v'] d IH]; simpl; [discriminate|].
  destruct (String.eqb k k') eqn:E.
  - intros [= ->]. apply String.eqb_eq in E. subst. reflexivity.
  - intros H. rewrite (IH H). reflexivity.
Qed.

Lemma od_set_absent {V} (k : string) (v : V) d : od_get k d = None -> od_set k v d = d ++ [(k, v)].
Proof.
  induction d as [|[k' v'] d IH]; simpl; [reflexivity|].
  destruct (String.eqb k k'); [discriminate|].
  intros H. rewrite (IH H). reflexivity.
Qed.

Lemma od_get_app {V} (k : string) (d d' : list (string * V)) :
  od_get k (d ++ d') = match od_get k d with Some v => Some v | None => od_get k d' end.
Proof.
  induction d as [|[k' v'] d IH]; simpl; [reflexivity|].
  destruct (String.eqb k k'); [reflexivity | exact IH].
Qed.

Ltac unfold_prims :=
  unfold parameter_scope_enter, parameter_scope_exit, dict_get, dict_setitem, dict_delitem,
    dict_items, get_Variable, isinstance_dict, isinstance_Variable, assert,
    get_current_scope, set_current_scope, deref, store, new, bind, ret, raise,
    set_heap, set_current, set_files.

Lemma enter_present h c r f name d x :
  h !! c = Some (ODict d) -> od_get name d = Some x -> is_dict h x = true ->
  parameter_scope_enter name (mkState h c r f) = (Ok c, mkState h x r f).
Proof.
  intros Hc Hn Hx. unfold is_dict in Hx. unfold_prims. cbn.
  rewrite Hc. cbn. rewrite Hn. cbn.
  destruct (h !! x) as [[]|]; try discriminate. cbn. rewrite Hc. cbn.
  rewrite (od_set_same _ _ _ Hn). rewrite list_insert_id by exact Hc. reflexivity.
Qed.

Lemma enter_absent h c r f name d :
  h !! c = Some (ODict d) -> od_get name d = None ->
  parameter_scope_enter name (mkState h c r f) =
  (Ok c, mkState (<[c := ODict (d ++ [(name, length h)])]> h ++ [ODict []]) (length h) r f).
Proof.
  intros Hc Hn. unfold_prims. cbn.
  rewrite Hc. cbn. rewrite Hn. cbn.
  rewrite lookup_app_r by lia. rewrite Nat.sub_diag. cbn.
  rewrite (lookup_app_l_Some _ _ _ _ Hc). cbn.
  rewrite (od_set_absent _ _ _ Hn).
  rewrite insert_app_l by (eapply lookup_lt_Some; eauto). reflexivity.
Qed.

Lemma enter_not_dict h c r f name d x :
  h !! c = Some (ODict d) -> od_get name d = Some x -> is_dict h x = false ->
  parameter_scope_enter name (mkState h c r f) =
  (Raise (AssertionError NotAScope), mkState h c r f).
Proof.
  intros Hc Hn Hx. unfold is_dict in Hx. unfold_prims. cbn.
  rewrite Hc. cbn. rewrite Hn. cbn. rewrite Hx. reflexivity.
Qed.

Lemma enter_prev name s prev s1 :
  parameter_scope_enter name s = (Ok prev, s1) -> prev = current_scope s.
Proof.
  unfold_prims. destruct s as [h c r f]; cbn.
  destruct (h !! c) as [[d| |]|]; cbn; try discriminate.
  destruct (od_get name d) as [x|]; cbn.
  - destruct (h !! x) as [[]|]; cbn; try discriminate.
    rewrite ?list_lookup_insert_eq; cbn; try congruence.
    destruct (h !! c) as [[]|]; cbn; congruence.
  - rewrite lookup_app_r by lia. rewrite Nat.sub_diag. cbn.
    destruct ((h ++ [ODict []]) !! c) as [[]|]; cbn; congruence.
Qed.

Lemma with_parameter_scope_eq {A} name (body : M A) s :
  with_parameter_scope name body s =
  match parameter_scope_enter name s with
  | (Raise e, s1) => (Raise e, s1)
  | (Ok prev, s1) =>
      match body s1 with
      | (Ok a, s2) => (Ok a, set_current prev s2)
      | (Raise e, s2) => (Raise e, s2)
      end
  end.
Proof.
  unfold with_parameter_scope. destruct (parameter_scope_enter name s) as [[prev|e] s1]; [|reflexivity].
  destruct (body s1) as [[a|e] s2]; reflexivity.
Qed.

(** ** Walking a path *)

(** The three path functions share their descent. *)
Fixpoint walk {A} (names : list string) (leaf : string -> M A) : M A :=
  match names with
  | [] => leaf EmptyString
  | [k] => leaf k
  | n0 :: rest => with_parameter_scope n0 (walk rest leaf)
  end.

Lemma get_parameter_names_walk names :
  get_parameter_names names = walk names get_parameter_leaf.
Proof.
  induction names as [|n [|m rest] IH]; try reflexivity.
  change (get_parameter_names (n :: m :: rest))
    with (with_parameter_scope n (get_parameter_names (m :: rest))).
  rewrite IH. reflexivity.
Qed.

Lemma get_parameter_or_create_names_walk names sh init ng :
  get_parameter_or_create_names names sh init ng =
  walk names (fun k => get_parameter_or_create_leaf k sh init ng).
Proof.
  induction names as [|n [|m rest] IH]; try reflexivity.
  change (get_parameter_or_create_names (n :: m :: rest) sh init ng)
    with (with_parameter_scope n (get_parameter_or_create_names (m :: rest) sh init ng)).
  rewrite IH. reflexivity.
Qed.

Lemma lookup_entry_dict h c k x :
  lookup_entry h c k = Some x -> exists d, h !! c = Some (ODict d) /\ od_get k d = Some x.
Proof.
  unfold lookup_entry. destruct (h !! c) as [[d| |]|]; try discriminate. eauto.
Qed.

(** Descending along scopes that exist changes nothing but the current
    scope, which is put back when the leaf returns. *)
Lemma walk_found_ok {A} (leaf : string -> M A) names h c r f x a s2 :
  resolve_scope h c (removelast names) = Some x ->
  leaf (List.last names EmptyString) (mkState h x r f) = (Ok a, s2) ->
  current_scope s2 = x ->
  walk names leaf (mkState h c r f) = (Ok a, set_current c s2).
Proof.
  revert c. induction names as [|n [|m rest] IH]; intros c Hres Hleaf Hcur.
  - cbn in *. destruct (is_dict h c); inversion Hres; subst.
    rewrite Hleaf. destruct s2; reflexivity.
  - cbn in *. destruct (is_dict h c); inversion Hres; subst.
    rewrite Hleaf. destruct s2; reflexivity.
  - change (walk (n :: m :: rest) leaf) with (with_parameter_scope n (walk (m :: rest) leaf)).
    change (removelast (n :: m :: rest)) with (n :: removelast (m :: rest)) in Hres.
    change (List.last (n :: m :: rest) EmptyString) with (List.last (m :: rest) EmptyString) in Hleaf.
    cbn [resolve_scope] in Hres.
    destruct (lookup_entry h c n) as [y|] eqn:Hy; [|discriminate].
    destruct (is_dict h y) eqn:Hd; [|discriminate].
    apply lookup_entry_dict in Hy as (d & Hc & Hn).
    rewrite with_parameter_scope_eq, (enter_present _ _ _ _ _ _ _ Hc Hn Hd).
    rewrite (IH y Hres Hleaf Hcur). reflexivity.
Qed.

(** When the leaf raises, nothing puts the current scope back. *)
Lemma walk_found_raise {A} (leaf : string -> M A) names h c r f x e s2 :
  resolve_scope h c (removelast names) = Some x ->
  leaf (List.last names EmptyString) (mkState h x r f) = (Raise e, s2) ->
  walk names leaf (mkState h c r f) = (Raise e, s2).
Proof.
  revert c. induction names as [|n [|m rest] IH]; intros c Hres Hleaf.
  - cbn in *. destruct (is_dict h c); inversion Hres; subst. exact Hleaf.
  - cbn in *. destruct (is_dict h c); inversion Hres; subst. exact Hleaf.
  - change (walk (n :: m :: rest) leaf) with (with_parameter_scope n (walk (m :: rest) leaf)).
    change (removelast (n :: m :: rest)) with (n :: removelast (m :: rest)) in Hres.
    change (List.last (n :: m :: rest) EmptyString) with (List.last (m :: rest) EmptyString) in Hleaf.
    cbn [resolve_scope] in Hres.
    destruct (lookup_entry h c n) as [y|] eqn:Hy; [|discriminate].
    destruct (is_dict h y) eqn:Hd; [|discriminate].
    apply lookup_entry_dict in Hy as (d & Hc & Hn).
    rewrite with_parameter_scope_eq, (enter_present _ _ _ _ _ _ _ Hc Hn Hd).
    rewrite (IH y Hres Hleaf). reflexivity.
Qed.

(** A path that resolves goes through scopes, and its last segment is an
    entry of the last of them. *)
Lemma resolve_split h c names a :
  resolve h c names = Some a ->
  exists x, resolve_scope h c (removelast names) = Some x /\
            lookup_entry h x (List.last names EmptyString) = Some a.
Proof.
  revert c. induction names as [|n [|m rest] IH]; intros c H.
  - discriminate.
  - cbn in *. exists c. unfold is_dict.
    destruct (lookup_entry_dict _ _ _ _ H) as (d & -> & _). auto.
  - change (removelast (n :: m :: rest)) with (n :: removelast (m :: rest)).
    change (List.last (n :: m :: rest) EmptyString) with (List.last (m :: rest) EmptyString).
    cbn [resolve resolve_scope] in *.
    destruct (lookup_entry h c n) as [y|]; [|discriminate].
    destruct (is_dict h y); [|discriminate]. apply IH, H.
Qed.

(** ** Running the primitives *)

Lemma bind_ok {A B} (m : M A) (k : A -> M B) s a s' :
  m s = (Ok a, s') -> bind m k s = k a s'.
Proof. intros H. unfold bind. rewrite H. reflexivity. Qed.

Lemma bind_raise {A B} (m : M A) (k : A -> M B) s e s' :
  m s = (Raise e, s') -> bind m k s = (Raise e, s').
Proof. intros H. unfold bind. rewrite H. reflexivity. Qed.

Lemma get_Variable_run h c r f a v :
  h !! a = Some (OVariable v) ->
  get_Variable a (mkState h c r f) = (Ok v, mkState h c r f).
Proof. intros H. unfold_prims. cbn. rewrite H. reflexivity. Qed.

Lemma get_d_run h c r f a v x :
  h !! a = Some (OVariable v) -> h !! data v = Some (OArray x) ->
  get_d a (mkState h c r f) = (Ok x, mkState h c r f).
Proof.
  intros H Hd. unfold get_d. rewrite (bind_ok _ _ _ _ _ (get_Variable_run _ _ _ _ _ _ H)).
  unfold_prims. cbn. rewrite Hd. reflexivity.
Qed.

Lemma set_d_run h c r f a v x :
  h !! a = Some (OVariable v) -> length x = size_of (shape v) ->
  set_d a x (mkState h c r f) = (Ok tt, mkState (<[data v := OArray x]> h) c r f).
Proof.
  intros H Hl. unfold set_d. rewrite (bind_ok _ _ _ _ _ (get_Variable_run _ _ _ _ _ _ H)).
  rewrite Hl, Nat.eqb_refl. reflexivity.
Qed.

Lemma set_d_bad h c r f a v x :
  h !! a = Some (OVariable v) -> length x <> size_of (shape v) ->
  set_d a x (mkState h c r f) = (Raise ValueError, mkState h c r f).
Proof.
  intros H Hl. unfold set_d. rewrite (bind_ok _ _ _ _ _ (get_Variable_run _ _ _ _ _ _ H)).
  apply Nat.eqb_neq in Hl. rewrite Hl. reflexivity.
Qed.

Lemma set_need_grad_run h c r f a v b :
  h !! a = Some (OVariable v) ->
  set_need_grad a b (mkState h c r f) =
  (Ok tt, mkState (<[a := OVariable (mkVariable (shape v) b (data v))]> h) c r f).
Proof.
  intros H. unfold set_need_grad.
  rewrite (bind_ok _ _ _ _ _ (get_Variable_run _ _ _ _ _ _ H)). reflexivity.
Qed.

Lemma Variable_new_run h c r f sh ng :
  Variable_new sh ng (mkState h c r f) =
  (Ok (S (length h)),
   mkState (h ++ [OArray (repeat 0%Z (size_of sh)); OVariable (mkVariable sh ng (length h))])
           c r f).
Proof.
  unfold Variable_new. unfold_prims. cbn. rewrite length_app. cbn.
  rewrite Nat.add_1_r, <- app_assoc. reflexivity.
Qed.

Lemma dict_setitem_run h c r f a d k v :
  h !! a = Some (ODict d) ->
  dict_setitem a k v (mkState h c r f) =
  (Ok tt, mkState (<[a := ODict (od_set k v d)]> h) c r f).
Proof. intros H. unfold_prims. cbn. rewrite H. reflexivity. Qed.

(** ** The leaf of [get_parameter_or_create] *)

Lemma get_parameter_single k : no_slash k = true -> get_parameter k = get_parameter_leaf k.
Proof. intros H. unfold get_parameter. rewrite (split_single _ H). reflexivity. Qed.

Lemma set_parameter_single k p :
  no_slash k = true ->
  set_parameter k p = (do cur <- get_current_scope ;; dict_setitem cur k p).
Proof. intros H. unfold set_parameter. rewrite (split_single _ H). reflexivity. Qed.

(** The data a new Variable starts with. *)
Definition initial_data (sh : list nat) (init : option (list nat -> list float32))
  : list float32 :=
  match init with
  | Some i => i sh
  | None => repeat 0%Z (size_of sh)
  end.

Section leaf.
Variables (h : list obj) (x r : addr) (f : gmap string file).
Variables (k : string) (d : list (string * addr)).
Hypothesis Hk : no_slash k = true.
Hypothesis Hx : h !! x = Some (ODict d).

Lemma get_parameter_leaf_found p v :
  od_get k d = Some p -> h !! p = Some (OVariable v) ->
  get_parameter_leaf k (mkState h x r f) = (Ok (Some p), mkState h x r f).
Proof.
  intros Hp Hv. unfold get_parameter_leaf. unfold_prims. cbn.
  rewrite Hx. cbn. rewrite Hp. cbn. rewrite Hv. reflexivity.
Qed.

Lemma get_parameter_leaf_absent :
  od_get k d = None ->
  get_parameter_leaf k (mkState h x r f) = (Ok None, mkState h x r f).
Proof.
  intros Hp. unfold get_parameter_leaf. unfold_prims. cbn.
  rewrite Hx. cbn. rewrite Hp. reflexivity.
Qed.

Lemma leaf_same p v sh init ng :
  od_get k d = Some p -> h !! p = Some (OVariable v) ->
  shape v = sh -> need_grad v = ng ->
  get_parameter_or_create_leaf k sh init ng (mkState h x r f) = (Ok p, mkState h x r f).
Proof.
  intros Hp Hv Hs Hg. unfold get_parameter_or_create_leaf.
  rewrite (get_parameter_single _ Hk). unfold bind at 1.
  rewrite (get_parameter_leaf_found _ _ Hp Hv). unfold_prims. cbn.
  rewrite Hv. cbn. rewrite bool_decide_true by exact Hs. cbn.
  rewrite Hg. rewrite eqb_reflx. reflexivity.
Qed.

Lemma leaf_unlinked p v sh init ng :
  od_get k d = Some p -> h !! p = Some (OVariable v) ->
  shape v = sh -> need_grad v <> ng ->
  get_parameter_or_create_leaf k sh init ng (mkState h x r f) =
  (Ok (length h), mkState (h ++ [OVariable (mkVariable (shape v) ng (data v))]) x r f).
Proof.
  intros Hp Hv Hs Hg. unfold get_parameter_or_create_leaf.
  rewrite (get_parameter_single _ Hk). unfold bind at 1.
  rewrite (get_parameter_leaf_found _ _ Hp Hv). unfold unlinked, set_need_grad. unfold_prims. cbn.
  rewrite Hv. cbn. rewrite bool_decide_true by exact Hs. cbn.
  replace (Bool.eqb ng (need_grad v)) with false
    by (destruct ng, (need_grad v); simpl; congruence).
  cbn. rewrite Hv. cbn.
  rewrite lookup_app_r by lia. rewrite Nat.sub_diag. cbn.
  rewrite insert_app_r_alt by lia. rewrite Nat.sub_diag. reflexivity.
Qed.

Lemma leaf_mismatch p v sh init ng :
  od_get k d = Some p -> h !! p = Some (OVariable v) ->
  shape v <> sh ->
  get_parameter_or_create_leaf k sh init ng (mkState h x r f) =
  (Raise (AssertionError ShapeMismatch), mkState h x r f).
Proof.
  intros Hp Hv Hs. unfold get_parameter_or_create_leaf.
  rewrite (get_parameter_single _ Hk). unfold bind at 1.
  rewrite (get_parameter_leaf_found _ _ Hp Hv). unfold_prims. cbn.
  rewrite Hv. cbn. rewrite bool_decide_false by exact Hs. reflexivity.
Qed.

Lemma leaf_create sh init ng :
  od_get k d = None ->
  length (initial_data sh init) = size_of sh ->
  get_parameter_or_create_leaf k sh init ng (mkState h x r f) =
  (Ok (S (length h)),
   mkState (<[x := ODict (d ++ [(k, S (length h))])]> h
            ++ [OArray (initial_data sh init); OVariable (mkVariable sh ng (length h))])
           x r f).
Proof.
  intros Hp Hlen. unfold get_parameter_or_create_leaf.
  rewrite (get_parameter_single _ Hk).
  rewrite (bind_ok _ _ _ _ _ (get_parameter_leaf_absent Hp)).
  rewrite (bind_ok _ _ _ _ _ (Variable_new_run _ _ _ _ _ _)).
  assert (Hlt : x < length h) by (eapply lookup_lt_Some; eauto).
  set (v := mkVariable sh ng (length h)).
  set (h1 := h ++ [OArray (repeat 0%Z (size_of sh)); OVariable v]).
  assert (Hv : h1 !! S (length h) = Some (OVariable v)).
  { unfold h1. rewrite lookup_app_r by lia.
    replace (S (length h) - length h) with 1 by lia. reflexivity. }
  assert (Hset : (exec match init with
                       | Some i => set_d (S (length h)) (i sh)
                       | None => ret tt
                       end ;;
                  exec set_parameter k (S (length h)) ;; ret (S (length h)))
                   (mkState h1 x r f) =
                 (exec set_parameter k (S (length h)) ;; ret (S (length h)))
                   (mkState (h ++ [OArray (initial_data sh init); OVariable v]) x r f)).
  { destruct init as [i|]; cbn in Hlen |- *.
    - rewrite (bind_ok _ _ _ _ _ (set_d_run _ _ _ _ _ _ _ Hv Hlen)).
      unfold h1. cbn. rewrite insert_app_r_alt by lia. rewrite Nat.sub_diag. reflexivity.
    - reflexivity. }
  rewrite Hset. rewrite (set_parameter_single _ _ Hk).
  unfold bind at 1. unfold bind at 1. unfold get_current_scope. cbn.
  erewrite dict_setitem_run by (apply lookup_app_l_Some; exact Hx).
  cbn. rewrite (od_set_absent _ _ _ Hp). rewrite insert_app_l by lia. reflexivity.
Qed.

End leaf.

(** ** [get_parameter_or_create] on a path that holds a parameter *)

Lemma last_split_no_slash p : no_slash (List.last (split p) EmptyString) = true.
Proof.
  pose proof (split_no_slash p) as H. pose proof (split_nonempty p) as Hne.
  induction (split p) as [|n [|m rest] IH]; [congruence| |].
  - inversion H; assumption.
  - inversion H; subst. apply IH; [assumption | discriminate].
Qed.

Section found.
Variables (h : list obj) (c r : addr) (f : gmap string file).
Variables (p : string) (a : addr) (v : nn_Variable).
Hypothesis Hat : parameter_at (mkState h c r f) p a v.

Lemma found_same sh init ng :
  shape v = sh -> need_grad v = ng ->
  get_parameter_or_create p sh init ng (mkState h c r f) = (Ok a, mkState h c r f).
Proof.
  intros Hs Hg. destruct Hat as [Hres Hv]. cbn in Hres, Hv.
  apply resolve_split in Hres as (x & Hx & Hl).
  apply lookup_entry_dict in Hl as (d & Hd & Hget).
  unfold get_parameter_or_create. rewrite get_parameter_or_create_names_walk.
  erewrite walk_found_ok.
  2: exact Hx.
  2: eapply leaf_same; eauto using last_split_no_slash.
  all: reflexivity.
Qed.

Lemma found_unlinked sh init ng :
  shape v = sh -> need_grad v <> ng ->
  get_parameter_or_create p sh init ng (mkState h c r f) =
  (Ok (length h), mkState (h ++ [OVariable (mkVariable (shape v) ng (data v))]) c r f).
Proof.
  intros Hs Hg. destruct Hat as [Hres Hv]. cbn in Hres, Hv.
  apply resolve_split in Hres as (x & Hx & Hl).
  apply lookup_entry_dict in Hl as (d & Hd & Hget).
  unfold get_parameter_or_create. rewrite get_parameter_or_create_names_walk.
  erewrite walk_found_ok.
  2: exact Hx.
  2: eapply leaf_unlinked; eauto using last_split_no_slash.
  all: reflexivity.
Qed.

Lemma found_mismatch sh init ng :
  shape v <> sh ->
  exists x,
    resolve_scope h c (removelast (split p)) = Some x /\
    get_parameter_or_create p sh init ng (mkState h c r f) =
    (Raise (AssertionError ShapeMismatch), mkState h x r f).
Proof.
  intros Hs. destruct Hat as [Hres Hv]. cbn in Hres, Hv.
  apply resolve_split in Hres as (x & Hx & Hl).
  apply lookup_entry_dict in Hl as (d & Hd & Hget).
  exists x. split; [exact Hx|].
  unfold get_parameter_or_create. rewrite get_parameter_or_create_names_walk.
  eapply walk_found_raise; [exact Hx|].
  eapply leaf_mismatch; eauto using last_split_no_slash.
Qed.
End found.

(** ** What a call of [get_parameter_or_create] keeps *)

(** [h'] keeps every Variable and buffer of [h] as it is and every entry of
    every scope of [h]. *)
Definition extends (h h' : list obj) : Prop :=
  forall a,
    match h !! a with
    | Some (ODict d) =>
        exists d', h' !! a = Some (ODict d') /\
                   forall k y, od_get k d = Some y -> od_get k d' = Some y
    | Some o => h' !! a = Some o
    | None => True
    end.

Lemma extends_refl h : extends h h.
Proof. intros a. destruct (h !! a) as [[d| |]|]; eauto. Qed.

Lemma extends_trans h1 h2 h3 : extends h1 h2 -> extends h2 h3 -> extends h1 h3.
Proof.
  intros H12 H23 a. specialize (H12 a). specialize (H23 a).
  destruct (h1 !! a) as [[d| |]|]; auto.
  - destruct H12 as (d2 & E2 & K2). rewrite E2 in H23.
    destruct H23 as (d3 & E3 & K3). eauto.
  - rewrite H12 in H23. exact H23.
  - rewrite H12 in H23. exact H23.
Qed.

Lemma extends_lookup_entry h h' a k y :
  extends h h' -> lookup_entry h a k = Some y -> lookup_entry h' a k = Some y.
Proof.
  intros E H. specialize (E a). unfold lookup_entry in *.
  destruct (h !! a) as [[d| |]|]; cbn in *; try discriminate.
  destruct E as (d' & -> & K). auto.
Qed.

Lemma extends_is_dict h h' a : extends h h' -> is_dict h a = true -> is_dict h' a = true.
Proof.
  intros E H. specialize (E a). unfold is_dict in *.
  destruct (h !! a) as [[d| |]|]; cbn in *; try discriminate.
  destruct E as (d' & -> & _). reflexivity.
Qed.

Lemma extends_Variable h h' a v :
  extends h h' -> h !! a = Some (OVariable v) -> h' !! a = Some (OVariable v).
Proof. intros E H. specialize (E a). rewrite H in E. exact E. Qed.

(** Adding an entry to a scope and allocating keeps everything. *)
Lemma extends_add_entry h c d k y tl :
  h !! c = Some (ODict d) -> od_get k d = None ->
  extends h (<[c := ODict (d ++ [(k, y)])]> h ++ tl).
Proof.
  intros Hc Hk a.
  assert (Hlt : c < length h) by (eapply lookup_lt_Some; eauto).
  destruct (decide (a = c)) as [->|Hne].
  - rewrite Hc. exists (d ++ [(k, y)]). split.
    + apply lookup_app_l_Some. apply list_lookup_insert_eq. exact Hlt.
    + intros k' y' H. rewrite od_get_app, H. reflexivity.
  - destruct (h !! a) as [o|] eqn:Ha; [|exact I].
    assert (H' : (<[c := ODict (d ++ [(k, y)])]> h ++ tl) !! a = Some o).
    { apply lookup_app_l_Some. rewrite list_lookup_insert_ne by congruence. exact Ha. }
    destruct o; eauto.
Qed.

Lemma extends_app h tl : extends h (h ++ tl).
Proof.
  intros a. destruct (h !! a) as [o|] eqn:Ha; [|exact I].
  pose proof (lookup_app_l_Some _ tl _ _ Ha) as H'. destruct o; eauto.
Qed.


(** ** Nested scopes *)

(** [with parameter_scope(n1): with parameter_scope(n2): ... body] *)
Fixpoint nested_scopes {A} (names : list string) (body : M A) : M A :=
  match names with
  | [] => body
  | n :: rest => with_parameter_scope n (nested_scopes rest body)
  end.

(** No name on the way is taken by something that is not a scope. *)
Fixpoint enterable (h : list obj) (c : addr) (names : list string) : bool :=
  match names with
  | [] => true
  | n :: rest =>
      match h !! c with
      | Some (ODict d) =>
          match od_get n d with
          | None => true
          | Some x => is_dict h x && enterable h x rest
          end
      | _ => false
      end
  end.

Lemma enterable_fresh h c names : h !! c = Some (ODict []) -> enterable h c names = true.
Proof. intros H. destruct names; cbn; [reflexivity|]. rewrite H. reflexivity. Qed.

Lemma nested_scopes_returns {A} (body : M A) names :
  (forall s1, exists a s2, body s1 = (Ok a, s2)) ->
  forall h c r f,
    enterable h c names = true ->
    exists a s', nested_scopes names body (mkState h c r f) = (Ok a, s').
Proof.
  intros Hbody. induction names as [|n rest IH]; intros h c r f He.
  - apply Hbody.
  - cbn [nested_scopes]. rewrite with_parameter_scope_eq. cbn in He.
    destruct (h !! c) as [[d| |]|] eqn:Hc; try discriminate.
    destruct (od_get n d) as [x|] eqn:Hx.
    + apply andb_true_iff in He as [Hd He].
      rewrite (enter_present _ _ _ _ _ _ _ Hc Hx Hd).
      destruct (IH h x r f He) as (a & s' & ->). eauto.
    + rewrite (enter_absent _ _ _ _ _ _ Hc Hx).
      edestruct IH as (a & s' & ->); [|eauto].
      apply enterable_fresh. rewrite lookup_app_r by (rewrite length_insert; lia).
      rewrite length_insert, Nat.sub_diag. reflexivity.
Qed.

(** The entries of a nest alone: the generator bodies up to their [yield],
    one after the other. *)
Fixpoint enter_scopes (names : list string) : M unit :=
  match names with
  | [] => ret tt
  | n :: rest => exec parameter_scope_enter n ;; enter_scopes rest
  end.

(** A nest is its entries, then the body, then, only when the body returns,
    the assignments after the [yield]s, of which the last one counts. *)
Lemma nested_scopes_run {A} (names : list string) (body : M A) :
  forall s,
    nested_scopes names body s =
    match enter_scopes names s with
    | (Raise e, s1) => (Raise e, s1)
    | (Ok _, s1) =>
        match body s1 with
        | (Ok a, s2) =>
            (Ok a, match names with [] => s2 | _ :: _ => set_current (current_scope s) s2 end)
        | (Raise e, s2) => (Raise e, s2)
        end
    end.
Proof.
  induction names as [|n rest IH]; intros s.
  - cbn. destruct (body s) as [[a|e] s2]; reflexivity.
  - cbn [nested_scopes enter_scopes]. rewrite with_parameter_scope_eq. unfold bind at 1.
    destruct (parameter_scope_enter n s) as [[prev|e] s1] eqn:He; [|reflexivity].
    apply enter_prev in He. subst prev. rewrite IH.
    destruct (enter_scopes rest s1) as [[u|e] s1']; [|reflexivity].
    destruct (body s1') as [[a|e] s2]; [|reflexivity].
    destruct rest; destruct s2; reflexivity.
Qed.

(** An entry that returns has made its scope the current one. *)
Lemma enter_ok n s prev s1 :
  parameter_scope_enter n s = (Ok prev, s1) ->
  lookup_entry (heap s1) (current_scope s) n = Some (current_scope s1) /\
  is_dict (heap s1) (current_scope s1) = true.
Proof.
  destruct s as [h c r f]. cbn [current_scope].
  destruct (h !! c) as [[d| |]|] eqn:Hc.
  2-4: unfold_prims; cbn; rewrite Hc; cbn; discriminate.
  destruct (od_get n d) as [x|] eqn:Hn.
  - destruct (is_dict h x) eqn:Hd.
    + rewrite (enter_present _ _ _ _ _ _ _ Hc Hn Hd). intros [= <- <-].
      cbn [heap current_scope]. unfold lookup_entry. rewrite Hc. auto.
    + rewrite (enter_not_dict _ _ _ _ _ _ _ Hc Hn Hd). discriminate.
  - rewrite (enter_absent _ _ _ _ _ _ Hc Hn). intros [= <- <-].
    cbn [heap current_scope].
    assert (Hlt : c < length h) by (eapply lookup_lt_Some; eauto).
    unfold lookup_entry, is_dict.
    rewrite lookup_app_l by (rewrite length_insert; lia).
    rewrite list_lookup_insert_eq by lia.
    rewrite lookup_app_r by (rewrite length_insert; lia).
    rewrite length_insert, Nat.sub_diag. cbn.
    rewrite od_get_app, Hn. cbn. rewrite String.eqb_refl. auto.
Qed.

(** An entry only adds to the store. *)
Lemma enter_extends n s : extends (heap s) (heap (snd (parameter_scope_enter n s))).
Proof.
  destruct s as [h c r f]. cbn [heap].
  destruct (h !! c) as [[d| |]|] eqn:Hc.
  2-4: unfold_prims; cbn; rewrite Hc; cbn; apply extends_refl.
  destruct (od_get n d) as [x|] eqn:Hn.
  - destruct (is_dict h x) eqn:Hd.
    + rewrite (enter_present _ _ _ _ _ _ _ Hc Hn Hd). apply extends_refl.
    + rewrite (enter_not_dict _ _ _ _ _ _ _ Hc Hn Hd). apply extends_refl.
  - rewrite (enter_absent _ _ _ _ _ _ Hc Hn). cbn [snd heap].
    apply extends_add_entry; assumption.
Qed.

(** After the entries the current scope is the scope the names lead to. *)
Lemma enter_scopes_resolve (names : list string) :
  forall s s1,
    is_dict (heap s) (current_scope s) = true ->
    enter_scopes names s = (Ok tt, s1) ->
    resolve_scope (heap s1) (current_scope s) names = Some (current_scope s1) /\
    extends (heap s) (heap s1).
Proof.
  induction names as [|n rest IH]; intros s s1 Hd Hrun.
  - cbn in Hrun. inversion Hrun; subst. cbn. rewrite Hd. split; [reflexivity|apply extends_refl].
  - cbn [enter_scopes] in Hrun. unfold bind in Hrun.
    pose proof (enter_extends n s) as Hext.
    destruct (parameter_scope_enter n s) as [[prev|e] sa] eqn:He; [|discriminate].
    cbn [snd] in Hext. destruct (enter_ok _ _ _ _ He) as [Hl Hda].
    destruct (IH sa s1 Hda Hrun) as [Hres Hext'].
    split; [|eapply extends_trans; eassumption].
    cbn [resolve_scope].
    rewrite (extends_lookup_entry _ _ _ _ _ Hext' Hl), (extends_is_dict _ _ _ Hext' Hda).
    exact Hres.
Qed.

(** C2, what the code does: a nest of scopes that is left normally puts the
    current scope back to what it was before the first entry, whatever the
    body did to it, and it is left normally whenever no name on the way is
    taken by a parameter and the body returns.  When the body raises,
    nothing of the generators runs after it: the nest raises the same
    exception in the very state the body raised in, so the current scope is
    where the body left it and not the one of before the first entry; the
    body starts in the scope the names lead to. *)
Theorem scopes_restored_only_on_normal_exit {A} (names : list string) (body : M A)
    (s : state) :
  names <> [] ->
  (forall a s', nested_scopes names body s = (Ok a, s') ->
                current_scope s' = current_scope s) /\
  ((forall s1, exists a s2, body s1 = (Ok a, s2)) ->
   enterable (heap s) (current_scope s) names = true ->
   exists a s', nested_scopes names body s = (Ok a, s') /\
                current_scope s' = current_scope s) /\
  (forall s1 e s2,
     enter_scopes names s = (Ok tt, s1) -> body s1 = (Raise e, s2) ->
     nested_scopes names body s = (Raise e, s2)) /\
  (forall s1,
     enter_scopes names s = (Ok tt, s1) ->
     resolve_scope (heap s1) (current_scope s) names = Some (current_scope s1)).
Proof.
  intros Hne.
  assert (Hrestore : forall a s', nested_scopes names body s = (Ok a, s') ->
                                  current_scope s' = current_scope s).
  { destruct names as [|n rest]; [congruence|]. intros a s' H.
    cbn [nested_scopes] in H. rewrite with_parameter_scope_eq in H.
    destruct (parameter_scope_enter n s) as [[prev|e] s1] eqn:He; [|discriminate].
    apply enter_prev in He. subst prev.
    destruct (nested_scopes rest body s1) as [[a'|e] s2]; [|discriminate].
    inversion H; subst. reflexivity. }
  split; [exact Hrestore|]. split; [|split].
  - intros Hbody He. destruct s as [h c r f].
    destruct (nested_scopes_returns body names Hbody h c r f He) as (a & s' & Hrun).
    exists a, s'. split; [exact Hrun | eapply Hrestore; exact Hrun].
  - intros s1 e s2 Hent Hbody. rewrite nested_scopes_run, Hent, Hbody. reflexivity.
  - intros s1 Hent. destruct names as [|n rest]; [congruence|].
    cbn [enter_scopes] in Hent. unfold bind in Hent.
    destruct (parameter_scope_enter n s) as [[prev|e] sa] eqn:He; [|discriminate].
    destruct (enter_ok _ _ _ _ He) as [Hl Hda].
    destruct (enter_scopes_resolve rest sa s1 Hda Hent) as [Hres Hext].
    cbn [resolve_scope].
    rewrite (extends_lookup_entry _ _ _ _ _ Hext Hl), (extends_is_dict _ _ _ Hext Hda).
    exact Hres.
Qed.

(** The store in which [a/w] is a parameter of shape [(2, 2)]. *)
Definition state_with_a_w : state :=
  mkState [ODict [("a"%string, 1)]; ODict [("w"%string, 3)];
           OArray [0%Z; 0%Z; 0%Z; 0%Z];
           OVariable (mkVariable [2; 2] true 2)] 0 0 ∅.

Lemma scopes_restored_only_on_normal_exit_witness :
  let names := ["a"%string] in
  let body := get_parameter_or_create "w" [3; 3] None true in
  let s := state_with_a_w in
  (forall a s', nested_scopes names body s = (Ok a, s') ->
                current_scope s' = current_scope s) /\
  ((forall s1, exists a s2, body s1 = (Ok a, s2)) ->
   enterable (heap s) (current_scope s) names = true ->
   exists a s', nested_scopes names body s = (Ok a, s') /\
                current_scope s' = current_scope s) /\
  (forall s1 e s2,
     enter_scopes names s = (Ok tt, s1) -> body s1 = (Raise e, s2) ->
     nested_scopes names body s = (Raise e, s2)) /\
  (forall s1,
     enter_scopes names s = (Ok tt, s1) ->
     resolve_scope (heap s1) (current_scope s) names = Some (current_scope s1)).
Proof.
  intros names body s.
  apply (scopes_restored_only_on_normal_exit names body s).
  discriminate.
Defined.

(** C2, as stated, fails: when the body raises, the generator is not
    resumed and the current scope is not put back.  Here the body is the
    module's own failing call for a parameter of another shape, in the
    scope [a] of [state_with_a_w]: the current scope stays [a]. *)
Lemma scopes_not_restored_on_exception :
  ~ (forall (names : list string) (body : M addr) (s : state) res s',
       names <> [] -> nested_scopes names body s = (res, s') ->
       current_scope s' = current_scope s).
Proof.
  intros H.
  specialize (H ["a"%string] (get_parameter_or_create "w" [3; 3] None true)
                (mkState [ODict [("a"%string, 1)]; ODict [("w"%string, 3)];
                          OArray [0%Z; 0%Z; 0%Z; 0%Z];
                          OVariable (mkVariable [2; 2] true 2)] 0 0 ∅)).
  vm_compute in H. specialize (H _ _ ltac:(discriminate) eq_refl). discriminate.
Qed.

(** ** C3: a parameter of another shape *)

(** C3: when a parameter exists at the path with a shape other than the
    requested one, [get_parameter_or_create] raises the shape assertion and
    returns no Variable; the store is as it was. *)
Theorem shape_mismatch_raises (s : state) (p : string) (a : addr) (v : nn_Variable)
    (sh : list nat) (init : option (list nat -> list float32)) (ng : bool) :
  parameter_at s p a v -> shape v <> sh ->
  exists s', get_parameter_or_create p sh init ng s =
             (Raise (AssertionError ShapeMismatch), s') /\
             heap s' = heap s.
Proof.
  intros Hat Hs. destruct s as [h c r f].
  destruct (found_mismatch h c r f p a v Hat sh init ng Hs) as (x & _ & Hrun).
  eexists. split; [exact Hrun | reflexivity].
Qed.

Definition state_with_p : state :=
  mkState [ODict [("p"%string, 2)]; OArray [0%Z; 0%Z; 0%Z; 0%Z];
           OVariable (mkVariable [2; 2] true 1)] 0 0 ∅.

Lemma shape_mismatch_raises_witness :
  exists s', get_parameter_or_create "p" [3; 3] None true state_with_p =
             (Raise (AssertionError ShapeMismatch), s') /\
             heap s' = heap state_with_p.
Proof.
  apply (shape_mismatch_raises state_with_p "p" 2 (mkVariable [2; 2] true 1)).
  - split; reflexivity.
  - simpl. discriminate.
Defined.

(** ** C1: the Variable a path gives *)




(** ** C10: [get_parameter] creates scopes *)

(** The scopes a lookup creates below a missing segment: each holds the
    next one, the last is empty. *)
Fixpoint fresh_chain (base : nat) (names : list string) : list obj :=
  match names with
  | [] => [ODict []]
  | n :: rest => ODict [(n, S base)] :: fresh_chain (S base) rest
  end.

Lemma walk_into {A} (leaf : string -> M A) pre names h c r f x a s2 :
  names <> [] ->
  resolve_scope h c pre = Some x ->
  walk names leaf (mkState h x r f) = (Ok a, s2) ->
  current_scope s2 = x ->
  walk (pre ++ names) leaf (mkState h c r f) = (Ok a, set_current c s2).
Proof.
  intros Hne. revert c. induction pre as [|n pre IH]; intros c Hres Hrun Hcur.
  - cbn in *. destruct (is_dict h c); inversion Hres; subst.
    rewrite Hrun. destruct s2; reflexivity.
  - cbn [resolve_scope] in Hres.
    destruct (lookup_entry h c n) as [y|] eqn:Hy; [|discriminate].
    destruct (is_dict h y) eqn:Hd; [|discriminate].
    apply lookup_entry_dict in Hy as (d & Hc & Hn).
    assert (Hw : walk ((n :: pre) ++ names) leaf =
                 with_parameter_scope n (walk (pre ++ names) leaf)).
    { cbn. destruct (pre ++ names) eqn:E; [|reflexivity].
      apply app_eq_nil in E as [_ ?]. congruence. }
    rewrite Hw, with_parameter_scope_eq, (enter_present _ _ _ _ _ _ _ Hc Hn Hd).
    rewrite (IH y Hres Hrun Hcur). reflexivity.
Qed.

Lemma fresh_walk names :
  names <> [] ->
  forall h0 r f,
    get_parameter_names names (mkState (h0 ++ [ODict []]) (length h0) r f) =
    (Ok None, mkState (h0 ++ fresh_chain (length h0) (removelast names)) (length h0) r f).
Proof.
  induction names as [|n [|m rest] IH]; [congruence| |]; intros _ h0 r f.
  - cbn [get_parameter_names removelast fresh_chain].
    apply (get_parameter_leaf_absent _ _ _ _ n []); [|reflexivity].
    rewrite lookup_app_r by lia. rewrite Nat.sub_diag. reflexivity.
  - change (get_parameter_names (n :: m :: rest))
      with (with_parameter_scope n (get_parameter_names (m :: rest))).
    change (removelast (n :: m :: rest)) with (n :: removelast (m :: rest)).
    rewrite with_parameter_scope_eq.
    rewrite (enter_absent _ _ _ _ n []); [| |reflexivity].
    2: { rewrite lookup_app_r by lia. rewrite Nat.sub_diag. reflexivity. }
    rewrite insert_app_r_alt by lia. rewrite Nat.sub_diag. cbn [insert list_insert app].
    rewrite length_app. cbn [length]. rewrite Nat.add_1_r.
    specialize (IH ltac:(discriminate) (h0 ++ [ODict [(n, S (length h0))]]) r f).
    rewrite length_app in IH. cbn [length] in IH. rewrite Nat.add_1_r in IH.
    rewrite IH. cbn [set_current heap current_scope root_scope files fresh_chain].
    rewrite <- app_assoc. reflexivity.
Qed.

(** C10: looking up a path of several segments whose scopes exist down to
    [x] but whose next segment [n] is missing there returns "not found" and
    leaves new scopes in the store: [n] is added to [x] and every further
    intermediate segment becomes a scope holding only the next one. *)
Theorem get_parameter_creates_scopes (h : list obj) (c r : addr) (f : gmap string file)
    (key : string) (pre : list string) (n : string) (rest : list string)
    (x : addr) (d : list (string * addr)) :
  split key = pre ++ n :: rest -> rest <> [] ->
  resolve_scope h c pre = Some x ->
  h !! x = Some (ODict d) -> od_get n d = None ->
  let h' := <[x := ODict (d ++ [(n, length h)])]> h ++
            fresh_chain (length h) (removelast rest) in
  get_parameter key (mkState h c r f) = (Ok None, mkState h' c r f) /\ h' <> h.
Proof.
  intros Hsplit Hrest Hres Hx Hn h'. split.
  - unfold get_parameter. rewrite Hsplit, get_parameter_names_walk.
    erewrite walk_into.
    2: discriminate.
    2: exact Hres.
    2: { rewrite <- get_parameter_names_walk.
         assert (Hw : get_parameter_names (n :: rest) =
                      with_parameter_scope n (get_parameter_names rest)).
         { destruct rest; [congruence | reflexivity]. }
         rewrite Hw, with_parameter_scope_eq, (enter_absent _ _ _ _ _ _ Hx Hn).
         pose proof (fresh_walk rest Hrest (<[x := ODict (d ++ [(n, length h)])]> h) r f) as Hf.
         rewrite length_insert in Hf. rewrite Hf. reflexivity. }
    all: reflexivity.
  - intros E. apply (f_equal length) in E. unfold h' in E.
    rewrite length_app, length_insert in E.
    destruct (removelast rest); cbn in E; lia.
Qed.

Lemma get_parameter_creates_scopes_witness :
  let h' := <[0 := ODict ([] ++ [("x"%string, 1)])]> [ODict []] ++
            fresh_chain 1 (removelast ["y"; "z"]%string) in
  get_parameter "x/y/z" (mkState [ODict []] 0 0 ∅) = (Ok None, mkState h' 0 0 ∅) /\
  h' <> [ODict []].
Proof.
  apply (get_parameter_creates_scopes [ODict []] 0 0 ∅ "x/y/z" [] "x" ["y"; "z"]%string 0 []).
  - reflexivity.
  - discriminate.
  - reflexivity.
  - reflexivity.
  - reflexivity.
Defined.

(** ** C7: [clear_parameters] *)

(** The scopes whose entries are read when [names] is resolved from [x]. *)
Fixpoint scopes_on_path (h : list obj) (x : addr) (names : list string) : list addr :=
  match names with
  | [] => []
  | [_] => [x]
  | n :: rest =>
      x :: match lookup_entry h x n with
           | Some y => if is_dict h y then scopes_on_path h y rest else []
           | None => []
           end
  end.

Lemma clear_loop h c r f d :
  h !! c = Some (ODict d) ->
  for_each (od_keys d) (fun key _ => do cur <- get_current_scope ;; dict_delitem cur key) tt
    (mkState h c r f) =
  (Ok tt, mkState (<[c := ODict []]> h) c r f).
Proof.
  revert h. induction d as [|[k v] d IH]; intros h Hc.
  - cbn. rewrite list_insert_id by exact Hc. reflexivity.
  - assert (Hlt : c < length h) by (eapply lookup_lt_Some; eauto).
    cbn [od_keys map for_each fst]. unfold bind at 1. unfold bind at 1.
    unfold get_current_scope. cbn [current_scope].
    unfold dict_delitem. unfold_prims. cbn. rewrite Hc. cbn.
    rewrite String.eqb_refl.
    specialize (IH (<[c := ODict d]> h)).
    rewrite list_lookup_insert_eq in IH by exact Hlt.
    specialize (IH eq_refl). rewrite list_insert_insert_eq in IH. exact IH.
Qed.

Lemma clear_frame_resolve h c d x names :
  h !! c = Some (ODict d) ->
  ~ In c (scopes_on_path h x names) ->
  resolve (<[c := ODict []]> h) x names = resolve h x names.
Proof.
  intros Hc. set (h' := <[c := ODict []]> h).
  assert (Hl : forall y k, y <> c -> lookup_entry h' y k = lookup_entry h y k).
  { intros y k Hy. unfold lookup_entry, h'. rewrite list_lookup_insert_ne by congruence.
    reflexivity. }
  assert (Hd : forall y, is_dict h' y = is_dict h y).
  { intros y. unfold is_dict, h'. destruct (decide (y = c)) as [->|Hy].
    - rewrite list_lookup_insert_eq by (eapply lookup_lt_Some; eauto). rewrite Hc. reflexivity.
    - rewrite list_lookup_insert_ne by congruence. reflexivity. }
  revert x. induction names as [|n [|m rest] IH]; intros x Hnot.
  - reflexivity.
  - cbn in *. apply Hl. intuition congruence.
  - change (resolve h' x (n :: m :: rest))
      with (match lookup_entry h' x n with
            | Some y => if is_dict h' y then resolve h' y (m :: rest) else None
            | None => None end).
    change (resolve h x (n :: m :: rest))
      with (match lookup_entry h x n with
            | Some y => if is_dict h y then resolve h y (m :: rest) else None
            | None => None end).
    change (scopes_on_path h x (n :: m :: rest))
      with (x :: match lookup_entry h x n with
                 | Some y => if is_dict h y then scopes_on_path h y (m :: rest) else []
                 | None => [] end) in Hnot.
    rewrite Hl by (intros ->; apply Hnot; left; reflexivity).
    destruct (lookup_entry h x n) as [y|]; [|reflexivity].
    rewrite Hd. destruct (is_dict h y); [|reflexivity].
    apply IH. intros Hin. apply Hnot. right. exact Hin.
Qed.

Lemma clear_parameters_run h c r f d :
  h !! c = Some (ODict d) ->
  clear_parameters (mkState h c r f) = (Ok tt, mkState (<[c := ODict []]> h) c r f).
Proof.
  intros Hc. unfold clear_parameters. unfold bind at 1. unfold get_current_scope.
  cbn [current_scope].
  unfold bind at 1. unfold dict_items, bind, deref. cbn [heap]. rewrite Hc.
  unfold ret. apply clear_loop. exact Hc.
Qed.

(** C7: [clear_parameters] empties the current scope and touches nothing
    else: every other object of the store is as it was, the current scope
    is still the same object (so its parent still holds it), and every path
    that does not go through the current scope resolves as before. *)
Theorem clear_parameters_current_only (h : list obj) (c r : addr) (f : gmap string file)
    (d : list (string * addr)) :
  h !! c = Some (ODict d) ->
  let h' := <[c := ODict []]> h in
  clear_parameters (mkState h c r f) = (Ok tt, mkState h' c r f) /\
  h' !! c = Some (ODict []) /\
  (forall a, a <> c -> h' !! a = h !! a) /\
  (forall x names, ~ In c (scopes_on_path h x names) ->
                   resolve h' x names = resolve h x names).
Proof.
  intros Hc h'. repeat split.
  - eapply clear_parameters_run. exact Hc.
  - apply list_lookup_insert_eq. eapply lookup_lt_Some; eauto.
  - intros a Ha. apply list_lookup_insert_ne. congruence.
  - intros x names Hnot. eapply clear_frame_resolve; eauto.
Qed.

(** The root holds the scopes [a] and [b], each with one parameter; the
    current scope is [a]. *)
Definition two_scopes : list obj :=
  [ODict [("a"%string, 1); ("b"%string, 4)];
   ODict [("w"%string, 3)]; OArray [0%Z]; OVariable (mkVariable [1] true 2);
   ODict [("v"%string, 6)]; OArray [0%Z]; OVariable (mkVariable [1] false 5)].

Lemma clear_parameters_current_only_witness :
  let h' := <[1 := ODict []]> two_scopes in
  clear_parameters (mkState two_scopes 1 0 ∅) = (Ok tt, mkState h' 1 0 ∅) /\
  h' !! 1 = Some (ODict []) /\
  (forall a, a <> 1 -> h' !! a = two_scopes !! a) /\
  (forall x names, ~ In 1 (scopes_on_path two_scopes x names) ->
                   resolve h' x names = resolve two_scopes x names).
Proof.
  apply (clear_parameters_current_only two_scopes 1 0 ∅ [("w"%string, 3)]).
  reflexivity.
Defined.

(** ** C8: other file extensions *)

Definition keeps_files {A} (m : M A) : Prop := forall s, files (snd (m s)) = files s.

Lemma keeps_files_bind {A B} (m : M A) (k : A -> M B) :
  keeps_files m -> (forall a, keeps_files (k a)) -> keeps_files (bind m k).
Proof.
  intros Hm Hk s. unfold bind. specialize (Hm s).
  destruct (m s) as [[a|e] s1]; cbn in *; [|exact Hm].
  rewrite (Hk a s1). exact Hm.
Qed.

Lemma keeps_files_for_each {A B} (l : list A) (body : A -> B -> M B) acc :
  (forall x b, keeps_files (body x b)) -> keeps_files (for_each l body acc).
Proof.
  intros Hb. revert acc. induction l as [|x l IH]; intros acc.
  - intros s. reflexivity.
  - cbn. apply keeps_files_bind; auto.
Qed.

Lemma keeps_files_dict_items a : keeps_files (dict_items a).
Proof. intros [h c r f]. unfold_prims. cbn. destruct (h !! a) as [[]|]; reflexivity. Qed.

Lemma keeps_files_get_Variable a : keeps_files (get_Variable a).
Proof. intros [h c r f]. unfold_prims. cbn. destruct (h !! a) as [[]|]; reflexivity. Qed.

Lemma keeps_files_enter n : keeps_files (parameter_scope_enter n).
Proof.
  intros [h c r f]. unfold_prims. cbn.
  destruct (h !! c) as [[d| |]|]; cbn; try reflexivity.
  destruct (od_get n d) as [x|]; cbn.
  - destruct (h !! x) as [[]|]; cbn; try reflexivity.
    destruct (h !! c) as [[]|]; reflexivity.
  - rewrite lookup_app_r by lia. rewrite Nat.sub_diag. cbn.
    destruct ((h ++ [ODict []]) !! c) as [[]|]; reflexivity.
Qed.

Lemma keeps_files_with {A} n (body : M A) :
  keeps_files body -> keeps_files (with_parameter_scope n body).
Proof.
  intros Hb s. rewrite with_parameter_scope_eq.
  pose proof (keeps_files_enter n s) as He.
  destruct (parameter_scope_enter n s) as [[prev|e] s1]; cbn in *; [|exact He].
  specialize (Hb s1). destruct (body s1) as [[a|e] s2]; cbn in *; congruence.
Qed.

Lemma keeps_files_get_parameters_rec limit :
  forall params path grad_only, keeps_files (get_parameters_rec limit params path grad_only).
Proof.
  induction limit as [|limit IH]; intros params path grad_only.
  - intros s. reflexivity.
  - cbn [get_parameters_rec]. apply keeps_files_bind; [intros s; reflexivity|]. intros cur.
    apply keeps_files_bind; [apply keeps_files_dict_items|]. intros entries.
    apply keeps_files_for_each. intros [k v] ps. cbn [fst snd].
    apply keeps_files_bind; [intros s; reflexivity|]. intros [|].
    + apply keeps_files_with, IH.
    + apply keeps_files_bind; [intros s; reflexivity|]. intros isv.
      apply keeps_files_bind; [destruct isv; intros s; reflexivity|]. intros _.
      apply keeps_files_bind; [apply keeps_files_get_Variable|]. intros var.
      destruct (negb grad_only || need_grad var); intros s; reflexivity.
Qed.

(** C8: with an extension that is neither [.h5] nor [.protobuf],
    [save_parameters] raises and leaves every file as it was, and what it
    raises is the unsupported-format assertion once the traversal of the
    parameters has returned; [load_parameters] raises nothing and returns
    with the state unchanged. *)
Theorem other_extension (limit : nat) (path : string) (s : state) :
  snd (splitext path) <> dot_h5 -> snd (splitext path) <> dot_protobuf ->
  (exists e s',
     save_parameters limit path s = (Raise e, s') /\ files s' = files s /\
     (forall ps s1, get_parameters limit false s = (Ok ps, s1) ->
                    e = AssertionError UnsupportedFormat)) /\
  (forall proto,
     load_parameters path proto s =
     (Ok match proto with Some p => p | None => [] end, s)).
Proof.
  intros H1 H2. apply String.eqb_neq in H1, H2. split.
  - unfold save_parameters. rewrite H1, H2. unfold bind at 1.
    pose proof (keeps_files_get_parameters_rec limit [] EmptyString false s) as Hk.
    fold (get_parameters limit false) in Hk.
    destruct (get_parameters limit false s) as [[ps|e] s1]; cbn in Hk.
    + exists (AssertionError UnsupportedFormat), s1. repeat split; auto.
    + exists e, s1. repeat split; auto. intros ps s2 [=].
  - intros proto. unfold load_parameters. rewrite H1, H2. reflexivity.
Qed.

Lemma other_extension_witness :
  (exists e s',
     save_parameters 10 "params.txt" initial_state = (Raise e, s') /\
     files s' = files initial_state /\
     (forall ps s1, get_parameters 10 false initial_state = (Ok ps, s1) ->
                    e = AssertionError UnsupportedFormat)) /\
  (forall proto,
     load_parameters "params.txt" proto initial_state =
     (Ok match proto with Some p => p | None => [] end, initial_state)).
Proof.
  apply (other_extension 10 "params.txt" initial_state).
  - vm_compute. discriminate.
  - vm_compute. discriminate.
Defined.

(** ** C5: loading a record of the flat format *)

Lemma load_parameters_protobuf path records s :
  snd (splitext path) = dot_protobuf ->
  files s !! path = Some (ProtoFile records) ->
  load_parameters path None s =
  (exec for_each records (fun parameter _ => load_protobuf_record parameter) tt ;;
   ret records) s.
Proof.
  intros He Hf. unfold load_parameters. rewrite He.
  replace (String.eqb dot_protobuf dot_h5) with false by reflexivity.
  rewrite String.eqb_refl.
  unfold bind at 1. unfold open_file. rewrite Hf. reflexivity.
Qed.

(** The loop body on a record whose path holds a parameter of the record's
    shape, the record having as many values as the shape asks for. *)
Lemma load_protobuf_record_found (h : list obj) (c r : addr) (f : gmap string file)
    (parameter : ProtoParameter) (a : addr) (v : nn_Variable) (x0 : list float32) :
  parameter_at (mkState h c r f) (variable_name parameter) a v ->
  shape v = shape_dim parameter ->
  length (parameter_data parameter) = size_of (shape_dim parameter) ->
  h !! data v = Some (OArray x0) ->
  let hd := <[data v := OArray (parameter_data parameter)]> h in
  let v' := mkVariable (shape v) (parameter_need_grad parameter) (data v) in
  if need_grad v then
    load_protobuf_record parameter (mkState h c r f) =
    (Ok tt, mkState (<[a := OVariable v']> hd) c r f) /\
    (<[a := OVariable v']> hd) !! a = Some (OVariable v')
  else
    load_protobuf_record parameter (mkState h c r f) =
    (Ok tt, mkState (hd ++ [OVariable v']) c r f) /\
    (hd ++ [OVariable v']) !! a = Some (OVariable v).
Proof.
  intros Hat Hs Hlen Hd hd v'.
  pose proof Hat as [_ Hv]. cbn [heap] in Hv.
  assert (Hne : a <> data v) by (intros E; rewrite <- E, Hv in Hd; discriminate).
  assert (Hlta : a < length h) by (eapply lookup_lt_Some; eauto).
  assert (Hltd : data v < length h) by (eapply lookup_lt_Some; eauto).
  assert (Hreshape : forall s, reshape (parameter_data parameter) (shape_dim parameter) s =
                               (Ok (parameter_data parameter), s)).
  { intros s. unfold reshape. rewrite Hlen, Nat.eqb_refl. reflexivity. }
  unfold load_protobuf_record.
  destruct (need_grad v) eqn:Hg.
  - rewrite (bind_ok _ _ _ _ _ (found_same h c r f _ a v Hat _ None true Hs Hg)).
    rewrite (bind_ok _ _ _ _ _ (Hreshape _)).
    erewrite (bind_ok _ _ _ _ _ (set_d_run _ _ _ _ _ _ _ Hv _)).
    split.
    + erewrite set_need_grad_run; [reflexivity|].
      rewrite list_lookup_insert_ne by congruence. exact Hv.
    + apply list_lookup_insert_eq. unfold hd. rewrite length_insert. exact Hlta.
  - assert (Hg' : need_grad v <> true) by congruence.
    rewrite (bind_ok _ _ _ _ _ (found_unlinked h c r f _ a v Hat _ None true Hs Hg')).
    rewrite (bind_ok _ _ _ _ _ (Hreshape _)).
    assert (Hq : (h ++ [OVariable (mkVariable (shape v) true (data v))]) !! length h =
                 Some (OVariable (mkVariable (shape v) true (data v)))).
    { rewrite lookup_app_r by lia. rewrite Nat.sub_diag. reflexivity. }
    erewrite (bind_ok _ _ _ _ _ (set_d_run _ _ _ _ _ _ _ Hq _)).
    cbn [data shape].
    rewrite insert_app_l by exact Hltd. fold hd.
    split.
    + erewrite set_need_grad_run.
      2: { rewrite lookup_app_r by (unfold hd; rewrite length_insert; lia).
           unfold hd. rewrite length_insert, Nat.sub_diag. reflexivity. }
      cbn [shape data].
      rewrite insert_app_r_alt by (unfold hd; rewrite length_insert; lia).
      unfold hd at 2. rewrite length_insert, Nat.sub_diag. reflexivity.
    + apply lookup_app_l_Some. unfold hd.
      rewrite list_lookup_insert_ne by congruence. exact Hv.
  Unshelve.
  all: cbn [shape]; congruence.
Qed.

(** The current scope holds [w], of shape [(1,)], with [need_grad] false, and
    the file holds one record for [w] with [need_grad] true. *)
Definition state_with_w : state :=
  mkState [ODict [("w"%string, 2)]; OArray [0%Z]; OVariable (mkVariable [1] false 1)] 0 0
          {[ "f.protobuf"%string := ProtoFile [mkParameter "w" [1] [5%Z] true] ]}.

(** The first record of a file decides how the load goes on. *)
Lemma load_first_record path parameter rest s :
  snd (splitext path) = dot_protobuf ->
  files s !! path = Some (ProtoFile (parameter :: rest)) ->
  load_parameters path None s =
  match load_protobuf_record parameter s with
  | (Ok _, s1) =>
      (exec for_each rest (fun p _ => load_protobuf_record p) tt ;;
       ret (parameter :: rest)) s1
  | (Raise e, s1) => (Raise e, s1)
  end.
Proof.
  intros He Hf. rewrite (load_parameters_protobuf path _ s He Hf).
  cbn [for_each]. unfold bind at 1 2.
  destruct (load_protobuf_record parameter s) as [[[]|e] s1]; reflexivity.
Qed.

(** C5, what the code does: for the first record of a [.protobuf] file
    whose path holds a parameter, [load_parameters] asks
    [get_parameter_or_create] for it with the record's shape and the default
    [need_grad=True].  When the shapes differ the load raises the shape
    assertion and the store is as it was.  When the record has another
    number of values than its shape asks for, the load raises [ValueError]
    out of [numpy.reshape].  Otherwise the record's values are written into
    the data buffer of the parameter and the load goes on with the other
    records; the flag of the record is set on the Variable that
    [get_parameter_or_create] returned: when the parameter has [need_grad]
    true that is the parameter itself, when it has [need_grad] false it is a
    new unlinked view, and the parameter keeps its flag, false. *)
Theorem load_parameters_existing_parameter (h : list obj) (c r : addr)
    (f : gmap string file) (path : string) (parameter : ProtoParameter)
    (rest : list ProtoParameter) (a : addr) (v : nn_Variable) (x0 : list float32) :
  snd (splitext path) = dot_protobuf ->
  f !! path = Some (ProtoFile (parameter :: rest)) ->
  parameter_at (mkState h c r f) (variable_name parameter) a v ->
  h !! data v = Some (OArray x0) ->
  let s := mkState h c r f in
  let view g := OVariable (mkVariable (shape v) g (data v)) in
  let go_on s1 :=
    (exec for_each rest (fun p _ => load_protobuf_record p) tt ;;
     ret (parameter :: rest)) s1 in
  (shape v <> shape_dim parameter ->
   exists x, load_parameters path None s =
             (Raise (AssertionError ShapeMismatch), mkState h x r f)) /\
  (shape v = shape_dim parameter ->
   length (parameter_data parameter) <> size_of (shape_dim parameter) ->
   load_parameters path None s =
   (Raise ValueError, mkState (if need_grad v then h else h ++ [view true]) c r f)) /\
  (shape v = shape_dim parameter ->
   length (parameter_data parameter) = size_of (shape_dim parameter) ->
   let hd := <[data v := OArray (parameter_data parameter)]> h in
   let flag := parameter_need_grad parameter in
   if need_grad v then
     load_parameters path None s = go_on (mkState (<[a := view flag]> hd) c r f) /\
     (<[a := view flag]> hd) !! a = Some (view flag)
   else
     load_parameters path None s = go_on (mkState (hd ++ [view flag]) c r f) /\
     (hd ++ [view flag]) !! a = Some (OVariable v) /\
     (hd ++ [view flag]) !! length h = Some (view flag)).
Proof.
  intros He Hf Hat Hd s view go_on. subst s.
  pose proof (load_first_record path parameter rest (mkState h c r f) He Hf) as Hload.
  split; [|split].
  - intros Hs.
    destruct (found_mismatch h c r f _ a v Hat (shape_dim parameter) None true Hs)
      as (x & _ & Hrun).
    exists x. rewrite Hload. unfold load_protobuf_record.
    rewrite (bind_raise _ _ _ _ _ Hrun). reflexivity.
  - intros Hs Hlen. rewrite Hload. unfold load_protobuf_record.
    assert (Hre : forall s0, reshape (parameter_data parameter) (shape_dim parameter) s0 =
                             (Raise ValueError, s0)).
    { intros s0. unfold reshape. apply Nat.eqb_neq in Hlen. rewrite Hlen. reflexivity. }
    destruct (need_grad v) eqn:Hg.
    + rewrite (bind_ok _ _ _ _ _ (found_same h c r f _ a v Hat _ None true Hs Hg)).
      rewrite (bind_raise _ _ _ _ _ (Hre _)). reflexivity.
    + assert (Hg' : need_grad v <> true) by congruence.
      rewrite (bind_ok _ _ _ _ _ (found_unlinked h c r f _ a v Hat _ None true Hs Hg')).
      rewrite (bind_raise _ _ _ _ _ (Hre _)). reflexivity.
  - intros Hs Hlen hd flag.
    pose proof (load_protobuf_record_found h c r f parameter a v x0 Hat Hs Hlen Hd) as Hrec.
    cbv zeta in Hrec. fold hd flag in Hrec. fold (view flag) in Hrec.
    destruct (need_grad v).
    + destruct Hrec as [Hrun Hv]. split; [|exact Hv].
      rewrite Hload, Hrun. reflexivity.
    + destruct Hrec as [Hrun Hv]. split; [|split; [exact Hv|]].
      * rewrite Hload, Hrun. reflexivity.
      * rewrite lookup_app_r by (unfold hd; rewrite length_insert; lia).
        unfold hd. rewrite length_insert, Nat.sub_diag. reflexivity.
Qed.

Lemma load_parameters_existing_parameter_witness :
  let parameter := mkParameter "w" [1] [5%Z] true in
  let h := heap state_with_w in
  let f := files state_with_w in
  let v := mkVariable [1] false 1 in
  let s := mkState h 0 0 f in
  let view g := OVariable (mkVariable (shape v) g (data v)) in
  let go_on s1 :=
    (exec for_each [] (fun p _ => load_protobuf_record p) tt ;; ret [parameter]) s1 in
  (shape v <> shape_dim parameter ->
   exists x, load_parameters "f.protobuf" None s =
             (Raise (AssertionError ShapeMismatch), mkState h x 0 f)) /\
  (shape v = shape_dim parameter ->
   length (parameter_data parameter) <> size_of (shape_dim parameter) ->
   load_parameters "f.protobuf" None s =
   (Raise ValueError, mkState (if need_grad v then h else h ++ [view true]) 0 0 f)) /\
  (shape v = shape_dim parameter ->
   length (parameter_data parameter) = size_of (shape_dim parameter) ->
   let hd := <[data v := OArray (parameter_data parameter)]> h in
   let flag := parameter_need_grad parameter in
   if need_grad v then
     load_parameters "f.protobuf" None s = go_on (mkState (<[2 := view flag]> hd) 0 0 f) /\
     (<[2 := view flag]> hd) !! 2 = Some (view flag)
   else
     load_parameters "f.protobuf" None s = go_on (mkState (hd ++ [view flag]) 0 0 f) /\
     (hd ++ [view flag]) !! 2 = Some (OVariable v) /\
     (hd ++ [view flag]) !! length h = Some (view flag)).
Proof.
  intros parameter h f v.
  apply (load_parameters_existing_parameter h 0 0 f "f.protobuf" parameter [] 2 v [0%Z]).
  - reflexivity.
  - reflexivity.
  - split; reflexivity.
  - reflexivity.
Defined.

(** C5, as stated, fails: a parameter that exists with [need_grad] false keeps
    its flag when the record says true. *)
Lemma load_keeps_need_grad_false :
  ~ (forall (s : state) (path : string) (parameter : ProtoParameter)
            (a : addr) (v : nn_Variable) proto s',
       files s !! path = Some (ProtoFile [parameter]) ->
       parameter_at s (variable_name parameter) a v ->
       load_parameters path None s = (Ok proto, s') ->
       exists v', heap s' !! a = Some (OVariable v') /\
                  need_grad v' = parameter_need_grad parameter).
Proof.
  intros H.
  destruct (H state_with_w "f.protobuf"%string (mkParameter "w" [1] [5%Z] true) 2
              (mkVariable [1] false 1) _ _ eq_refl (conj eq_refl eq_refl) eq_refl)
    as (v' & Hv' & Hg).
  vm_compute in Hv'. inversion Hv'; subst. discriminate.
Qed.

(** ** The scope tree *)

(** The tree below a scope: a parameter is the address of its Variable, a
    scope has its own address and its entries in insertion order. *)
#[warnings="-register-all"]
Inductive tree :=
| TLeaf (a : addr)
| TNode (a : addr) (entries : list (string * tree)).

Definition root (t : tree) : addr :=
  match t with
  | TLeaf a => a
  | TNode a _ => a
  end.

Definition is_scope (t : tree) : bool :=
  match t with
  | TLeaf _ => false
  | TNode _ _ => true
  end.

Definition entry_of (kt : string * tree) : string * addr := (fst kt, root (snd kt)).

(** The store holds the tree: every scope is an [OrderedDict] with exactly
    these entries, under distinct keys, and every parameter is a Variable. *)
Fixpoint holds (h : list obj) (t : tree) : Prop :=
  match t with
  | TLeaf a => exists v, h !! a = Some (OVariable v)
  | TNode a es =>
      h !! a = Some (ODict (map entry_of es)) /\ NoDup (map fst es) /\
      (fix all (l : list (string * tree)) : Prop :=
         match l with
         | [] => True
         | kt :: l' => holds h (snd kt) /\ all l'
         end) es
  end.

Fixpoint depth (t : tree) : nat :=
  match t with
  | TLeaf _ => 0
  | TNode _ es =>
      S ((fix mx (l : list (string * tree)) : nat :=
            match l with
            | [] => 0
            | kt :: l' => Nat.max (depth (snd kt)) (mx l')
            end) es)
  end.

(** The depth-first traversal: entries in insertion order, a subscope is
    walked when it is met; a parameter gives its path. *)
Fixpoint dfs (path : string) (t : tree) : list (string * addr) :=
  match t with
  | TLeaf a => [(path, a)]
  | TNode _ es =>
      (fix go (l : list (string * tree)) : list (string * addr) :=
         match l with
         | [] => []
         | kt :: l' => dfs (child_path path (fst kt)) (snd kt) ++ go l'
         end) es
  end.

Definition dfs_entries (path : string) (es : list (string * tree)) : list (string * addr) :=
  flat_map (fun kt => dfs (child_path path (fst kt)) (snd kt)) es.

(** [v.need_grad] of the Variable at [a]. *)
Definition var_need_grad (h : list obj) (a : addr) : bool :=
  match h !! a with
  | Some (OVariable v) => need_grad v
  | _ => false
  end.

(** The test [not grad_only or v.need_grad]. *)
Definition kept (h : list obj) (grad_only : bool) (kv : string * addr) : bool :=
  negb grad_only || var_need_grad h (snd kv).

(** [params[k] = v] for a list of pairs, in order. *)
Definition od_update (params : list (string * addr)) (l : list (string * addr))
  : list (string * addr) :=
  fold_left (fun acc kv => od_set (fst kv) (snd kv) acc) l params.

Lemma tree_ind' (P : tree -> Prop) :
  (forall a, P (TLeaf a)) ->
  (forall a es, Forall (fun kt => P (snd kt)) es -> P (TNode a es)) ->
  forall t, P t.
Proof.
  intros Hl Hn. fix IH 1. intros [a|a es].
  - apply Hl.
  - apply Hn. induction es as [|kt es IHes]; constructor; [apply IH | exact IHes].
Qed.

Lemma holds_node h a es :
  holds h (TNode a es) <->
  h !! a = Some (ODict (map entry_of es)) /\ NoDup (map fst es) /\
  Forall (fun kt => holds h (snd kt)) es.
Proof.
  cbn [holds]. split; intros (H1 & H2 & H3); repeat split; auto.
  - clear H1. induction es as [|kt es IH]; [constructor|].
    inversion H2; subst. destruct H3 as [Hkt Hes]. constructor; [exact Hkt|].
    apply IH; assumption.
  - clear H1 H2. induction H3; [exact I | split; assumption].
Qed.

Lemma depth_node a es :
  depth (TNode a es) = S (fold_right (fun kt m => Nat.max (depth (snd kt)) m) 0 es).
Proof. cbn [depth]. f_equal. Qed.

Lemma dfs_node path a es : dfs path (TNode a es) = dfs_entries path es.
Proof.
  cbn [dfs]. unfold dfs_entries. induction es as [|kt es IH]; cbn; congruence.
Qed.

Lemma od_get_entry (es : list (string * tree)) k t :
  NoDup (map fst es) -> In (k, t) es -> od_get k (map entry_of es) = Some (root t).
Proof.
  induction es as [|[k' t'] es IH]; intros Hnd Hin; [destruct Hin|].
  inversion Hnd as [|? ? Hnot Hnd']; subst. cbn.
  destruct Hin as [[= -> ->]|Hin].
  - rewrite String.eqb_refl. reflexivity.
  - destruct (String.eqb k k') eqn:E.
    + apply String.eqb_eq in E. subst. exfalso. apply Hnot.
      apply list_elem_of_In, in_map_iff. exists (k', t). auto.
    + apply IH; assumption.
Qed.

Lemma od_update_app params l1 l2 :
  od_update params (l1 ++ l2) = od_update (od_update params l1) l2.
Proof. unfold od_update. apply fold_left_app. Qed.

Lemma is_dict_holds h t : holds h t -> is_dict h (root t) = is_scope t.
Proof.
  destruct t as [a|a es]; cbn [holds root is_scope]; unfold is_dict.
  - intros [v ->]. reflexivity.
  - intros [-> _]. reflexivity.
Qed.

(** The traversal of the source is the depth-first traversal of the tree,
    and it leaves the state as it found it. *)
Lemma get_parameters_rec_tree t :
  is_scope t = true ->
  forall limit params path g h r f,
    holds h t -> depth t <= limit ->
    get_parameters_rec limit params path g (mkState h (root t) r f) =
    (Ok (od_update params (List.filter (kept h g) (dfs path t))), mkState h (root t) r f).
Proof.
  induction t as [a|a es IH] using tree_ind'; [discriminate|].
  intros _ limit params path g h r f Hh Hd.
  rewrite depth_node in Hd. destruct limit as [|limit]; [lia|].
  apply holds_node in Hh as (Ha & Hnd & Hes).
  cbn [get_parameters_rec root].
  unfold bind at 1. unfold get_current_scope. cbn [current_scope].
  unfold bind at 1. unfold dict_items, bind, deref. cbn [heap]. rewrite Ha. unfold ret.
  rewrite dfs_node.
  assert (Hloop : forall es', incl es' es -> forall params,
    for_each (map entry_of es')
      (fun kv params =>
         do is_d <- isinstance_dict (snd kv) ;;
         if is_d then
           with_parameter_scope (fst kv)
             (get_parameters_rec limit params (child_path path (fst kv)) g)
         else
           do is_var <- isinstance_Variable (snd kv) ;;
           exec assert is_var NotAVariable ;;
           do var <- get_Variable (snd kv) ;;
           if negb g || need_grad var
           then ret (od_set (child_path path (fst kv)) (snd kv) params)
           else ret params)
      params (mkState h a r f) =
    (Ok (od_update params (List.filter (kept h g) (dfs_entries path es'))), mkState h a r f)).
  { induction es' as [|[k child] es' IHes']; intros Hincl params'.
    - reflexivity.
    - assert (Hin : In (k, child) es) by (apply Hincl; left; reflexivity).
      assert (Hincl' : incl es' es) by (intros x Hx; apply Hincl; right; exact Hx).
      pose proof (proj1 (List.Forall_forall _ _) Hes _ Hin) as Hchild. cbn [snd] in Hchild.
      pose proof (proj1 (List.Forall_forall _ _) IH _ Hin) as IHchild. cbn [snd] in IHchild.
      assert (Hdc : depth child <= limit).
      { clear - Hd Hin. apply le_S_n in Hd. revert Hd.
        induction es as [|kt es IHes]; [destruct Hin|]. cbn [fold_right].
        destruct Hin as [->|Hin]; [cbn [snd]; lia | specialize (IHes Hin); lia]. }
      change (map entry_of ((k, child) :: es')) with ((k, root child) :: map entry_of es').
      cbn [for_each fst snd].
      unfold dfs_entries. cbn [flat_map fst snd]. fold (dfs_entries path es').
      rewrite List.filter_app, od_update_app.
      unfold bind at 1. unfold bind at 1. unfold isinstance_dict at 1. cbn [heap].
      fold (is_dict h (root child)). rewrite (is_dict_holds _ _ Hchild).
      destruct child as [a'|a' es2]; cbn [is_scope root].
      + destruct Hchild as [v Hv]. cbn [root] in *.
        unfold isinstance_Variable, assert, bind, ret. cbn [heap]. rewrite Hv.
        unfold get_Variable, bind, deref, ret. cbn [heap]. rewrite Hv.
        assert (Hk : kept h g (child_path path k, a') = negb g || need_grad v).
        { unfold kept, var_need_grad. cbn [snd]. rewrite Hv. reflexivity. }
        cbn [dfs List.filter]. rewrite Hk.
        destruct (negb g || need_grad v); apply IHes'; exact Hincl'.
      + rewrite with_parameter_scope_eq.
        rewrite (enter_present h a r f k (map entry_of es) a' Ha
                   (od_get_entry es k (TNode a' es2) Hnd Hin)
                   (eq_trans (is_dict_holds _ _ Hchild) eq_refl)).
        pose proof (IHchild eq_refl limit params' (child_path path k) g h r f Hchild Hdc)
          as Hrec.
        cbn [root] in Hrec. rewrite Hrec.
        cbn [set_current heap root root_scope files]. apply IHes'. exact Hincl'. }
  apply Hloop. apply incl_refl.
Qed.

(** ** Dictionaries with distinct keys *)

Lemma od_get_None {V} (k : string) (l : list (string * V)) :
  ~ In k (map fst l) -> od_get k l = None.
Proof.
  induction l as [|[k' v'] l IH]; cbn; intros H; [reflexivity|].
  destruct (String.eqb k k') eqn:E.
  - apply String.eqb_eq in E. subst. exfalso. apply H. left. reflexivity.
  - apply IH. intros Hin. apply H. right. exact Hin.
Qed.

Lemma od_get_In {V} (k : string) (v : V) (l : list (string * V)) :
  NoDup (map fst l) -> In (k, v) l -> od_get k l = Some v.
Proof.
  induction l as [|[k' v'] l IH]; intros Hnd Hin; [destruct Hin|].
  cbn in Hnd. apply NoDup_cons in Hnd as [Hnot Hnd]. cbn.
  destruct Hin as [[= -> ->]|Hin].
  - rewrite String.eqb_refl. reflexivity.
  - destruct (String.eqb k k') eqn:E.
    + apply String.eqb_eq in E. subst. exfalso. apply Hnot.
      apply list_elem_of_In, in_map_iff. exists (k', v). auto.
    + apply IH; assumption.
Qed.

Lemma od_get_Some_In {V} (k : string) (v : V) (l : list (string * V)) :
  od_get k l = Some v -> In (k, v) l.
Proof.
  induction l as [|[k' v'] l IH]; cbn; [discriminate|].
  destruct (String.eqb k k') eqn:E.
  - apply String.eqb_eq in E. intros [= ->]. subst. left. reflexivity.
  - intros H. right. apply IH, H.
Qed.

Lemma od_update_distinct (acc l : list (string * addr)) :
  NoDup (map fst (acc ++ l)) -> od_update acc l = acc ++ l.
Proof.
  revert acc. induction l as [|[k v] l IH]; intros acc Hnd.
  - cbn. rewrite app_nil_r. reflexivity.
  - unfold od_update. cbn [fold_left fst snd]. fold (od_update (od_set k v acc) l).
    assert (Hk : od_get k acc = None).
    { apply od_get_None. intros Hin. rewrite map_app in Hnd.
      apply NoDup_app in Hnd as (_ & Hdisj & _).
      apply (Hdisj k); [apply list_elem_of_In; exact Hin|]. cbn. left. }
    rewrite (od_set_absent _ _ _ Hk).
    rewrite IH; rewrite <- app_assoc; [reflexivity | exact Hnd].
Qed.

Lemma NoDup_keys_filter {V} (f : string * V -> bool) (l : list (string * V)) :
  NoDup (map fst l) -> NoDup (map fst (List.filter f l)).
Proof.
  induction l as [|x l IH]; cbn; intros Hnd; [constructor|].
  apply NoDup_cons in Hnd as [Hnot Hnd].
  destruct (f x); [|apply IH, Hnd].
  cbn. apply NoDup_cons. split; [|apply IH, Hnd].
  intros Hin. apply Hnot. apply list_elem_of_In in Hin. apply list_elem_of_In.
  apply in_map_iff in Hin as (y & Hy & Hin). apply filter_In in Hin as [Hin _].
  apply in_map_iff. eauto.
Qed.

Lemma od_get_set {V} (k k' : string) (v : V) d :
  od_get k (od_set k' v d) = if String.eqb k k' then Some v else od_get k d.
Proof.
  induction d as [|[k0 v0] d IH]; cbn.
  - destruct (String.eqb k k'); reflexivity.
  - destruct (String.eqb k' k0) eqn:E; cbn.
    + apply String.eqb_eq in E. subst k0. destruct (String.eqb k k'); reflexivity.
    + destruct (String.eqb k k0) eqn:E0; [|exact IH].
      apply String.eqb_eq in E0. subst k0. rewrite String.eqb_sym, E. reflexivity.
Qed.

Lemma od_set_In {V} (q k : string) (a v : V) d :
  In (q, a) (od_set k v d) -> (q, a) = (k, v) \/ In (q, a) d.
Proof.
  induction d as [|[k0 v0] d IH]; cbn.
  - intros [H|[]]. left. symmetry. exact H.
  - destruct (String.eqb k k0); cbn; intros [H|H]; auto.
    destruct (IH H); auto.
Qed.

(** What [params] holds after the assignments of [l] was assigned by [l]
    or was there before. *)
Lemma od_update_In (q : string) (a : addr) acc l :
  In (q, a) (od_update acc l) -> In (q, a) acc \/ In (q, a) l.
Proof.
  revert acc. induction l as [|[k v] l IH]; intros acc; cbn; [auto|].
  intros H. apply IH in H as [H|H]; [|auto].
  apply od_set_In in H as [H|H]; auto.
Qed.

(** A key that [l] assigns one value only holds that value afterwards. *)
Lemma od_update_get (p : string) (a : addr) acc l :
  (forall b, In (p, b) l -> b = a) ->
  In (p, a) l \/ od_get p acc = Some a ->
  od_get p (od_update acc l) = Some a.
Proof.
  revert acc. induction l as [|[k v] l IH]; intros acc Hu H; cbn.
  - destruct H as [[]|H]. exact H.
  - apply IH; [intros b Hb; apply Hu; right; exact Hb|].
    cbn [fst snd]. rewrite od_get_set.
    destruct (String.eqb p k) eqn:E.
    + apply String.eqb_eq in E. subst k. right. f_equal. apply Hu. left. reflexivity.
    + destruct H as [[H|H]|H]; auto.
      inversion H; subst. rewrite String.eqb_refl in E. discriminate.
Qed.

Lemma od_update_get_None (p : string) acc l :
  (forall b, ~ In (p, b) l) -> od_get p acc = None ->
  od_get p (od_update acc l) = None.
Proof.
  revert acc. induction l as [|[k v] l IH]; intros acc Hn H; cbn; [exact H|].
  apply IH; [intros b Hb; apply (Hn b); right; exact Hb|].
  cbn [fst snd]. rewrite od_get_set.
  destruct (String.eqb p k) eqn:E; [|exact H].
  apply String.eqb_eq in E. subst k. exfalso. apply (Hn v). left. reflexivity.
Qed.

(** ** C6 and C9: [get_parameters] *)

(** [get_parameters] on a store that holds the tree [t] below the current
    scope: the traversal of [t], filtered, assigned to [params] in order. *)
Lemma get_parameters_tree (s : state) (t : tree) (limit : nat) (grad_only : bool) :
  holds (heap s) t -> is_scope t = true -> root t = current_scope s ->
  depth t <= limit ->
  get_parameters limit grad_only s =
  (Ok (od_update [] (List.filter (kept (heap s) grad_only) (dfs EmptyString t))), s).
Proof.
  intros Hh Hs Hr Hd. destruct s as [h c r f]. cbn [heap current_scope] in *. subst c.
  apply get_parameters_rec_tree; assumption.
Qed.

(** *** The mapping the specification asks for

    Said without the functions of the module: the parameters of the tree
    in depth-first order, each with the names on the way to it; the path of
    a list of names; and the ordered mapping a sequence of assignments
    leaves. *)

(** The parameters below a scope, depth first: the entries of a scope in
    insertion order, a subscope walked when it is met. *)
Fixpoint traverse (t : tree) : list (list string * addr) :=
  match t with
  | TLeaf a => [([], a)]
  | TNode _ es =>
      (fix go (l : list (string * tree)) : list (list string * addr) :=
         match l with
         | [] => []
         | kt :: l' =>
             map (fun sa => (fst kt :: fst sa, snd sa)) (traverse (snd kt)) ++ go l'
         end) es
  end.

(** The names without the empty ones before the first non-empty one. *)
Fixpoint drop_empty (segs : list string) : list string :=
  match segs with
  | EmptyString :: rest => drop_empty rest
  | _ => segs
  end.

(** The path of a parameter: its names joined by ['/'].  A path is only
    started at the first non-empty name. *)
Definition path_of (segs : list string) : string :=
  String.concat "/" (drop_empty segs).

(** The last value assigned to [k]. *)
Definition last_value (k : string) (l : list (string * addr)) : option addr :=
  option_map snd (List.find (fun kv => String.eqb (fst kv) k) (rev l)).

(** The keys in the order of their first assignment. *)
Definition first_keys (ks : list string) : list string :=
  rev (nodup string_dec (rev ks)).

(** The ordered mapping after the assignments [l]: every key once, at the
    place of its first assignment, with the value of its last. *)
Definition mapping_of (l : list (string * addr)) : list (string * addr) :=
  flat_map (fun k => match last_value k l with
                     | Some v => [(k, v)]
                     | None => []
                     end)
           (first_keys (map fst l)).

Lemma traverse_node a es :
  traverse (TNode a es) =
  flat_map (fun kt => map (fun sa => (fst kt :: fst sa, snd sa)) (traverse (snd kt))) es.
Proof. reflexivity. Qed.

Lemma drop_empty_app_nil pre l : drop_empty pre = [] -> drop_empty (pre ++ l) = drop_empty l.
Proof.
  induction pre as [|x pre IH]; cbn; [reflexivity|].
  destruct x; [exact IH | discriminate].
Qed.

Lemma drop_empty_app_cons pre l x q :
  drop_empty pre = x :: q -> drop_empty (pre ++ l) = x :: q ++ l /\ x <> EmptyString.
Proof.
  induction pre as [|y pre IH]; cbn; [discriminate|].
  destruct y as [|c y].
  - exact IH.
  - intros [= <- <-]. split; [reflexivity | discriminate].
Qed.

Lemma append_assoc (a b c : string) :
  String.append (String.append a b) c = String.append a (String.append b c).
Proof.
  induction a as [|ch a IH]; [reflexivity|].
  change (String ch (String.append (String.append a b) c) =
          String ch (String.append a (String.append b c))).
  rewrite IH. reflexivity.
Qed.

Lemma concat_snoc (q : list string) (k : string) :
  q <> [] ->
  String.concat "/" (q ++ [k]) = String.append (String.concat "/" q) (String slash k).
Proof.
  induction q as [|x [|y q] IH]; intros Hne; [contradiction|reflexivity|].
  change (String.concat "/" ((x :: y :: q) ++ [k]))
    with (String.append x (String.append "/" (String.concat "/" ((y :: q) ++ [k])))).
  rewrite IH by discriminate.
  change (String.concat "/" (x :: y :: q))
    with (String.append x (String.append "/" (String.concat "/" (y :: q)))).
  cbn [String.append]. rewrite !append_assoc. reflexivity.
Qed.

(** The path the source builds on the way, [path/k] or [k] for the empty
    [path], is the path of the names. *)
Lemma child_path_of pre k : child_path (path_of pre) k = path_of (pre ++ [k]).
Proof.
  unfold path_of. destruct (drop_empty pre) as [|x q] eqn:E.
  - rewrite (drop_empty_app_nil _ _ E). cbn. destruct k; reflexivity.
  - destruct (drop_empty_app_cons pre [k] x q E) as [-> Hx].
    change (x :: q ++ [k]) with ((x :: q) ++ [k]).
    rewrite (concat_snoc (x :: q) k) by discriminate.
    unfold child_path.
    assert (Hne : String.eqb (String.concat "/" (x :: q)) EmptyString = false).
    { destruct x as [|c x]; [contradiction|]. destruct q; reflexivity. }
    rewrite Hne. reflexivity.
Qed.

Lemma dfs_traverse t :
  forall pre,
    dfs (path_of pre) t = map (fun sa => (path_of (pre ++ fst sa), snd sa)) (traverse t).
Proof.
  induction t as [a|x es IH] using tree_ind'; intros pre.
  - cbn. rewrite app_nil_r. reflexivity.
  - rewrite dfs_node, traverse_node. unfold dfs_entries.
    induction es as [|[k child] es IHes]; [reflexivity|].
    inversion IH as [|? ? Hchild Hes]; subst. cbn [flat_map fst snd] in *.
    rewrite map_app, (IHes Hes), child_path_of, (Hchild (pre ++ [k])), map_map.
    f_equal. apply map_ext. intros [segs a]. cbn [fst snd]. rewrite <- app_assoc. reflexivity.
Qed.

Lemma first_keys_snoc ks k :
  first_keys (ks ++ [k]) =
  if in_dec string_dec k ks then first_keys ks else first_keys ks ++ [k].
Proof.
  unfold first_keys. rewrite rev_app_distr. cbn [rev app nodup].
  destruct (in_dec string_dec k (rev ks)) as [Hin|Hin];
    destruct (in_dec string_dec k ks) as [Hin'|Hin']; try reflexivity.
  - exfalso. apply Hin'. apply in_rev. exact Hin.
  - exfalso. apply Hin. apply in_rev in Hin'. exact Hin'.
Qed.

Lemma first_keys_In ks k : In k (first_keys ks) <-> In k ks.
Proof.
  unfold first_keys. rewrite <- in_rev, nodup_In, <- in_rev. reflexivity.
Qed.

Lemma first_keys_NoDup ks : List.NoDup (first_keys ks).
Proof. unfold first_keys. apply List.NoDup_rev, List.NoDup_nodup. Qed.

Lemma last_value_snoc k' l k v :
  last_value k' (l ++ [(k, v)]) = if String.eqb k k' then Some v else last_value k' l.
Proof.
  unfold last_value. rewrite rev_app_distr. cbn [rev app List.find fst].
  destruct (String.eqb k k'); reflexivity.
Qed.

Lemma last_value_In k l : In k (map fst l) -> last_value k l <> None.
Proof.
  intros Hin. unfold last_value.
  destruct (List.find (fun kv => String.eqb (fst kv) k) (rev l)) as [kv|] eqn:E; [discriminate|].
  exfalso. apply in_map_iff in Hin as ([k0 v] & <- & Hin).
  pose proof (find_none _ _ E (k0, v) (proj1 (in_rev _ _) Hin)) as Hf.
  cbn in Hf. rewrite String.eqb_refl in Hf. discriminate.
Qed.

Section assignment.
Variables (l : list (string * addr)) (k : string) (v : addr).

Let entry (l0 : list (string * addr)) (k' : string) : list (string * addr) :=
  match last_value k' l0 with
  | Some w => [(k', w)]
  | None => []
  end.

Lemma entry_other k' : k' <> k -> entry (l ++ [(k, v)]) k' = entry l k'.
Proof.
  intros Hne. unfold entry. rewrite last_value_snoc.
  destruct (String.eqb k k') eqn:E; [|reflexivity].
  apply String.eqb_eq in E. congruence.
Qed.

Lemma entry_same : entry (l ++ [(k, v)]) k = [(k, v)].
Proof. unfold entry. rewrite last_value_snoc, String.eqb_refl. reflexivity. Qed.

Lemma entries_other K : ~ In k K -> flat_map (entry (l ++ [(k, v)])) K = flat_map (entry l) K.
Proof.
  intros Hk. induction K as [|k0 K IH]; [reflexivity|]. cbn [flat_map].
  rewrite entry_other, IH; [reflexivity | | ]; intros E; apply Hk; [right; exact E|].
  left. exact E.
Qed.

Lemma entries_keys K k' : In k' (map fst (flat_map (entry l) K)) -> In k' K.
Proof.
  induction K as [|k0 K IH]; cbn [flat_map]; [intros []|].
  rewrite map_app, in_app_iff. intros [H|H]; [left|right; apply IH, H].
  unfold entry in H. destruct (last_value k0 l); cbn in H; intuition.
Qed.

(** The assignment to a key that has a value replaces it in place. *)
Lemma od_set_entries K :
  List.NoDup K -> In k K -> last_value k l <> None ->
  od_set k v (flat_map (entry l) K) = flat_map (entry (l ++ [(k, v)])) K.
Proof.
  intros Hnd Hin Hl. induction K as [|k0 K IH]; [destruct Hin|].
  inversion Hnd as [|? ? Hk0 HndK]; subst. cbn [flat_map].
  destruct (string_dec k0 k) as [->|Hne].
  - rewrite entry_same, (entries_other K Hk0). unfold entry.
    destruct (last_value k l) as [w|]; [|contradiction].
    cbn. rewrite String.eqb_refl. reflexivity.
  - destruct Hin as [E|Hin]; [contradiction|].
    rewrite (entry_other k0 Hne), <- (IH HndK Hin). unfold entry.
    destruct (last_value k0 l) as [w|]; [|reflexivity].
    cbn. destruct (String.eqb k k0) eqn:E; [|reflexivity].
    apply String.eqb_eq in E. congruence.
Qed.

(** One more assignment, on the mapping: [params[k] = v]. *)
Lemma od_set_mapping : od_set k v (mapping_of l) = mapping_of (l ++ [(k, v)]).
Proof.
  unfold mapping_of. rewrite map_app. cbn [map fst]. rewrite first_keys_snoc.
  fold (entry l) (entry (l ++ [(k, v)])).
  destruct (in_dec string_dec k (map fst l)) as [Hin|Hin].
  - apply od_set_entries; [apply first_keys_NoDup | apply first_keys_In, Hin|].
    apply last_value_In, Hin.
  - assert (Hk : ~ In k (first_keys (map fst l))) by (rewrite first_keys_In; exact Hin).
    rewrite flat_map_app, (entries_other _ Hk). cbn [flat_map]. rewrite entry_same, app_nil_r.
    apply od_set_absent, od_get_None. intros H. apply Hk. apply entries_keys, H.
Qed.

End assignment.

(** The dictionary the loop fills is the mapping of its assignments. *)
Lemma od_update_mapping l0 l : od_update (mapping_of l0) l = mapping_of (l0 ++ l).
Proof.
  revert l0. induction l as [|[k v] l IH]; intros l0.
  - rewrite app_nil_r. reflexivity.
  - unfold od_update. cbn [fold_left fst snd]. fold (od_update (od_set k v (mapping_of l0)) l).
    rewrite od_set_mapping, IH, <- app_assoc. reflexivity.
Qed.

Lemma filter_map {X Y} (g : X -> Y) (p : Y -> bool) (l : list X) :
  List.filter p (map g l) = map g (List.filter (fun x => p (g x)) l).
Proof.
  induction l as [|x l IH]; cbn; [reflexivity|].
  destruct (p (g x)); cbn; rewrite IH; reflexivity.
Qed.

(** C6: on a store that holds the tree [t] below the current scope
    [get_parameters] visits the parameters of [t] depth first, the entries
    of every scope in insertion order and every subscope where it is met,
    leaves out the ones without [need_grad] when [grad_only] is set, and
    returns the ordered mapping of the paths, the names on the way joined by
    ['/'], to the Variables: every path once, where it was first met, with
    the Variable met last (the traversal itself when the paths are
    distinct).  It leaves the state as it found it, so a second call returns
    the same mapping. *)
Theorem get_parameters_depth_first (s : state) (t : tree) (limit : nat) (grad_only : bool) :
  holds (heap s) t -> is_scope t = true -> root t = current_scope s ->
  depth t <= limit ->
  let visited :=
    List.filter (fun sa => negb grad_only || var_need_grad (heap s) (snd sa)) (traverse t) in
  let assigned := map (fun sa => (path_of (fst sa), snd sa)) visited in
  let m := mapping_of assigned in
  get_parameters limit grad_only s = (Ok m, s) /\
  (do m1 <- get_parameters limit grad_only ;;
   do m2 <- get_parameters limit grad_only ;;
   ret (m1, m2)) s = (Ok (m, m), s) /\
  (NoDup (map fst assigned) -> m = assigned).
Proof.
  intros Hh Hs Hr Hd visited assigned m.
  pose proof (get_parameters_tree s t limit grad_only Hh Hs Hr Hd) as H1.
  assert (Hl : List.filter (kept (heap s) grad_only) (dfs EmptyString t) = assigned).
  { change EmptyString with (path_of []). rewrite dfs_traverse, filter_map. reflexivity. }
  rewrite Hl in H1.
  assert (Hm : od_update [] assigned = m) by apply (od_update_mapping [] assigned).
  rewrite Hm in H1.
  split; [exact H1|]. split.
  - rewrite (bind_ok _ _ _ _ _ H1), (bind_ok _ _ _ _ _ H1). reflexivity.
  - intros Hnd. rewrite <- Hm. apply (od_update_distinct [] assigned). exact Hnd.
Qed.

(** The tree of [two_scopes] below the root. *)
Definition two_scopes_tree : tree :=
  TNode 0 [("a"%string, TNode 1 [("w"%string, TLeaf 3)]);
           ("b"%string, TNode 4 [("v"%string, TLeaf 6)])].

Ltac distinct_keys := apply (bool_decide_unpack _); vm_compute; exact I.

Lemma two_scopes_holds : holds two_scopes two_scopes_tree.
Proof.
  cbn. repeat split; eauto; distinct_keys.
Qed.

Lemma get_parameters_depth_first_witness :
  let s := mkState two_scopes 0 0 ∅ in
  let m := [("a/w"%string, 3); ("b/v"%string, 6)] in
  get_parameters 5 false s = (Ok m, s) /\
  (do m1 <- get_parameters 5 false ;;
   do m2 <- get_parameters 5 false ;;
   ret (m1, m2)) s = (Ok (m, m), s) /\
  (NoDup (map fst m) -> m = m).
Proof.
  apply (get_parameters_depth_first (mkState two_scopes 0 0 ∅) two_scopes_tree 5 false).
  - exact two_scopes_holds.
  - reflexivity.
  - reflexivity.
  - cbn. lia.
Defined.

(** C9, as amended: a parameter below the current scope whose [need_grad]
    is false is under no path of the mapping of [grad_only=True], whatever
    its path; and a parameter whose path is the path of no other parameter
    is in the mapping of [grad_only=False], and in the mapping of
    [grad_only=True] when its [need_grad] is true, its path being no key of
    that mapping when its [need_grad] is false. *)
Theorem grad_only_excludes (s : state) (t : tree) (limit : nat) :
  holds (heap s) t -> is_scope t = true -> root t = current_scope s ->
  depth t <= limit ->
  exists with_grad all,
    get_parameters limit true s = (Ok with_grad, s) /\
    get_parameters limit false s = (Ok all, s) /\
    forall segs a,
      In (segs, a) (traverse t) ->
      (var_need_grad (heap s) a = false -> forall q, ~ In (q, a) with_grad) /\
      ((forall segs' b, In (segs', b) (traverse t) -> path_of segs' = path_of segs -> b = a) ->
       od_get (path_of segs) all = Some a /\
       (var_need_grad (heap s) a = true -> od_get (path_of segs) with_grad = Some a) /\
       (var_need_grad (heap s) a = false -> od_get (path_of segs) with_grad = None)).
Proof.
  intros Hh Hs Hr Hd.
  pose proof (get_parameters_tree s t limit true Hh Hs Hr Hd) as Ht.
  pose proof (get_parameters_tree s t limit false Hh Hs Hr Hd) as Hf.
  assert (Hl : dfs EmptyString t =
               map (fun sa => (path_of (fst sa), snd sa)) (traverse t))
    by (change EmptyString with (path_of []); apply dfs_traverse).
  set (l := dfs EmptyString t) in *.
  eexists _, _. split; [exact Ht|]. split; [exact Hf|].
  intros segs a Hsegs.
  assert (Hin : In (path_of segs, a) l).
  { rewrite Hl. apply in_map_iff. exists (segs, a). split; [reflexivity | exact Hsegs]. }
  split.
  - intros Hg q Hq. apply od_update_In in Hq as [[]|Hq].
    apply filter_In in Hq as [_ Hk].
    unfold kept in Hk. cbn [snd negb orb] in Hk. congruence.
  - intros Hunique.
    assert (Hu : forall b, In (path_of segs, b) l -> b = a).
    { intros b Hb. rewrite Hl in Hb. apply in_map_iff in Hb as ([segs' b'] & E & Hb).
      cbn [fst snd] in E. inversion E; subst. eapply Hunique; eassumption. }
    split; [|split].
    + apply od_update_get.
      * intros b Hb. apply filter_In in Hb as [Hb _]. apply Hu, Hb.
      * left. apply filter_In. split; [exact Hin | reflexivity].
    + intros Hg. apply od_update_get.
      * intros b Hb. apply filter_In in Hb as [Hb _]. apply Hu, Hb.
      * left. apply filter_In. split; [exact Hin|]. unfold kept. cbn [snd]. rewrite Hg.
        reflexivity.
    + intros Hg. apply od_update_get_None; [|reflexivity].
      intros b Hb. apply filter_In in Hb as [Hb Hk]. apply Hu in Hb. subst b.
      unfold kept in Hk. cbn [snd negb orb] in Hk. congruence.
Qed.

Lemma grad_only_excludes_witness :
  let s := mkState two_scopes 0 0 ∅ in
  exists with_grad all,
    get_parameters 5 true s = (Ok with_grad, s) /\
    get_parameters 5 false s = (Ok all, s) /\
    forall segs a,
      In (segs, a) (traverse two_scopes_tree) ->
      (var_need_grad (heap s) a = false -> forall q, ~ In (q, a) with_grad) /\
      ((forall segs' b, In (segs', b) (traverse two_scopes_tree) ->
                        path_of segs' = path_of segs -> b = a) ->
       od_get (path_of segs) all = Some a /\
       (var_need_grad (heap s) a = true -> od_get (path_of segs) with_grad = Some a) /\
       (var_need_grad (heap s) a = false -> od_get (path_of segs) with_grad = None)).
Proof.
  apply (grad_only_excludes (mkState two_scopes 0 0 ∅) two_scopes_tree 5).
  - exact two_scopes_holds.
  - reflexivity.
  - reflexivity.
  - cbn. lia.
Defined.

(** The state after [get_parameter_or_create("/w", (1,), need_grad=False)]
    and [get_parameter_or_create("w", (1,))]: the scope with the empty name
    holds a [w] and so does the current scope. *)
Definition same_path_state : state :=
  snd ((exec get_parameter_or_create "/w" [1] None false ;;
        get_parameter_or_create "w" [1] None true) initial_state).

(** C9, as stated, fails: the traversal gives the path [w] to both
    parameters, the second assignment to [params['w']] replaces the first,
    and the parameter with [need_grad] false is not in the mapping of
    [grad_only=False]. *)
Lemma grad_only_false_drops_same_path :
  ~ (forall (s : state) (limit : nat) (p : string) (a : addr) (v : nn_Variable) all,
       parameter_at s p a v -> need_grad v = false ->
       get_parameters limit false s = (Ok all, s) ->
       exists q, In (q, a) all).
Proof.
  intros H.
  destruct (H same_path_state 10 "/w"%string 3 (mkVariable [1] false 2) _
              (conj eq_refl eq_refl) eq_refl eq_refl) as (q & Hq).
  vm_compute in Hq. destruct Hq as [Hq|[]]. inversion Hq.
Qed.

(** ** Trees of values: what a load builds *)

(** The scope tree without addresses, a value at every parameter. *)
#[warnings="-register-all"]
Inductive vtree (A : Type) :=
| VLeaf (v : A)
| VNode (entries : list (string * vtree A)).
Arguments VLeaf {A} v.
Arguments VNode {A} entries.

Section vtree.
Context {A : Type}.

(** The path [segs] below a new entry. *)
Fixpoint fresh_sub (v : A) (segs : list string) : vtree A :=
  match segs with
  | [] => VLeaf v
  | k :: rest => VNode [(k, fresh_sub v rest)]
  end.

(** [d[k] = f(d[k])] for the entry of [k]. *)
Fixpoint od_alter {V} (k : string) (f : V -> V) (d : list (string * V)) : list (string * V) :=
  match d with
  | [] => []
  | (k', x) :: d' =>
      if String.eqb k k' then (k', f x) :: d' else (k', x) :: od_alter k f d'
  end.

(** What creating a parameter at a path that does not hold one does to
    the tree: missing scopes are appended, existing ones are entered. *)
Fixpoint vins (segs : list string) (v : A) (t : vtree A) : vtree A :=
  match segs, t with
  | n :: rest, VNode es =>
      match od_get n es with
      | None => VNode (es ++ [(n, fresh_sub v rest)])
      | Some _ => VNode (od_alter n (vins rest v) es)
      end
  | _, _ => t
  end.

Definition is_vnode (t : vtree A) : bool :=
  match t with
  | VLeaf _ => false
  | VNode _ => true
  end.

(** The path holds nothing yet and no segment before the last is taken by
    a parameter. *)
Fixpoint insertable (segs : list string) (t : vtree A) : bool :=
  match segs, t with
  | n :: rest, VNode es =>
      match od_get n es with
      | None => true
      | Some child =>
          match rest with
          | [] => false
          | _ :: _ => is_vnode child && insertable rest child
          end
      end
  | _, _ => false
  end.

(** The parameters of a tree with their segments, depth first. *)
Fixpoint rel_dfs (t : vtree A) : list (list string * A) :=
  match t with
  | VLeaf v => [([], v)]
  | VNode es =>
      (fix go (l : list (string * vtree A)) : list (list string * A) :=
         match l with
         | [] => []
         | kt :: l' =>
             map (fun sv => (fst kt :: fst sv, snd sv)) (rel_dfs (snd kt)) ++ go l'
         end) es
  end.

Definition under (k : string) (l : list (list string * A)) : list (list string * A) :=
  map (fun sv => (k :: fst sv, snd sv)) l.

Definition has_leaf (t : vtree A) : bool :=
  match rel_dfs t with
  | [] => false
  | _ :: _ => true
  end.

(** The tree without the scopes that hold no parameter. *)
Fixpoint prune (t : vtree A) : vtree A :=
  match t with
  | VLeaf v => VLeaf v
  | VNode es =>
      VNode ((fix go (l : list (string * vtree A)) : list (string * vtree A) :=
                match l with
                | [] => []
                | kt :: l' =>
                    if has_leaf (snd kt) then (fst kt, prune (snd kt)) :: go l' else go l'
                end) es)
  end.

Definition prune_entries (es : list (string * vtree A)) : list (string * vtree A) :=
  flat_map (fun kt => if has_leaf (snd kt) then [(fst kt, prune (snd kt))] else []) es.

(** Distinct keys in every scope. *)
Fixpoint distinct_keys_in (t : vtree A) : Prop :=
  match t with
  | VLeaf _ => True
  | VNode es =>
      NoDup (map fst es) /\
      (fix all (l : list (string * vtree A)) : Prop :=
         match l with
         | [] => True
         | kt :: l' => distinct_keys_in (snd kt) /\ all l'
         end) es
  end.

Fixpoint vdepth (t : vtree A) : nat :=
  match t with
  | VLeaf _ => 0
  | VNode es =>
      S ((fix mx (l : list (string * vtree A)) : nat :=
            match l with
            | [] => 0
            | kt :: l' => Nat.max (vdepth (snd kt)) (mx l')
            end) es)
  end.

(** Loading a list of records, one [vins] each. *)
Definition vload (records : list (list string * A)) (t : vtree A) : vtree A :=
  fold_left (fun acc sv => vins (fst sv) (snd sv) acc) records t.

(** Every record can be inserted when its turn comes. *)
Fixpoint loadable (records : list (list string * A)) (t : vtree A) : Prop :=
  match records with
  | [] => True
  | sv :: rest => insertable (fst sv) t = true /\ loadable rest (vins (fst sv) (snd sv) t)
  end.

Lemma vtree_ind' (P : vtree A -> Prop) :
  (forall v, P (VLeaf v)) ->
  (forall es, Forall (fun kt => P (snd kt)) es -> P (VNode es)) ->
  forall t, P t.
Proof.
  intros Hl Hn. fix IH 1. intros [v|es].
  - apply Hl.
  - apply Hn. induction es as [|kt es IHes]; constructor; [apply IH | exact IHes].
Qed.

Lemma rel_dfs_node es :
  rel_dfs (VNode es) = flat_map (fun kt => under (fst kt) (rel_dfs (snd kt))) es.
Proof. cbn [rel_dfs]. induction es as [|kt es IH]; cbn; [reflexivity|]. rewrite IH. reflexivity. Qed.

Lemma prune_node es : prune (VNode es) = VNode (prune_entries es).
Proof.
  cbn [prune]. f_equal. unfold prune_entries.
  induction es as [|kt es IH]; cbn; [reflexivity|].
  rewrite IH. destruct (has_leaf (snd kt)); reflexivity.
Qed.

Lemma distinct_keys_node es :
  distinct_keys_in (VNode es) <->
  NoDup (map fst es) /\ Forall (fun kt => distinct_keys_in (snd kt)) es.
Proof.
  cbn [distinct_keys_in]. split; intros [H1 H2]; split; auto.
  - clear H1. induction es as [|kt es IH]; [constructor|].
    destruct H2 as [Hkt Hes]. constructor; [exact Hkt | apply IH, Hes].
  - clear H1. induction H2; [exact I | split; assumption].
Qed.

Lemma vload_app l1 l2 t : vload (l1 ++ l2) t = vload l2 (vload l1 t).
Proof. unfold vload. apply fold_left_app. Qed.

Lemma loadable_app l1 l2 t :
  loadable (l1 ++ l2) t <-> loadable l1 t /\ loadable l2 (vload l1 t).
Proof.
  revert t. induction l1 as [|sv l1 IH]; intros t; cbn.
  - tauto.
  - rewrite IH. tauto.
Qed.

Lemma vload_is_vnode l es : is_vnode (vload l (VNode es)) = true.
Proof.
  revert es. induction l as [|[segs v] l IH]; intros es; [reflexivity|].
  cbn. destruct segs as [|n rest]; [apply IH|].
  cbn. destruct (od_get n es); apply IH.
Qed.

Lemma fresh_sub_vins v segs : segs <> [] -> vins segs v (VNode []) = fresh_sub v segs.
Proof. destruct segs; [congruence | reflexivity]. Qed.

Lemma od_alter_last {V} k (f : V -> V) acc x :
  od_get k acc = None -> od_alter k f (acc ++ [(k, x)]) = acc ++ [(k, f x)].
Proof.
  induction acc as [|[k' y] acc IH]; cbn.
  - rewrite String.eqb_refl. reflexivity.
  - destruct (String.eqb k k'); [discriminate|]. intros H. rewrite (IH H). reflexivity.
Qed.

Lemma od_get_last {V} k acc (x : V) :
  od_get k acc = None -> od_get k (acc ++ [(k, x)]) = Some x.
Proof. intros H. rewrite od_get_app, H. cbn. rewrite String.eqb_refl. reflexivity. Qed.

(** Records under [k], loaded into a scope whose last entry is [k]. *)
Lemma vload_under_present k acc records :
  od_get k acc = None ->
  Forall (fun sv => fst sv <> []) records ->
  forall es,
    vload (under k records) (VNode (acc ++ [(k, VNode es)])) =
    VNode (acc ++ [(k, vload records (VNode es))]) /\
    (loadable records (VNode es) ->
     loadable (under k records) (VNode (acc ++ [(k, VNode es)]))).
Proof.
  intros Hk. induction 1 as [|[segs v] records Hne _ IH]; intros es.
  - split; [reflexivity | trivial].
  - cbn [fst] in Hne. destruct segs as [|m segs]; [congruence|]. clear Hne.
    assert (Hstep : vins (k :: m :: segs) v (VNode (acc ++ [(k, VNode es)])) =
                    VNode (acc ++ [(k, vins (m :: segs) v (VNode es))])).
    { cbn [vins]. rewrite (od_get_last _ _ _ Hk).
      rewrite (od_alter_last _ _ _ _ Hk). reflexivity. }
    assert (Hnode : exists es', vins (m :: segs) v (VNode es) = VNode es').
    { cbn [vins]. destruct (od_get m es); eauto. }
    destruct Hnode as (es' & Hes').
    cbn [under map vload fold_left fst snd]. fold (under k records).
    change (fold_left (fun acc0 sv => vins (fst sv) (snd sv) acc0) (under k records))
      with (vload (under k records)).
    change (fold_left (fun acc0 sv => vins (fst sv) (snd sv) acc0) records)
      with (vload records).
    rewrite Hstep, Hes'. destruct (IH es') as [IH1 IH2]. split; [exact IH1|].
    cbn [loadable fst snd]. intros [Hi Hl]. split.
    + cbn [insertable]. rewrite (od_get_last _ _ _ Hk). cbn [is_vnode andb]. exact Hi.
    + rewrite Hstep, Hes'. apply IH2. rewrite <- Hes'. exact Hl.
Qed.

(** Records under a key the scope does not have yet. *)
Lemma vload_under_absent k acc records :
  od_get k acc = None ->
  Forall (fun sv => fst sv <> []) records ->
  vload (under k records) (VNode acc) =
  match records with
  | [] => VNode acc
  | _ :: _ => VNode (acc ++ [(k, vload records (VNode []))])
  end /\
  (loadable records (VNode []) -> loadable (under k records) (VNode acc)).
Proof.
  intros Hk Hall. destruct records as [|[segs v] records]; [split; [reflexivity|trivial]|].
  inversion Hall as [|? ? Hne Hall']; subst. cbn [fst] in Hne.
  destruct segs as [|m segs]; [congruence|].
  assert (Hstep : vins (k :: m :: segs) v (VNode acc) =
                  VNode (acc ++ [(k, vins (m :: segs) v (VNode []))])).
  { cbn [vins]. rewrite Hk. reflexivity. }
  assert (Hnode : exists es', vins (m :: segs) v (VNode []) = VNode es').
  { cbn [vins od_get]. eauto. }
  destruct Hnode as (es' & Hes').
  cbn [under map vload fold_left fst snd]. fold (under k records).
  change (fold_left (fun acc0 sv => vins (fst sv) (snd sv) acc0) (under k records))
    with (vload (under k records)).
  change (fold_left (fun acc0 sv => vins (fst sv) (snd sv) acc0) records)
    with (vload records).
  rewrite Hstep, Hes'.
  destruct (vload_under_present k acc records Hk Hall' es') as [H1 H2].
  split; [exact H1|].
  cbn [loadable fst snd]. intros [Hi Hl]. split.
  - cbn [insertable]. rewrite Hk. reflexivity.
  - rewrite Hstep, Hes'. apply H2. rewrite <- Hes'. exact Hl.
Qed.

Lemma rel_dfs_node_nonempty es : Forall (fun sv => fst sv <> []) (rel_dfs (VNode es)).
Proof.
  rewrite rel_dfs_node. apply List.Forall_forall. intros sv Hin.
  apply in_flat_map in Hin as (kt & _ & Hin). unfold under in Hin.
  apply in_map_iff in Hin as (sv' & <- & _). discriminate.
Qed.

Lemma od_get_app_None {V} k (l1 l2 : list (string * V)) :
  od_get k l1 = None -> od_get k l2 = None -> od_get k (l1 ++ l2) = None.
Proof. intros H1 H2. rewrite od_get_app, H1. exact H2. Qed.

(** Loading the parameters of the entries [es], each under its key, into a
    scope that has none of these keys appends the pruned entries. *)
Lemma vload_entries es :
  Forall (fun kt =>
            forall k acc, od_get k acc = None ->
              vload (under k (rel_dfs (snd kt))) (VNode acc) =
              VNode (acc ++ (if has_leaf (snd kt) then [(k, prune (snd kt))] else [])) /\
              loadable (under k (rel_dfs (snd kt))) (VNode acc)) es ->
  NoDup (map fst es) ->
  forall acc,
    (forall k, In k (map fst es) -> od_get k acc = None) ->
    vload (flat_map (fun kt => under (fst kt) (rel_dfs (snd kt))) es) (VNode acc) =
    VNode (acc ++ prune_entries es) /\
    loadable (flat_map (fun kt => under (fst kt) (rel_dfs (snd kt))) es) (VNode acc).
Proof.
  induction 1 as [|[k c] es Hc _ IH]; intros Hnd acc Hacc.
  - cbn. rewrite app_nil_r. split; [reflexivity | exact I].
  - cbn [map fst] in Hnd. apply NoDup_cons in Hnd as [Hnot Hnd].
    cbn [snd fst] in Hc.
    destruct (Hc k acc (Hacc k (or_introl eq_refl))) as [Hv Hl].
    cbn [flat_map fst snd]. rewrite vload_app, Hv.
    set (X := if has_leaf c then [(k, prune c)] else []) in *.
    destruct (IH Hnd (acc ++ X)) as [IHv IHl].
    { intros k' Hk'. apply od_get_app_None; [apply Hacc; right; exact Hk'|].
      unfold X. destruct (has_leaf c); [|reflexivity]. cbn.
      destruct (String.eqb k' k) eqn:E; [|reflexivity].
      apply String.eqb_eq in E. subst. exfalso. apply Hnot, list_elem_of_In, Hk'. }
    split.
    + rewrite IHv. unfold prune_entries. cbn [flat_map fst snd]. fold X.
      rewrite app_assoc. reflexivity.
    + apply loadable_app. split; [exact Hl|]. rewrite Hv. exact IHl.
Qed.

(** Loading the parameters of a subtree under a key the scope does not
    have appends the pruned subtree, when it has a parameter at all. *)
Lemma vload_subtree (child : vtree A) :
  distinct_keys_in child ->
  forall k acc,
    od_get k acc = None ->
    vload (under k (rel_dfs child)) (VNode acc) =
    VNode (acc ++ (if has_leaf child then [(k, prune child)] else [])) /\
    loadable (under k (rel_dfs child)) (VNode acc).
Proof.
  induction child as [v|es IH] using vtree_ind'; intros Hd k acc Hk.
  - cbn. rewrite Hk. auto.
  - apply distinct_keys_node in Hd as [Hnd Hall].
    assert (IH' : Forall (fun kt =>
              forall k acc, od_get k acc = None ->
                vload (under k (rel_dfs (snd kt))) (VNode acc) =
                VNode (acc ++ (if has_leaf (snd kt) then [(k, prune (snd kt))] else [])) /\
                loadable (under k (rel_dfs (snd kt))) (VNode acc)) es).
    { apply List.Forall_forall. intros kt Hin.
      apply (proj1 (List.Forall_forall _ _) IH kt Hin).
      apply (proj1 (List.Forall_forall _ _) Hall kt Hin). }
    destruct (vload_entries es IH' Hnd []) as [Hv Hl]; [reflexivity|].
    rewrite <- rel_dfs_node in Hv, Hl. cbn [app] in Hv.
    destruct (vload_under_absent k acc (rel_dfs (VNode es)) Hk (rel_dfs_node_nonempty es))
      as [H1 H2].
    split; [|apply H2, Hl].
    rewrite H1. unfold has_leaf. destruct (rel_dfs (VNode es)) eqn:E.
    + rewrite app_nil_r. reflexivity.
    + rewrite Hv, prune_node. reflexivity.
Qed.

(** Loading, one after the other, the parameters of a tree into an empty
    scope builds the pruned tree, and every insertion is possible. *)
Lemma vload_rel_dfs es :
  distinct_keys_in (VNode es) ->
  vload (rel_dfs (VNode es)) (VNode []) = prune (VNode es) /\
  loadable (rel_dfs (VNode es)) (VNode []).
Proof.
  intros Hd. apply distinct_keys_node in Hd as [Hnd Hall].
  rewrite rel_dfs_node, prune_node.
  apply (vload_entries es); [|exact Hnd|reflexivity].
  apply List.Forall_forall. intros kt Hin. apply vload_subtree.
  apply (proj1 (List.Forall_forall _ _) Hall kt Hin).
Qed.

Lemma rel_dfs_prune (t : vtree A) : rel_dfs (prune t) = rel_dfs t.
Proof.
  induction t as [v|es IH] using vtree_ind'; [reflexivity|].
  rewrite prune_node, !rel_dfs_node. unfold prune_entries.
  induction IH as [|[k c] es Hc _ IHes]; [reflexivity|].
  cbn [flat_map fst snd] in *. rewrite <- IHes, flat_map_app. f_equal.
  unfold has_leaf. destruct (rel_dfs c) eqn:E.
  - reflexivity.
  - cbn [flat_map app fst snd]. rewrite app_nil_r, Hc. reflexivity.
Qed.

Lemma vdepth_node es :
  vdepth (VNode es) = S (fold_right (fun kt m => Nat.max (vdepth (snd kt)) m) 0 es).
Proof. reflexivity. Qed.

Lemma vdepth_prune (t : vtree A) : vdepth (prune t) <= vdepth t.
Proof.
  induction t as [v|es IH] using vtree_ind'; [reflexivity|].
  rewrite prune_node, !vdepth_node. apply le_n_S. unfold prune_entries.
  induction IH as [|[k c] es Hc _ IHes]; [reflexivity|].
  cbn [flat_map fst snd fold_right] in *.
  destruct (has_leaf c); cbn [app fold_right snd]; lia.
Qed.

Lemma NoDup_rel_dfs (t : vtree A) :
  distinct_keys_in t -> NoDup (map fst (rel_dfs t)).
Proof.
  induction t as [v|es IH] using vtree_ind'; intros Hd.
  - cbn. apply NoDup_singleton.
  - apply distinct_keys_node in Hd as [Hnd Hall]. rewrite rel_dfs_node.
    induction es as [|[k c] es IHes]; [constructor|].
    inversion IH as [|? ? Hc IH']; subst. inversion Hall as [|? ? Hdc Hall']; subst.
    cbn [map fst] in Hnd. apply NoDup_cons in Hnd as [Hnot Hnd].
    cbn [flat_map fst snd]. rewrite map_app. apply NoDup_app. split; [|split].
    + unfold under. rewrite map_map. cbn [fst].
      rewrite <- (map_map fst (cons k)). apply NoDup_fmap_2; [|apply Hc, Hdc].
      intros x y [= ->]. reflexivity.
    + intros segs H1 H2. apply list_elem_of_In in H1, H2.
      apply in_map_iff in H1 as (sv1 & <- & H1). unfold under in H1.
      apply in_map_iff in H1 as (sv1' & <- & _). cbn [fst] in H2.
      apply in_map_iff in H2 as (sv2 & E2 & H2).
      apply in_flat_map in H2 as ([k2 c2] & Hin2 & H2). unfold under in H2.
      apply in_map_iff in H2 as (sv2' & <- & _). cbn [fst] in E2.
      inversion E2; subst. apply Hnot, list_elem_of_In, in_map_iff.
      exists (k, c2). auto.
    + apply IHes; assumption.
Qed.
End vtree.

(** ** The tree a load builds in the store *)

(** Shape, [need_grad] and data of a parameter. *)
Definition value : Type := list nat * bool * list float32.

Definition leaf_val (h : list obj) (a : addr) : option value :=
  match h !! a with
  | Some (OVariable v) =>
      match h !! data v with
      | Some (OArray x) => Some (shape v, need_grad v, x)
      | _ => None
      end
  | _ => None
  end.

(** The values a tree of the store holds. *)
Fixpoint abs (h : list obj) (t : tree) : vtree (option value) :=
  match t with
  | TLeaf a => VLeaf (leaf_val h a)
  | TNode _ es =>
      VNode ((fix go (l : list (string * tree)) : list (string * vtree (option value)) :=
                match l with
                | [] => []
                | kt :: l' => (fst kt, abs h (snd kt)) :: go l'
                end) es)
  end.

Fixpoint scope_addrs (t : tree) : list addr :=
  match t with
  | TLeaf _ => []
  | TNode x es =>
      x :: (fix go (l : list (string * tree)) : list addr :=
              match l with
              | [] => []
              | kt :: l' => scope_addrs (snd kt) ++ go l'
              end) es
  end.

Fixpoint leaf_addrs (t : tree) : list addr :=
  match t with
  | TLeaf a => [a]
  | TNode _ es =>
      (fix go (l : list (string * tree)) : list addr :=
         match l with
         | [] => []
         | kt :: l' => leaf_addrs (snd kt) ++ go l'
         end) es
  end.

(** The subtree below a new entry: scopes from [base] on, then the buffer
    and the Variable. *)
Fixpoint fresh_tree (base : nat) (segs : list string) : tree :=
  match segs with
  | [] => TLeaf (S base)
  | k :: rest => TNode base [(k, fresh_tree (S base) rest)]
  end.

(** The tree after [get_parameter_or_create] made a parameter at [segs] in a
    store of [base] objects. *)
Fixpoint tins (base : nat) (segs : list string) (t : tree) : tree :=
  match segs, t with
  | n :: rest, TNode x es =>
      match od_get n es with
      | None => TNode x (es ++ [(n, fresh_tree base rest)])
      | Some _ => TNode x (od_alter n (tins base rest) es)
      end
  | _, _ => t
  end.

(** The number of scopes that call creates. *)
Fixpoint created (segs : list string) (t : tree) : nat :=
  match segs, t with
  | n :: rest, TNode _ es =>
      match od_get n es with
      | None => length rest
      | Some child => created rest child
      end
  | _, _ => 0
  end.

Lemma abs_node h a es :
  abs h (TNode a es) = VNode (map (fun kt => (fst kt, abs h (snd kt))) es).
Proof. reflexivity. Qed.

Lemma scope_addrs_node a es :
  scope_addrs (TNode a es) = a :: flat_map (fun kt => scope_addrs (snd kt)) es.
Proof. reflexivity. Qed.

Lemma leaf_addrs_node a es :
  leaf_addrs (TNode a es) = flat_map (fun kt => leaf_addrs (snd kt)) es.
Proof. reflexivity. Qed.

Lemma od_get_map {V W} (g : V -> W) k (es : list (string * V)) :
  od_get k (map (fun kt => (fst kt, g (snd kt))) es) = option_map g (od_get k es).
Proof.
  induction es as [|[k' x] es IH]; cbn; [reflexivity|].
  destruct (String.eqb k k'); [reflexivity | exact IH].
Qed.

Lemma od_alter_map {V W} (g : V -> W) (f : V -> V) (f' : W -> W) k (es : list (string * V)) :
  (forall x, od_get k es = Some x -> g (f x) = f' (g x)) ->
  map (fun kt => (fst kt, g (snd kt))) (od_alter k f es) =
  od_alter k f' (map (fun kt => (fst kt, g (snd kt))) es).
Proof.
  induction es as [|[k' x] es IH]; cbn; intros H; [reflexivity|].
  destruct (String.eqb k k').
  - cbn. rewrite H by reflexivity. reflexivity.
  - cbn. rewrite IH by exact H. reflexivity.
Qed.

Lemma abs_fresh_tree h base segs :
  abs h (fresh_tree base segs) = fresh_sub (leaf_val h (S (base + length segs))) segs.
Proof.
  revert base. induction segs as [|k rest IH]; intros base.
  - cbn. rewrite Nat.add_0_r. reflexivity.
  - cbn [fresh_tree fresh_sub length]. rewrite abs_node. cbn [map fst snd].
    rewrite IH. replace (S base + length rest) with (base + S (length rest)) by lia.
    reflexivity.
Qed.

(** The values of the tree after an insertion. *)
Lemma abs_tins h base segs t :
  abs h (tins base segs t) =
  vins segs (leaf_val h (S (base + created segs t))) (abs h t).
Proof.
  revert t. induction segs as [|n rest IH]; intros t.
  - destruct t; reflexivity.
  - destruct t as [a|x es]; [reflexivity|].
    cbn [tins created]. rewrite (abs_node h x es). cbn [vins].
    rewrite od_get_map. destruct (od_get n es) as [child|] eqn:E; cbn [option_map].
    + rewrite abs_node. f_equal. apply od_alter_map.
      intros y Hy. rewrite E in Hy. inversion Hy; subst. apply IH.
    + rewrite abs_node, map_app. cbn [map fst snd]. rewrite abs_fresh_tree. reflexivity.
Qed.

(** *** Frames *)

(** [h'] is [h] below [length h], but for the addresses in [changed]. *)
Definition frame (h h' : list obj) (changed : list addr) : Prop :=
  forall y, y < length h -> ~ In y changed -> h' !! y = h !! y.

Lemma frame_weaken h h' c1 c2 : frame h h' c1 -> incl c1 c2 -> frame h h' c2.
Proof. intros F Hi y Hy Hn. apply F; [exact Hy|]. intros Hin. apply Hn, Hi, Hin. Qed.

Lemma frame_trans h1 h2 h3 c :
  frame h1 h2 c -> frame h2 h3 c -> length h1 <= length h2 -> frame h1 h3 c.
Proof.
  intros F1 F2 Hl y Hy Hn. rewrite F2 by (lia || exact Hn). apply F1; assumption.
Qed.

Lemma holds_scope_is_dict h t x : holds h t -> In x (scope_addrs t) -> is_dict h x = true.
Proof.
  revert x. induction t as [a|a es IH] using tree_ind'; intros x Hh Hin; [destruct Hin|].
  apply holds_node in Hh as (Ha & _ & Hes). rewrite scope_addrs_node in Hin.
  destruct Hin as [<-|Hin].
  - unfold is_dict. rewrite Ha. reflexivity.
  - apply in_flat_map in Hin as (kt & Hkt & Hin).
    apply (proj1 (List.Forall_forall _ _) IH kt Hkt x); [|exact Hin].
    apply (proj1 (List.Forall_forall _ _) Hes kt Hkt).
Qed.

Lemma holds_leaf_is_Variable h t a :
  holds h t -> In a (leaf_addrs t) -> is_Variable h a = true.
Proof.
  revert a. induction t as [b|b es IH] using tree_ind'; intros a Hh Hin.
  - destruct Hin as [<-|[]]. destruct Hh as [v Hv]. unfold is_Variable. rewrite Hv. reflexivity.
  - apply holds_node in Hh as (_ & _ & Hes). rewrite leaf_addrs_node in Hin.
    apply in_flat_map in Hin as (kt & Hkt & Hin).
    apply (proj1 (List.Forall_forall _ _) IH kt Hkt a); [|exact Hin].
    apply (proj1 (List.Forall_forall _ _) Hes kt Hkt).
Qed.

(** A tree stays in the store when its scopes are untouched and Variables
    stay Variables. *)
Lemma holds_frame h h' t :
  holds h t ->
  (forall x, In x (scope_addrs t) -> h' !! x = h !! x) ->
  (forall x, is_Variable h x = true -> is_Variable h' x = true) ->
  holds h' t.
Proof.
  intros Hh Hs Hv. induction t as [a|a es IH] using tree_ind'.
  - destruct Hh as [v Hva]. specialize (Hv a). unfold is_Variable in Hv.
    rewrite Hva in Hv. specialize (Hv eq_refl). cbn [holds].
    destruct (h' !! a) as [[| |]|]; try discriminate. eauto.
  - apply holds_node in Hh as (Ha & Hnd & Hes). apply holds_node.
    rewrite scope_addrs_node in Hs.
    split; [rewrite Hs by (left; reflexivity); exact Ha|]. split; [exact Hnd|].
    apply List.Forall_forall. intros kt Hkt.
    apply (proj1 (List.Forall_forall _ _) IH kt Hkt).
    + apply (proj1 (List.Forall_forall _ _) Hes kt Hkt).
    + intros x Hx. apply Hs. right. apply in_flat_map. eauto.
Qed.

Lemma holds_frame_changed h h' t changed :
  holds h t -> frame h h' changed ->
  (forall y, In y changed -> is_dict h y = true) ->
  (forall y, In y (scope_addrs t) -> ~ In y changed) ->
  holds h' t.
Proof.
  intros Hh F Hd Hdisj. apply (holds_frame h h' t Hh).
  - intros x Hx. apply F; [|apply Hdisj, Hx].
    pose proof (holds_scope_is_dict h t x Hh Hx) as Hdx. unfold is_dict in Hdx.
    destruct (h !! x) eqn:E; [|discriminate]. eapply lookup_lt_Some; eauto.
  - intros x Hx. unfold is_Variable in *.
    destruct (h !! x) as [o|] eqn:E; [|discriminate].
    rewrite F; [rewrite E; exact Hx | eapply lookup_lt_Some; eauto |].
    intros Hin. apply Hd in Hin. unfold is_dict in Hin. rewrite E in Hin.
    destruct o; discriminate.
Qed.

(** *** Entries *)

Lemma od_get_split {V} k (x : V) es :
  od_get k es = Some x ->
  exists es1 es2, es = es1 ++ (k, x) :: es2 /\ od_get k es1 = None /\
                  forall f, od_alter k f es = es1 ++ (k, f x) :: es2.
Proof.
  induction es as [|[k' y] es IH]; cbn; [discriminate|].
  destruct (String.eqb k k') eqn:E.
  - apply String.eqb_eq in E. subst k'. intros [= ->].
    exists [], es. repeat split; reflexivity.
  - intros H. destruct (IH H) as (es1 & es2 & -> & Hn & Ha).
    exists ((k', y) :: es1), es2. cbn. rewrite E. repeat split; [exact Hn|].
    intros f. rewrite Ha. reflexivity.
Qed.

Lemma od_get_None_not_In {V} k (es : list (string * V)) :
  od_get k es = None -> ~ In k (map fst es).
Proof.
  induction es as [|[k' y] es IH]; cbn; [tauto|].
  destruct (String.eqb k k') eqn:E; [discriminate|].
  intros H [->|Hin]; [rewrite String.eqb_refl in E; discriminate | exact (IH H Hin)].
Qed.

Lemma root_tins base segs t : root (tins base segs t) = root t.
Proof.
  destruct segs as [|n rest]; [destruct t; reflexivity|].
  destruct t as [a|x es]; [reflexivity|]. cbn [tins]. destruct (od_get n es); reflexivity.
Qed.

Lemma fresh_tree_tins base rest :
  rest <> [] -> tins (S base) rest (TNode base []) = fresh_tree base rest.
Proof. destruct rest; [congruence | reflexivity]. Qed.

Lemma created_fresh base rest :
  rest <> [] -> S (created rest (TNode base [])) = length rest.
Proof. destruct rest; [congruence | reflexivity]. Qed.

(** *** One insertion *)

(** What a call of [get_parameter_or_create] that makes a parameter and [m]
    scopes leaves: the new tree is in the new store, the old store is as
    it was but for the scopes of the old tree, and the new Variable and its
    zeroed buffer are the last two objects. *)
Definition inserted (h h' : list obj) (t t' : tree) (m : nat) (sh : list nat) (g : bool)
  : Prop :=
  holds h' t' /\ NoDup (scope_addrs t') /\
  length h' = length h + m + 2 /\
  frame h h' (scope_addrs t) /\
  (forall x, In x (scope_addrs t') ->
             In x (scope_addrs t) \/ length h <= x < length h + m) /\
  (forall a, In a (leaf_addrs t') -> In a (leaf_addrs t) \/ a = S (length h + m)) /\
  h' !! (length h + m) = Some (OArray (repeat 0%Z (size_of sh))) /\
  h' !! S (length h + m) = Some (OVariable (mkVariable sh g (length h + m))).

Lemma child_scopes_in x es kt y :
  In kt es -> In y (scope_addrs (snd kt)) -> In y (scope_addrs (TNode x es)).
Proof.
  intros Hkt Hy. rewrite scope_addrs_node. right. apply in_flat_map. eauto.
Qed.

Lemma root_not_in_child x es kt :
  NoDup (scope_addrs (TNode x es)) -> In kt es -> ~ In x (scope_addrs (snd kt)).
Proof.
  rewrite scope_addrs_node. intros Hnd Hkt Hin. apply NoDup_cons in Hnd as [Hnot _].
  apply Hnot, list_elem_of_In, in_flat_map. eauto.
Qed.

Lemma NoDup_child x es kt :
  NoDup (scope_addrs (TNode x es)) -> In kt es -> NoDup (scope_addrs (snd kt)).
Proof.
  rewrite scope_addrs_node. intros Hnd Hkt. apply NoDup_cons in Hnd as [_ Hnd].
  apply in_split in Hkt as (l1 & l2 & ->).
  rewrite flat_map_app in Hnd. cbn [flat_map] in Hnd.
  apply NoDup_app in Hnd as (_ & _ & Hnd). apply NoDup_app in Hnd as (Hnd & _). exact Hnd.
Qed.

Lemma od_get_entry_of n es :
  od_get n (map entry_of es) = option_map root (od_get n es).
Proof. apply (od_get_map root). Qed.

Lemma scope_lt h t x : holds h t -> In x (scope_addrs t) -> x < length h.
Proof.
  intros Hh Hx. pose proof (holds_scope_is_dict h t x Hh Hx) as Hd. unfold is_dict in Hd.
  destruct (h !! x) eqn:E; [|discriminate]. eapply lookup_lt_Some; eauto.
Qed.

Section insert.
Variables (sh : list nat) (g : bool) (r : addr) (f : gmap string file).
Variables (h : list obj) (x : addr) (es : list (string * tree)) (n : string).
Hypothesis Hh : holds h (TNode x es).
Hypothesis Hnd : NoDup (scope_addrs (TNode x es)).
Hypothesis Hn : no_slash n = true.

Lemma insert_x : h !! x = Some (ODict (map entry_of es)).
Proof. apply holds_node in Hh. tauto. Qed.

Lemma insert_x_lt : x < length h.
Proof. eapply lookup_lt_Some, insert_x. Qed.

(** The entries of the scope stay in the store when only the scope itself
    changes. *)
Lemma insert_children_framed h' :
  frame h h' [x] -> Forall (fun kt => holds h' (snd kt)) es.
Proof.
  intros F. apply holds_node in Hh as (Hx & _ & Hes).
  apply List.Forall_forall. intros kt Hkt.
  apply (holds_frame_changed h h' (snd kt) [x]).
  - apply (proj1 (List.Forall_forall _ _) Hes kt Hkt).
  - exact F.
  - intros y [<-|[]]. unfold is_dict. rewrite Hx. reflexivity.
  - intros y Hy [<-|[]]. exact (root_not_in_child x es kt Hnd Hkt Hy).
Qed.

Lemma insert_leaf :
  od_get n es = None ->
  let h' := <[x := ODict (map entry_of es ++ [(n, S (length h))])]> h
            ++ [OArray (repeat 0%Z (size_of sh)); OVariable (mkVariable sh g (length h))] in
  get_parameter_or_create_names [n] sh None g (mkState h x r f) =
    (Ok (S (length h)), mkState h' x r f) /\
  inserted h h' (TNode x es) (TNode x (es ++ [(n, TLeaf (S (length h)))])) 0 sh g.
Proof.
  intros Hget h'. pose proof insert_x as Hx. pose proof insert_x_lt as Hlt.
  assert (Hget' : od_get n (map entry_of es) = None)
    by (rewrite od_get_entry_of, Hget; reflexivity).
  assert (F : frame h h' [x]).
  { intros y Hy Hnot. unfold h'. rewrite lookup_app_l by (rewrite length_insert; exact Hy).
    apply list_lookup_insert_ne. intros ->. apply Hnot. left. reflexivity. }
  assert (Hvar : h' !! S (length h) = Some (OVariable (mkVariable sh g (length h)))).
  { unfold h'. rewrite lookup_app_r by (rewrite length_insert; lia).
    rewrite length_insert. replace (S (length h) - length h) with 1 by lia. reflexivity. }
  split.
  - cbn [get_parameter_or_create_names].
    apply (leaf_create h x r f n (map entry_of es) Hn Hx sh None g Hget').
    apply repeat_length.
  - unfold inserted. rewrite !Nat.add_0_r.
    assert (Hsc : scope_addrs (TNode x (es ++ [(n, TLeaf (S (length h)))])) =
                  scope_addrs (TNode x es)).
    { rewrite !scope_addrs_node, flat_map_app. cbn. rewrite app_nil_r. reflexivity. }
    rewrite Hsc.
    split; [|split; [exact Hnd|]; split; [|split; [|split; [|split; [|split]]]]].
    + apply holds_node. split; [|split].
      * unfold h'. rewrite lookup_app_l by (rewrite length_insert; exact Hlt).
        rewrite list_lookup_insert_eq by exact Hlt. rewrite map_app. reflexivity.
      * rewrite map_app. cbn [map fst]. apply NoDup_app. split; [|split].
        -- apply holds_node in Hh. tauto.
        -- intros k Hk1 Hk2. apply list_elem_of_In in Hk1, Hk2. destruct Hk2 as [<-|[]].
           exact (od_get_None_not_In _ _ Hget Hk1).
        -- apply NoDup_singleton.
      * apply Forall_app. split; [apply insert_children_framed, F|].
        constructor; [|constructor]. cbn. eauto.
    + unfold h'. rewrite length_app, length_insert. cbn. lia.
    + eapply frame_weaken; [exact F|]. intros y [<-|[]].
      rewrite scope_addrs_node. left. reflexivity.
    + intros y Hy. left. exact Hy.
    + intros a Ha. rewrite !leaf_addrs_node, flat_map_app in *.
      apply in_app_iff in Ha as [Ha|Ha]; [left; exact Ha|].
      cbn in Ha. destruct Ha as [<-|[]]. right. reflexivity.
    + unfold h'. rewrite lookup_app_r by (rewrite length_insert; lia).
      rewrite length_insert, Nat.sub_diag. reflexivity.
    + exact Hvar.
Qed.
End insert.

Lemma NoDup_replace {X} (l1 c c' l2 : list X) :
  NoDup (l1 ++ c ++ l2) -> NoDup c' ->
  (forall y, In y c' -> In y c \/ (~ In y l1 /\ ~ In y l2)) ->
  NoDup (l1 ++ c' ++ l2).
Proof.
  intros Hnd Hc' Hin.
  apply NoDup_app in Hnd as (H1 & H12 & H2). apply NoDup_app in H2 as (Hc & Hc2 & H2).
  apply NoDup_app. split; [exact H1|]. split.
  - intros y Hy1 Hy2. apply list_elem_of_In in Hy2. apply in_app_iff in Hy2 as [Hy2|Hy2].
    + destruct (Hin y Hy2) as [Hyc|[Hn1 _]].
      * apply (H12 y Hy1). apply list_elem_of_In, in_app_iff. left. exact Hyc.
      * apply Hn1, list_elem_of_In, Hy1.
    + apply (H12 y Hy1). apply list_elem_of_In, in_app_iff. right. exact Hy2.
  - apply NoDup_app. split; [exact Hc'|]. split; [|exact H2].
    intros y Hy1 Hy2. apply list_elem_of_In in Hy1.
    destruct (Hin y Hy1) as [Hyc|[_ Hn2]].
    + apply (Hc2 y); [apply list_elem_of_In, Hyc | exact Hy2].
    + apply Hn2, list_elem_of_In, Hy2.
Qed.

Section insert_scope.
Variables (sh : list nat) (g : bool) (r : addr) (f : gmap string file).
Variables (h : list obj) (x : addr) (es : list (string * tree)) (n : string).
Hypothesis Hh : holds h (TNode x es).
Hypothesis Hnd : NoDup (scope_addrs (TNode x es)).

Lemma insert_absent rest h2 t2 m1 :
  od_get n es = None -> rest <> [] ->
  let h1 := <[x := ODict (map entry_of es ++ [(n, length h)])]> h ++ [ODict []] in
  get_parameter_or_create_names rest sh None g (mkState h1 (length h) r f) =
    (Ok (S (length h1 + m1)), mkState h2 (length h) r f) ->
  inserted h1 h2 (TNode (length h) []) t2 m1 sh g ->
  root t2 = length h ->
  get_parameter_or_create_names (n :: rest) sh None g (mkState h x r f) =
    (Ok (S (length h + S m1)), mkState h2 x r f) /\
  inserted h h2 (TNode x es) (TNode x (es ++ [(n, t2)])) (S m1) sh g.
Proof.
  intros Hget Hrest h1 Hrun (Hh2 & Hnd2 & Hlen2 & F2 & Hsc2 & Hlf2 & Harr & Hvar) Hroot.
  pose proof (insert_x h x es Hh) as Hx. pose proof (insert_x_lt h x es Hh) as Hlt.
  assert (Hget' : od_get n (map entry_of es) = None)
    by (rewrite od_get_entry_of, Hget; reflexivity).
  assert (Hlen1 : length h1 = S (length h)).
  { unfold h1. rewrite length_app, length_insert. cbn. lia. }
  assert (F : frame h h2 [x]).
  { intros y Hy Hnot. rewrite F2.
    - unfold h1. rewrite lookup_app_l by (rewrite length_insert; exact Hy).
      apply list_lookup_insert_ne. intros ->. apply Hnot. left. reflexivity.
    - lia.
    - rewrite scope_addrs_node. intros [<-|[]]. lia. }
  assert (Hfresh : forall y, In y (scope_addrs t2) -> length h <= y < length h + S m1).
  { intros y Hy. destruct (Hsc2 y Hy) as [Hy'|Hy']; [|lia].
    rewrite scope_addrs_node in Hy'. destruct Hy' as [<-|[]]. lia. }
  split.
  - assert (Hw : get_parameter_or_create_names (n :: rest) sh None g =
                 with_parameter_scope n (get_parameter_or_create_names rest sh None g)).
    { destruct rest; [congruence | reflexivity]. }
    rewrite Hw, with_parameter_scope_eq, (enter_absent _ _ _ _ _ _ Hx Hget').
    fold h1. rewrite Hrun. cbn [set_current heap root_scope files].
    rewrite Hlen1. do 2 f_equal. lia.
  - split; [|split; [|split; [|split; [|split; [|split; [|split]]]]]].
    + apply holds_node. split; [|split].
      * rewrite F2.
        -- unfold h1. rewrite lookup_app_l by (rewrite length_insert; exact Hlt).
           rewrite list_lookup_insert_eq by exact Hlt. rewrite map_app. cbn [map].
           unfold entry_of at 3. cbn [fst snd]. rewrite Hroot. reflexivity.
        -- lia.
        -- rewrite scope_addrs_node. intros [E|[]]. lia.
      * rewrite map_app. cbn [map fst]. apply NoDup_app. split; [|split].
        -- apply holds_node in Hh. tauto.
        -- intros k Hk1 Hk2. apply list_elem_of_In in Hk1, Hk2. destruct Hk2 as [<-|[]].
           exact (od_get_None_not_In _ _ Hget Hk1).
        -- apply NoDup_singleton.
      * apply Forall_app. split; [apply (insert_children_framed h x es Hh Hnd), F|].
        constructor; [exact Hh2 | constructor].
    + rewrite scope_addrs_node, flat_map_app. cbn [flat_map snd]. rewrite app_nil_r.
      rewrite scope_addrs_node in Hnd. apply NoDup_cons in Hnd as [Hnot Hnd'].
      apply NoDup_cons. split.
      * intros Hin. apply list_elem_of_In, in_app_iff in Hin as [Hin|Hin].
        -- apply Hnot, list_elem_of_In, Hin.
        -- apply Hfresh in Hin. lia.
      * apply NoDup_app. split; [exact Hnd'|]. split; [|exact Hnd2].
        intros y Hy1 Hy2. apply list_elem_of_In in Hy1, Hy2. apply Hfresh in Hy2.
        assert (y < length h); [|lia].
        apply (scope_lt h (TNode x es) y Hh). rewrite scope_addrs_node. right. exact Hy1.
    + lia.
    + eapply frame_weaken; [exact F|]. intros y [<-|[]].
      rewrite scope_addrs_node. left. reflexivity.
    + intros y Hy. rewrite scope_addrs_node, flat_map_app in Hy. cbn [flat_map snd] in Hy.
      rewrite app_nil_r in Hy. destruct Hy as [<-|Hy].
      * left. rewrite scope_addrs_node. left. reflexivity.
      * apply in_app_iff in Hy as [Hy|Hy].
        -- left. rewrite scope_addrs_node. right. exact Hy.
        -- right. apply Hfresh, Hy.
    + intros a Ha. rewrite !leaf_addrs_node, flat_map_app in *. cbn [flat_map snd] in Ha.
      rewrite app_nil_r in Ha. apply in_app_iff in Ha as [Ha|Ha]; [left; exact Ha|].
      destruct (Hlf2 a Ha) as [[] | ->]. right. lia.
    + replace (length h + S m1) with (length h1 + m1) by lia. exact Harr.
    + replace (length h + S m1) with (length h1 + m1) by lia. exact Hvar.
Qed.

Lemma insert_present rest child es1 es2 h2 t2 m :
  es = es1 ++ (n, child) :: es2 -> od_get n es1 = None ->
  rest <> [] -> is_scope child = true ->
  get_parameter_or_create_names rest sh None g (mkState h (root child) r f) =
    (Ok (S (length h + m)), mkState h2 (root child) r f) ->
  inserted h h2 child t2 m sh g ->
  root t2 = root child ->
  get_parameter_or_create_names (n :: rest) sh None g (mkState h x r f) =
    (Ok (S (length h + m)), mkState h2 x r f) /\
  inserted h h2 (TNode x es) (TNode x (es1 ++ (n, t2) :: es2)) m sh g.
Proof.
  intros Hes Hn1 Hrest Hsc Hrun (Hh2 & Hnd2 & Hlen2 & F2 & Hsc2 & Hlf2 & Harr & Hvar) Hroot.
  pose proof (insert_x h x es Hh) as Hx. pose proof (insert_x_lt h x es Hh) as Hlt.
  assert (Hin : In (n, child) es) by (rewrite Hes; apply in_elt).
  assert (Hchild : holds h child).
  { apply holds_node in Hh as (_ & _ & Hall).
    apply (proj1 (List.Forall_forall _ _) Hall (n, child) Hin). }
  assert (Hget : od_get n (map entry_of es) = Some (root child)).
  { apply od_get_entry; [apply holds_node in Hh; tauto | exact Hin]. }
  assert (Hxc : ~ In x (scope_addrs child)) by exact (root_not_in_child x es (n, child) Hnd Hin).
  split.
  - assert (Hw : get_parameter_or_create_names (n :: rest) sh None g =
                 with_parameter_scope n (get_parameter_or_create_names rest sh None g)).
    { destruct rest; [congruence | reflexivity]. }
    rewrite Hw, with_parameter_scope_eq.
    rewrite (enter_present _ _ _ _ _ _ _ Hx Hget
               (eq_trans (is_dict_holds _ _ Hchild) Hsc)).
    rewrite Hrun. reflexivity.
  - assert (Hsplit : scope_addrs (TNode x es) =
                     (x :: flat_map (fun kt => scope_addrs (snd kt)) es1) ++
                     scope_addrs child ++ flat_map (fun kt => scope_addrs (snd kt)) es2).
    { rewrite scope_addrs_node, Hes, flat_map_app. reflexivity. }
    assert (Hsplit' : scope_addrs (TNode x (es1 ++ (n, t2) :: es2)) =
                      (x :: flat_map (fun kt => scope_addrs (snd kt)) es1) ++
                      scope_addrs t2 ++ flat_map (fun kt => scope_addrs (snd kt)) es2).
    { rewrite scope_addrs_node, flat_map_app. reflexivity. }
    assert (Hold : forall y, In y (scope_addrs (TNode x es)) -> y < length h).
    { intros y Hy. exact (scope_lt h _ y Hh Hy). }
    split; [|split; [|split; [|split; [|split; [|split; [|split]]]]]].
    + apply holds_node. split; [|split].
      * rewrite F2 by assumption. rewrite Hx, Hes, !map_app. cbn [map].
        unfold entry_of at 2 5. cbn [fst snd]. rewrite Hroot. reflexivity.
      * apply holds_node in Hh as (_ & Hk & _). rewrite Hes, map_app in Hk.
        rewrite map_app. exact Hk.
      * apply holds_node in Hh as (_ & _ & Hall). rewrite Hes in Hall.
        apply Forall_app in Hall as [Hall1 Hall2]. inversion Hall2 as [|? ? _ Hall2']; subst.
        assert (Hsib : forall kt, In kt (es1 ++ es2) -> holds h (snd kt) -> holds h2 (snd kt)).
        { intros kt Hkt Hhk.
          apply (holds_frame_changed h h2 (snd kt) (scope_addrs child) Hhk F2).
          - intros y Hy. exact (holds_scope_is_dict h child y Hchild Hy).
          - intros y Hy1 Hy2. rewrite Hsplit in Hnd.
            apply NoDup_app in Hnd as (_ & Hd1 & Hnd').
            apply NoDup_app in Hnd' as (_ & Hd2 & _).
            apply in_app_iff in Hkt as [Hkt|Hkt].
            + apply (Hd1 y).
              * apply list_elem_of_In. right. apply in_flat_map. eauto.
              * apply list_elem_of_In, in_app_iff. left. exact Hy2.
            + apply (Hd2 y); [apply list_elem_of_In, Hy2|].
              apply list_elem_of_In, in_flat_map. eauto. }
        apply Forall_app. split; [|constructor; [exact Hh2|]].
        -- apply List.Forall_forall. intros kt Hkt. apply Hsib.
           ++ apply in_app_iff. left. exact Hkt.
           ++ apply (proj1 (List.Forall_forall _ _) Hall1 kt Hkt).
        -- apply List.Forall_forall. intros kt Hkt. apply Hsib.
           ++ apply in_app_iff. right. exact Hkt.
           ++ apply (proj1 (List.Forall_forall _ _) Hall2' kt Hkt).
    + rewrite Hsplit'. rewrite Hsplit in Hnd.
      apply (NoDup_replace _ _ _ _ Hnd Hnd2).
      intros y Hy. destruct (Hsc2 y Hy) as [Hy'|Hy']; [left; exact Hy'|]. right.
      split; intros Hin'.
      * assert (y < length h); [|lia]. apply Hold. rewrite Hsplit.
        apply in_app_iff. left. exact Hin'.
      * assert (y < length h); [|lia]. apply Hold. rewrite Hsplit.
        apply in_app_iff. right. apply in_app_iff. right. exact Hin'.
    + exact Hlen2.
    + eapply frame_weaken; [exact F2|]. intros y Hy. rewrite Hsplit.
      apply in_app_iff. right. apply in_app_iff. left. exact Hy.
    + intros y Hy. rewrite Hsplit' in Hy. rewrite Hsplit.
      apply in_app_iff in Hy as [Hy|Hy]; [left; apply in_app_iff; left; exact Hy|].
      apply in_app_iff in Hy as [Hy|Hy].
      * destruct (Hsc2 y Hy) as [Hy'|Hy']; [left|right; exact Hy'].
        apply in_app_iff. right. apply in_app_iff. left. exact Hy'.
      * left. apply in_app_iff. right. apply in_app_iff. right. exact Hy.
    + intros a Ha. rewrite !leaf_addrs_node in *. rewrite Hes.
      rewrite !flat_map_app in *. cbn [flat_map snd] in *.
      apply in_app_iff in Ha as [Ha|Ha]; [left; apply in_app_iff; left; exact Ha|].
      apply in_app_iff in Ha as [Ha|Ha].
      * destruct (Hlf2 a Ha) as [Ha'|Ha']; [left|right; exact Ha'].
        apply in_app_iff. right. apply in_app_iff. left. exact Ha'.
      * left. apply in_app_iff. right. apply in_app_iff. right. exact Ha.
    + exact Harr.
    + exact Hvar.
Qed.
End insert_scope.

Lemma is_vnode_abs h t : is_vnode (abs h t) = is_scope t.
Proof. destruct t; reflexivity. Qed.

(** [get_parameter_or_create] on a path that can be inserted in the tree
    the store holds: the new store holds the tree with the path inserted. *)
Lemma get_parameter_or_create_tree sh g r f segs :
  Forall (fun n => no_slash n = true) segs ->
  forall t h,
    holds h t -> NoDup (scope_addrs t) -> insertable segs (abs h t) = true ->
    exists h',
      get_parameter_or_create_names segs sh None g (mkState h (root t) r f) =
        (Ok (S (length h + created segs t)), mkState h' (root t) r f) /\
      inserted h h' t (tins (length h) segs t) (created segs t) sh g.
Proof.
  induction segs as [|n rest IH]; intros Hns t h Hh Hnd Hins; [discriminate|].
  inversion Hns as [|? ? Hn Hrest]; subst.
  destruct t as [a|x es]; [discriminate|].
  rewrite abs_node in Hins. cbn [insertable] in Hins. rewrite od_get_map in Hins.
  cbn [tins created root].
  destruct (od_get n es) as [child|] eqn:E; cbn [option_map] in Hins.
  - destruct rest as [|k2 rest']; [discriminate|].
    apply andb_true_iff in Hins as [Hsc Hins]. rewrite is_vnode_abs in Hsc.
    destruct (od_get_split n child es E) as (es1 & es2 & Hes & Hn1 & Halter).
    assert (Hin : In (n, child) es) by (rewrite Hes; apply in_elt).
    assert (Hchild : holds h child).
    { apply holds_node in Hh as (_ & _ & Hall).
      apply (proj1 (List.Forall_forall _ _) Hall (n, child) Hin). }
    destruct (IH Hrest child h Hchild (NoDup_child x es (n, child) Hnd Hin) Hins)
      as (h2 & Hrun & Hinserted).
    exists h2. rewrite Halter.
    apply (insert_present sh g r f h x es n Hh Hnd (k2 :: rest') child es1 es2 h2);
      auto using root_tins; discriminate.
  - destruct rest as [|k2 rest'].
    + eexists. cbn [fresh_tree length]. rewrite Nat.add_0_r.
      apply (insert_leaf sh g r f h x es n Hh Hnd Hn E).
    + set (h1 := <[x := ODict (map entry_of es ++ [(n, length h)])]> h ++ [ODict []]).
      assert (Hx : h !! x = Some (ODict (map entry_of es))) by exact (insert_x h x es Hh).
      assert (Hlen1 : length h1 = S (length h)).
      { unfold h1. rewrite length_app, length_insert. cbn. lia. }
      assert (Hnew : holds h1 (TNode (length h) [])).
      { apply holds_node. split; [|split; constructor].
        unfold h1. rewrite lookup_app_r by (rewrite length_insert; lia).
        rewrite length_insert, Nat.sub_diag. reflexivity. }
      destruct (IH Hrest (TNode (length h) []) h1 Hnew) as (h2 & Hrun & Hinserted).
      { rewrite scope_addrs_node. cbn. apply NoDup_singleton. }
      { reflexivity. }
      cbn [root] in Hrun.
      exists h2.
      replace (tins (length h1) (k2 :: rest') (TNode (length h) []))
        with (fresh_tree (length h) (k2 :: rest')) in Hinserted
        by (rewrite Hlen1; reflexivity).
      apply (insert_absent sh g r f h x es n Hh Hnd (k2 :: rest') h2
               (fresh_tree (length h) (k2 :: rest')) (length rest'));
        auto; try discriminate.
Qed.

(** ** Names and paths *)

(** A name that can be a segment of a path and comes back from it. *)
Definition good_name (k : string) : Prop := no_slash k = true /\ k <> EmptyString.

Fixpoint names_ok {A} (t : vtree A) : Prop :=
  match t with
  | VLeaf _ => True
  | VNode es =>
      (fix all (l : list (string * vtree A)) : Prop :=
         match l with
         | [] => True
         | kt :: l' => (good_name (fst kt) /\ names_ok (snd kt)) /\ all l'
         end) es
  end.

Lemma names_ok_node {A} (es : list (string * vtree A)) :
  names_ok (VNode es) <-> Forall (fun kt => good_name (fst kt) /\ names_ok (snd kt)) es.
Proof.
  cbn [names_ok]. split.
  - induction es as [|kt es IH]; [constructor|]. intros [H1 H2]. constructor; auto.
  - induction 1; [exact I | split; assumption].
Qed.

Lemma join_cons x y rest :
  join (x :: y :: rest) = String.append x (String slash (join (y :: rest))).
Proof. reflexivity. Qed.

Lemma join_snoc pre k :
  pre <> [] -> join (pre ++ [k]) = String.append (join pre) (String slash k).
Proof.
  induction pre as [|x [|y rest] IH]; intros Hne; [congruence|reflexivity|].
  change ((x :: y :: rest) ++ [k]) with (x :: y :: (rest ++ [k])).
  rewrite !join_cons. change (y :: rest ++ [k]) with ((y :: rest) ++ [k]).
  rewrite IH by discriminate. rewrite append_assoc. reflexivity.
Qed.

Lemma join_nonempty pre : pre <> [] -> Forall good_name pre -> join pre <> EmptyString.
Proof.
  destruct pre as [|x [|y rest]]; intros Hne Hg; [congruence| |].
  - inversion Hg as [|? ? [_ Hx] _]; subst. exact Hx.
  - inversion Hg as [|? ? [_ Hx] _]; subst. rewrite join_cons.
    destruct x; [congruence | discriminate].
Qed.

(** The path the traversal builds is the join of the segments. *)
Lemma child_path_join pre k :
  Forall good_name pre -> child_path (join pre) k = join (pre ++ [k]).
Proof.
  intros Hg. unfold child_path. destruct pre as [|x rest]; [reflexivity|].
  assert (Hne : join (x :: rest) <> EmptyString) by (apply join_nonempty; [discriminate|exact Hg]).
  apply String.eqb_neq in Hne. rewrite Hne. rewrite join_snoc by discriminate. reflexivity.
Qed.

(** Paths and values of the parameters the traversal meets. *)
Definition values (h : list obj) (l : list (string * addr)) : list (string * option value) :=
  map (fun pa => (fst pa, leaf_val h (snd pa))) l.

Lemma dfs_rel h t :
  names_ok (abs h t) ->
  forall pre, Forall good_name pre ->
    values h (dfs (join pre) t) =
    map (fun sv => (join (pre ++ fst sv), snd sv)) (rel_dfs (abs h t)).
Proof.
  induction t as [a|a es IH] using tree_ind'; intros Hok pre Hpre.
  - cbn. rewrite app_nil_r. reflexivity.
  - rewrite dfs_node, abs_node, rel_dfs_node. rewrite abs_node in Hok.
    apply names_ok_node in Hok. unfold dfs_entries, values.
    induction es as [|[k c] es IHes]; [reflexivity|].
    inversion IH as [|? ? Hc IH']; subst. cbn [map] in Hok.
    inversion Hok as [|? ? [Hk Hokc] Hok']; subst. cbn [fst snd] in *.
    cbn [flat_map map fst snd]. rewrite !map_app. f_equal; [|apply IHes; assumption].
    rewrite child_path_join by exact Hpre.
    fold (values h (dfs (join (pre ++ [k])) c)).
    rewrite (Hc Hokc (pre ++ [k])) by (apply Forall_app; split; [exact Hpre | repeat constructor; apply Hk]).
    unfold under. rewrite map_map. apply map_ext. intros [segs v]. cbn [fst snd].
    rewrite <- app_assoc. reflexivity.
Qed.

Lemma distinct_keys_abs h t : holds h t -> distinct_keys_in (abs h t).
Proof.
  induction t as [a|a es IH] using tree_ind'; intros Hh; [exact I|].
  apply holds_node in Hh as (_ & Hnd & Hes). rewrite abs_node.
  apply distinct_keys_node. split.
  - rewrite map_map. cbn [fst]. exact Hnd.
  - apply Forall_map. apply List.Forall_forall. intros kt Hkt. cbn [snd].
    apply (proj1 (List.Forall_forall _ _) IH kt Hkt).
    apply (proj1 (List.Forall_forall _ _) Hes kt Hkt).
Qed.

Lemma vdepth_abs h t : vdepth (abs h t) = depth t.
Proof.
  induction t as [a|a es IH] using tree_ind'; [reflexivity|].
  rewrite abs_node, vdepth_node, depth_node. f_equal.
  induction IH as [|kt es Hkt _ IHes]; [reflexivity|].
  cbn [map fold_right snd]. rewrite Hkt, IHes. reflexivity.
Qed.

Lemma rel_dfs_good {A} (t : vtree A) :
  names_ok t -> forall sv, In sv (rel_dfs t) -> Forall good_name (fst sv).
Proof.
  induction t as [v|es IH] using vtree_ind'; intros Hok sv Hin.
  - destruct Hin as [<-|[]]. constructor.
  - apply names_ok_node in Hok. rewrite rel_dfs_node in Hin.
    apply in_flat_map in Hin as (kt & Hkt & Hin). unfold under in Hin.
    apply in_map_iff in Hin as (sv' & <- & Hin'). cbn [fst].
    destruct (proj1 (List.Forall_forall _ _) Hok kt Hkt) as [Hk Hokc].
    constructor; [exact Hk|].
    exact (proj1 (List.Forall_forall _ _) IH kt Hkt Hokc sv' Hin').
Qed.

Lemma names_ok_prune {A} (t : vtree A) : names_ok t -> names_ok (prune t).
Proof.
  induction t as [v|es IH] using vtree_ind'; intros Hok; [exact I|].
  apply names_ok_node in Hok. rewrite prune_node. apply names_ok_node.
  unfold prune_entries.
  induction es as [|[k c] es IHes]; [constructor|].
  inversion IH as [|? ? Hc IH']; subst. inversion Hok as [|? ? [Hk Hokc] Hok']; subst.
  cbn [flat_map fst snd] in *. destruct (has_leaf c); cbn [app]; [constructor|]; auto.
Qed.

(** *** Filling the new Variable *)

(** Every parameter of the tree has a Variable with a data buffer. *)
Definition valid_leaves (h : list obj) (t : tree) : Prop :=
  forall a, In a (leaf_addrs t) -> leaf_val h a <> None.

Lemma abs_ext h h' t :
  (forall a, In a (leaf_addrs t) -> leaf_val h' a = leaf_val h a) ->
  abs h' t = abs h t.
Proof.
  induction t as [a|a es IH] using tree_ind'; intros Hl.
  - cbn. rewrite Hl by (left; reflexivity). reflexivity.
  - rewrite !abs_node. f_equal. rewrite leaf_addrs_node in Hl.
    apply map_ext_in. intros kt Hkt. f_equal.
    apply (proj1 (List.Forall_forall _ _) IH kt Hkt).
    intros b Hb. apply Hl, in_flat_map. eauto.
Qed.

Section fill.
Variables (h h' : list obj) (t : tree) (segs : list string).
Variables (sh : list nat) (g0 gr : bool) (d : list float32).
Let t' := tins (length h) segs t.
Let newdata := length h + created segs t.
Let newvar := S newdata.
Let h'' := <[newvar := OVariable (mkVariable sh gr newdata)]> (<[newdata := OArray d]> h').
Hypothesis Hh : holds h t.
Hypothesis Hvalid : valid_leaves h t.
Hypothesis Hins : inserted h h' t t' (created segs t) sh g0.

Lemma fill_old_leaf a : In a (leaf_addrs t) -> leaf_val h'' a = leaf_val h a.
Proof.
  intros Ha. destruct Hins as (_ & _ & Hlen & F & _).
  pose proof (Hvalid a Ha) as Hv. unfold leaf_val in *.
  destruct (h !! a) as [[| v |]|] eqn:Ea; try congruence.
  destruct (h !! data v) as [[| | x]|] eqn:Ed; try congruence.
  assert (Hnot : forall y o, h !! y = Some o -> is_dict h y = false ->
                             h'' !! y = Some o).
  { intros y o Hy Hnd. assert (Hlt : y < length h) by (eapply lookup_lt_Some; eauto).
    unfold h''. rewrite !list_lookup_insert_ne by (unfold newvar, newdata; lia).
    rewrite F; [exact Hy | exact Hlt |].
    intros Hin. rewrite (holds_scope_is_dict h t y Hh Hin) in Hnd. discriminate. }
  rewrite (Hnot a _ Ea) by (unfold is_dict; rewrite Ea; reflexivity).
  rewrite (Hnot (data v) _ Ed) by (unfold is_dict; rewrite Ed; reflexivity).
  reflexivity.
Qed.

Lemma fill_new_leaf : leaf_val h'' newvar = Some (sh, gr, d).
Proof.
  destruct Hins as (_ & _ & Hlen & _ & _ & _ & Harr & Hvar).
  fold newdata in Harr, Hvar. fold newvar in Hvar.
  assert (Hlv : newvar < length h') by (eapply lookup_lt_Some; eauto).
  assert (Hld : newdata < length h') by (eapply lookup_lt_Some; eauto).
  unfold leaf_val, h''. rewrite list_lookup_insert_eq by (rewrite length_insert; exact Hlv).
  cbn [data]. rewrite list_lookup_insert_ne by (unfold newvar; lia).
  rewrite list_lookup_insert_eq by exact Hld. reflexivity.
Qed.

Lemma fill_tree :
  holds h'' t' /\ NoDup (scope_addrs t') /\ valid_leaves h'' t' /\
  abs h'' t' = vins segs (Some (sh, gr, d)) (abs h t).
Proof.
  pose proof Hins as (Hh' & Hnd' & Hlen & F & Hsc & Hlf & Harr & Hvar).
  fold newdata in Harr, Hvar. fold newvar in Hvar, Hlf.
  split; [|split; [exact Hnd'|split]].
  - apply (holds_frame h' h'' t' Hh').
    + intros y Hy. pose proof (holds_scope_is_dict h' t' y Hh' Hy) as Hd.
      unfold h''. rewrite !list_lookup_insert_ne; [reflexivity| |].
      * intros <-. unfold is_dict in Hd. rewrite Harr in Hd. discriminate.
      * intros <-. unfold is_dict in Hd. rewrite Hvar in Hd. discriminate.
    + intros y Hy. unfold is_Variable in *. unfold h''.
      destruct (decide (y = newvar)) as [->|Hne].
      * rewrite list_lookup_insert_eq; [reflexivity|].
        rewrite length_insert. eapply lookup_lt_Some; eauto.
      * rewrite list_lookup_insert_ne by congruence.
        destruct (decide (y = newdata)) as [->|Hne'];
          [rewrite Harr in Hy; discriminate|].
        rewrite list_lookup_insert_ne by congruence. exact Hy.
  - intros a Ha. destruct (Hlf a Ha) as [Ha'|Ha'].
    + rewrite (fill_old_leaf a Ha'). apply Hvalid, Ha'.
    + subst a. change (leaf_val h'' newvar <> None). rewrite fill_new_leaf. discriminate.
  - unfold t'. rewrite abs_tins. fold newdata. fold newvar.
    rewrite fill_new_leaf. f_equal. apply abs_ext. exact fill_old_leaf.
Qed.
End fill.

(** *** Loading records into a tree *)

(** A tree the store holds, with distinct scopes and sound parameters. *)
Definition tree_in (h : list obj) (t : tree) : Prop :=
  holds h t /\ NoDup (scope_addrs t) /\ valid_leaves h t.

(** A record of the flat format, from its segments and its value. *)
Definition to_parameter (sv : list string * value) : ProtoParameter :=
  mkParameter (join (fst sv)) (fst (fst (snd sv))) (snd (snd sv)) (snd (fst (snd sv))).

Definition record_ok (sv : list string * value) : Prop :=
  fst sv <> [] /\ Forall good_name (fst sv) /\
  length (snd (snd sv)) = size_of (fst (fst (snd sv))).

Definition with_Some {X Y} (sv : X * Y) : X * option Y := (fst sv, Some (snd sv)).

Lemma good_names_no_slash segs :
  Forall good_name segs -> Forall (fun n => no_slash n = true) segs.
Proof. apply List.Forall_impl. intros k [Hk _]. exact Hk. Qed.

Lemma load_protobuf_record_tree r f h t sv :
  tree_in h t -> record_ok sv -> insertable (fst sv) (abs h t) = true ->
  exists h',
    load_protobuf_record (to_parameter sv) (mkState h (root t) r f) =
      (Ok tt, mkState h' (root t) r f) /\
    tree_in h' (tins (length h) (fst sv) t) /\
    abs h' (tins (length h) (fst sv) t) = vins (fst sv) (Some (snd sv)) (abs h t).
Proof.
  intros (Hh & Hnd & Hvalid) (Hne & Hgood & Hlen) Hins.
  destruct sv as [segs [[sh gr] d]]. cbn [fst snd] in *.
  destruct (get_parameter_or_create_tree sh true r f segs (good_names_no_slash _ Hgood)
              t h Hh Hnd Hins) as (h' & Hrun & Hinserted).
  pose proof Hinserted as (_ & _ & _ & _ & _ & _ & Harr & Hvar).
  set (newdata := length h + created segs t) in *.
  assert (Hne' : S newdata <> newdata) by lia.
  assert (Hltd : newdata < length h') by (eapply lookup_lt_Some; eauto).
  eexists. split; [|split].
  - unfold load_protobuf_record, to_parameter. cbn [fst snd variable_name shape_dim
      parameter_data parameter_need_grad].
    unfold get_parameter_or_create.
    rewrite split_join by (assumption || apply good_names_no_slash; assumption).
    rewrite (bind_ok _ _ _ _ _ Hrun).
    unfold reshape. rewrite Hlen, Nat.eqb_refl. unfold bind at 1. unfold ret at 1.
    erewrite (bind_ok _ _ _ _ _ (set_d_run _ _ _ _ _ _ _ Hvar Hlen)).
    cbn [data shape]. erewrite set_need_grad_run; [reflexivity|].
    rewrite list_lookup_insert_ne by lia. exact Hvar.
  - cbn [shape data]. destruct (fill_tree h h' t segs sh true gr d Hh Hvalid Hinserted)
      as (H1 & H2 & H3 & _). repeat split; assumption.
  - cbn [shape data]. apply (fill_tree h h' t segs sh true gr d Hh Hvalid Hinserted).
Qed.

Lemma load_protobuf_loop r f records :
  Forall record_ok records ->
  forall t h,
    tree_in h t ->
    loadable (map with_Some records) (abs h t) ->
    exists h' t',
      for_each (map to_parameter records)
        (fun parameter _ => load_protobuf_record parameter) tt (mkState h (root t) r f) =
        (Ok tt, mkState h' (root t) r f) /\
      tree_in h' t' /\ root t' = root t /\
      abs h' t' = vload (map with_Some records) (abs h t).
Proof.
  induction 1 as [|sv records Hsv _ IH]; intros t h Ht Hl.
  - exists h, t. repeat split; try apply Ht.
  - cbn [map loadable] in Hl. destruct Hl as [Hi Hl]. cbn [with_Some fst snd] in Hi, Hl.
    destruct (load_protobuf_record_tree r f h t sv Ht Hsv Hi) as (h1 & Hrun & Ht1 & Habs).
    rewrite <- Habs in Hl.
    destruct (IH _ h1 Ht1 Hl) as (h' & t' & Hloop & Ht' & Hroot & Habs').
    rewrite root_tins in Hloop, Hroot.
    exists h', t'. split; [|split; [exact Ht'|split; [exact Hroot|]]].
    + cbn [map for_each]. rewrite (bind_ok _ _ _ _ _ Hrun). exact Hloop.
    + rewrite Habs', Habs. reflexivity.
Qed.

(** *** What [save_parameters] writes *)

(** Every parameter of the tree has a Variable whose buffer has the size
    of its shape. *)
Definition sound_leaves (h : list obj) (t : tree) : Prop :=
  forall a, In a (leaf_addrs t) ->
    exists v x, h !! a = Some (OVariable v) /\ h !! data v = Some (OArray x) /\
                length x = size_of (shape v).

(** No scope or parameter name is empty or holds a slash. *)
Definition well_named (t : tree) : Prop := names_ok (abs [] t).

Lemma names_ok_abs h h' t : names_ok (abs h t) -> names_ok (abs h' t).
Proof.
  induction t as [a|a es IH] using tree_ind'; [trivial|].
  rewrite !abs_node. intros Hok. apply names_ok_node in Hok. apply names_ok_node.
  apply Forall_map. apply Forall_map in Hok.
  apply List.Forall_forall. intros kt Hkt. cbn [fst snd].
  destruct (proj1 (List.Forall_forall _ _) Hok kt Hkt) as [Hk Hc]. cbn [fst snd] in *.
  split; [exact Hk|]. exact (proj1 (List.Forall_forall _ _) IH kt Hkt Hc).
Qed.

Lemma sound_valid h t : sound_leaves h t -> valid_leaves h t.
Proof.
  intros Hs a Ha. destruct (Hs a Ha) as (v & x & Hv & Hx & _).
  unfold leaf_val. rewrite Hv, Hx. discriminate.
Qed.

Lemma dfs_leaves path t pa : In pa (dfs path t) -> In (snd pa) (leaf_addrs t).
Proof.
  revert path. induction t as [a|a es IH] using tree_ind'; intros path Hin.
  - destruct Hin as [<-|[]]. left. reflexivity.
  - rewrite dfs_node in Hin. rewrite leaf_addrs_node. unfold dfs_entries in Hin.
    apply in_flat_map in Hin as (kt & Hkt & Hin). apply in_flat_map. exists kt.
    split; [exact Hkt|]. exact (proj1 (List.Forall_forall _ _) IH kt Hkt _ Hin).
Qed.

Lemma rel_dfs_leaf_val h t sv :
  In sv (rel_dfs (abs h t)) -> exists a, In a (leaf_addrs t) /\ snd sv = leaf_val h a.
Proof.
  revert sv. induction t as [a|a es IH] using tree_ind'; intros sv Hin.
  - destruct Hin as [<-|[]]. exists a. split; [left|]; reflexivity.
  - rewrite abs_node, rel_dfs_node in Hin. rewrite leaf_addrs_node.
    apply in_flat_map in Hin as (kt' & Hkt' & Hin).
    apply in_map_iff in Hkt' as (kt & <- & Hkt). cbn [fst snd] in Hin.
    unfold under in Hin. apply in_map_iff in Hin as (sv' & <- & Hin'). cbn [snd].
    destruct (proj1 (List.Forall_forall _ _) IH kt Hkt sv' Hin') as (b & Hb & Hv).
    exists b. split; [|exact Hv]. apply in_flat_map. eauto.
Qed.

(** The record [save_parameters] makes for a parameter. *)
Definition record_of (h : list obj) (pa : string * addr) : ProtoParameter :=
  match leaf_val h (snd pa) with
  | Some (sh, g, x) => mkParameter (fst pa) sh x g
  | None => mkParameter (fst pa) [] [] false
  end.

Lemma save_protobuf_loop h c r f params :
  (forall pa, In pa params -> leaf_val h (snd pa) <> None) ->
  forall proto,
    for_each params save_protobuf_record proto (mkState h c r f) =
    (Ok (proto ++ map (record_of h) params), mkState h c r f).
Proof.
  induction params as [|[p a] params IH]; intros Hv proto.
  - cbn. rewrite app_nil_r. reflexivity.
  - pose proof (Hv (p, a) (or_introl eq_refl)) as Ha. cbn [snd] in Ha.
    cbn [for_each map]. unfold record_of at 1. cbn [fst snd]. unfold leaf_val in *.
    destruct (h !! a) as [[|v|]|] eqn:Ea; try congruence.
    destruct (h !! data v) as [[| |x]|] eqn:Ed; try congruence.
    unfold save_protobuf_record at 1. cbn [fst snd].
    unfold bind at 1. unfold bind at 1.
    rewrite (get_Variable_run _ _ _ _ _ _ Ea).
    unfold bind at 1. rewrite (get_d_run _ _ _ _ _ _ _ Ea Ed). unfold ret at 1.
    rewrite IH by (intros pa Hpa; apply Hv; right; exact Hpa).
    rewrite <- app_assoc. reflexivity.
Qed.

(** The values without the missing ones. *)
Definition present {X Y} (l : list (X * option Y)) : list (X * Y) :=
  flat_map (fun sv => match snd sv with Some v => [(fst sv, v)] | None => [] end) l.

Lemma present_all {X Y} (l : list (X * option Y)) :
  Forall (fun sv => snd sv <> None) l -> map with_Some (present l) = l.
Proof.
  induction 1 as [|[a [v|]] l Hx _ IH]; cbn in *; [reflexivity| |congruence].
  unfold present in IH. rewrite IH. reflexivity.
Qed.

Lemma In_present {X Y} (l : list (X * option Y)) sv :
  In sv (present l) -> In (with_Some sv) l.
Proof.
  unfold present. intros Hin. apply in_flat_map in Hin as ([a [v|]] & Hl & Hin); cbn in Hin.
  - destruct Hin as [<-|[]]. exact Hl.
  - destruct Hin.
Qed.

Lemma filter_all {X} (f : X -> bool) l : (forall x, f x = true) -> List.filter f l = l.
Proof.
  intros Hf. induction l as [|x l IH]; cbn; [reflexivity|]. rewrite Hf, IH. reflexivity.
Qed.

(** Different segment lists give different paths. *)
Lemma join_inj s1 s2 :
  s1 <> [] -> s2 <> [] -> Forall good_name s1 -> Forall good_name s2 ->
  join s1 = join s2 -> s1 = s2.
Proof.
  intros H1 H2 G1 G2 E.
  rewrite <- (split_join s1), <- (split_join s2), E;
    auto using good_names_no_slash.
Qed.

(** *** The parameters before the save *)

Section source.
Variables (h : list obj) (t : tree) (limit : nat).
Hypothesis Hh : holds h t.
Hypothesis Hscope : is_scope t = true.
Hypothesis Hdepth : depth t <= limit.
Hypothesis Hnames : well_named t.
Hypothesis Hsound : sound_leaves h t.

Lemma source_names : names_ok (abs h t).
Proof. exact (names_ok_abs [] h t Hnames). Qed.

Lemma source_all_Some : Forall (fun sv => snd sv <> None) (rel_dfs (abs h t)).
Proof.
  apply List.Forall_forall. intros sv Hin.
  destruct (rel_dfs_leaf_val h t sv Hin) as (a & Ha & ->).
  exact (sound_valid h t Hsound a Ha).
Qed.

(** The parameters as segments and values. *)
Definition records_of : list (list string * value) := present (rel_dfs (abs h t)).

Lemma source_records : map with_Some records_of = rel_dfs (abs h t).
Proof. apply present_all, source_all_Some. Qed.

Lemma source_values :
  values h (dfs EmptyString t) =
  map (fun sv => (join (fst sv), snd sv)) (rel_dfs (abs h t)).
Proof. apply (dfs_rel h t source_names []). constructor. Qed.

Lemma source_nonempty sv : In sv (rel_dfs (abs h t)) -> fst sv <> [].
Proof.
  destruct t as [a|a es]; [discriminate|]. rewrite abs_node.
  exact (proj1 (List.Forall_forall _ _) (rel_dfs_node_nonempty _) sv).
Qed.

Lemma source_paths_distinct : NoDup (map fst (dfs EmptyString t)).
Proof.
  assert (E : map fst (dfs EmptyString t) = map fst (values h (dfs EmptyString t))).
  { unfold values. rewrite map_map. reflexivity. }
  rewrite E, source_values, map_map. cbn [fst].
  replace (map (fun x : list string * option value => join (fst x)) (rel_dfs (abs h t)))
    with (map join (map fst (rel_dfs (abs h t)))) by (rewrite map_map; reflexivity).
  apply NoDup_fmap_2_strong; [|apply NoDup_rel_dfs, distinct_keys_abs, Hh].
  intros s1 s2 H1 H2 Ej.
  apply list_elem_of_In, in_map_iff in H1 as (sv1 & <- & H1).
  apply list_elem_of_In, in_map_iff in H2 as (sv2 & <- & H2).
  apply join_inj.
  - exact (source_nonempty _ H1).
  - exact (source_nonempty _ H2).
  - exact (rel_dfs_good _ source_names _ H1).
  - exact (rel_dfs_good _ source_names _ H2).
  - exact Ej.
Qed.

Lemma source_records_ok : Forall record_ok records_of.
Proof.
  apply List.Forall_forall. intros sv Hin. apply In_present in Hin.
  split; [|split].
  - exact (source_nonempty _ Hin).
  - exact (rel_dfs_good _ source_names _ Hin).
  - destruct (rel_dfs_leaf_val h t _ Hin) as (a & Ha & Hv).
    destruct (Hsound a Ha) as (v & x & Hva & Hx & Hlen).
    unfold leaf_val in Hv. rewrite Hva, Hx in Hv. cbn [with_Some snd] in Hv.
    inversion Hv as [Hsv]. rewrite Hsv. exact Hlen.
Qed.

Lemma source_saved :
  map (record_of h) (dfs EmptyString t) = map to_parameter records_of.
Proof.
  assert (E : map (record_of h) (dfs EmptyString t) =
              map (fun pv => match snd pv with
                             | Some (sh, g, x) => mkParameter (fst pv) sh x g
                             | None => mkParameter (fst pv) [] [] false
                             end) (values h (dfs EmptyString t))).
  { unfold values. rewrite map_map. reflexivity. }
  rewrite E, source_values, <- source_records, !map_map.
  apply map_ext. intros [segs [[sh g] x]]. reflexivity.
Qed.

Lemma source_get_parameters r f :
  get_parameters limit false (mkState h (root t) r f) =
  (Ok (dfs EmptyString t), mkState h (root t) r f).
Proof.
  unfold get_parameters.
  rewrite (get_parameters_rec_tree t Hscope limit [] EmptyString false h r f Hh Hdepth).
  rewrite filter_all by reflexivity.
  rewrite od_update_distinct by exact source_paths_distinct. reflexivity.
Qed.

Lemma source_leaves_valid pa : In pa (dfs EmptyString t) -> leaf_val h (snd pa) <> None.
Proof. intros Hin. apply (sound_valid h t Hsound), (dfs_leaves _ _ _ Hin). Qed.
End source.

(** *** The parameters after the load *)

Lemma loaded_get_parameters h t h' t' limit r f :
  holds h t -> is_scope t = true -> depth t <= limit -> well_named t ->
  sound_leaves h t ->
  holds h' t' -> abs h' t' = prune (abs h t) ->
  get_parameters limit false (mkState h' (root t') r f) =
    (Ok (dfs EmptyString t'), mkState h' (root t') r f) /\
  values h' (dfs EmptyString t') = values h (dfs EmptyString t).
Proof.
  intros Hh Hs Hd Hn Hsound Hh' Habs.
  assert (Hs' : is_scope t' = true).
  { rewrite <- is_vnode_abs with (h := h'), Habs.
    destruct t; [discriminate|]. rewrite abs_node, prune_node. reflexivity. }
  assert (Hn' : names_ok (abs h' t')).
  { rewrite Habs. apply names_ok_prune, (source_names h t Hn). }
  assert (Hd' : depth t' <= limit).
  { rewrite <- (vdepth_abs h' t'), Habs. etransitivity; [apply vdepth_prune|].
    rewrite vdepth_abs. exact Hd. }
  assert (Hv : values h' (dfs EmptyString t') = values h (dfs EmptyString t)).
  { rewrite (source_values h t Hn).
    pose proof (dfs_rel h' t' Hn' [] ltac:(constructor)) as Hrel.
    cbn [join app] in Hrel. rewrite Hrel, Habs, rel_dfs_prune. reflexivity. }
  split; [|exact Hv].
  unfold get_parameters.
  rewrite (get_parameters_rec_tree t' Hs' limit [] EmptyString false h' r f Hh' Hd').
  rewrite filter_all by reflexivity.
  rewrite od_update_distinct; [reflexivity|]. cbn [app].
  replace (map fst (dfs EmptyString t')) with (map fst (values h' (dfs EmptyString t')))
    by (unfold values; rewrite map_map; reflexivity).
  rewrite Hv. unfold values. rewrite map_map. cbn [fst].
  eapply source_paths_distinct; eassumption.
Qed.

(** *** The round trip through the flat format *)

Lemma empty_scope_tree_in h c d :
  h !! c = Some (ODict d) -> tree_in (<[c := ODict []]> h) (TNode c []).
Proof.
  intros Hc. split; [|split].
  - apply holds_node. split; [|split; constructor].
    apply list_lookup_insert_eq. eapply lookup_lt_Some; eauto.
  - rewrite scope_addrs_node. cbn. apply NoDup_singleton.
  - intros a [].
Qed.

Lemma round_trip_protobuf h r f t limit path :
  holds h t -> is_scope t = true -> depth t <= limit -> well_named t ->
  sound_leaves h t ->
  snd (splitext path) = dot_protobuf ->
  exists proto h' f' t',
    (exec save_parameters limit path ;; exec clear_parameters ;; load_parameters path None)
      (mkState h (root t) r f) = (Ok proto, mkState h' (root t) r f') /\
    holds h' t' /\ root t' = root t /\ abs h' t' = prune (abs h t).
Proof.
  intros Hh Hs Hd Hn Hsound Hext.
  set (recs := records_of h t).
  set (R := map to_parameter recs).
  set (f' := <[path := ProtoFile R]> f).
  assert (Hc : exists d, h !! root t = Some (ODict d)).
  { destruct t as [a|a es]; [discriminate|]. apply holds_node in Hh. destruct Hh. eauto. }
  destruct Hc as (d & Hc).
  assert (Hget : get_parameters limit false (mkState h (root t) r f) =
                 (Ok (dfs EmptyString t), mkState h (root t) r f))
    by (eapply source_get_parameters; eassumption).
  assert (Hvalid : forall pa, In pa (dfs EmptyString t) -> leaf_val h (snd pa) <> None)
    by (eapply source_leaves_valid; eassumption).
  assert (Hsaved : map (record_of h) (dfs EmptyString t) = R)
    by (eapply source_saved; eassumption).
  assert (Hok : Forall record_ok recs) by (eapply source_records_ok; eassumption).
  assert (Hrecs : map with_Some recs = rel_dfs (abs h t))
    by (eapply source_records; eassumption).
  assert (Hpure : vload (rel_dfs (abs h t)) (VNode []) = prune (abs h t) /\
                  loadable (rel_dfs (abs h t)) (VNode [])).
  { pose proof (distinct_keys_abs h t Hh) as Hdk.
    destruct t as [a|a es]; [discriminate|]. rewrite abs_node in *.
    apply vload_rel_dfs. exact Hdk. }
  destruct Hpure as [Hvload Hloadable].
  assert (Hsave : save_parameters limit path (mkState h (root t) r f) =
                  (Ok tt, mkState h (root t) r f')).
  { unfold save_parameters. rewrite Hext.
    replace (String.eqb dot_protobuf dot_h5) with false by reflexivity.
    rewrite String.eqb_refl.
    rewrite (bind_ok _ _ _ _ _ Hget).
    rewrite (bind_ok _ _ _ _ _ (save_protobuf_loop h (root t) r f _ Hvalid [])).
    cbn [app]. rewrite Hsaved. reflexivity. }
  destruct (load_protobuf_loop r f' recs Hok (TNode (root t) []) (<[root t := ODict []]> h))
    as (h' & t' & Hloop & (Hh' & _ & _) & Hroot & Habs).
  { eapply empty_scope_tree_in. exact Hc. }
  { rewrite Hrecs, abs_node. exact Hloadable. }
  cbn [root] in Hloop, Hroot.
  exists R, h', f', t'. split; [|split; [exact Hh'|split; [exact Hroot|]]].
  - rewrite (bind_ok _ _ _ _ _ Hsave).
    rewrite (bind_ok _ _ _ _ _ (clear_parameters_run _ _ _ _ _ Hc)).
    rewrite load_parameters_protobuf with (records := R);
      [|exact Hext| unfold f'; cbn [files]; apply lookup_insert_eq].
    fold R in Hloop. rewrite (bind_ok _ _ _ _ _ Hloop). reflexivity.
  - rewrite Habs, Hrecs, abs_node. exact Hvload.
Qed.

(** ** Sorting the keys of an [.h5] file *)


Section ranked.
Context {X : Type} (rank : X -> nat) (leb : X -> X -> bool).

(** Strictly increasing ranks. *)
Fixpoint ranked (l : list X) : Prop :=
  match l with
  | [] => True
  | x :: l' => Forall (fun y => rank x < rank y) l' /\ ranked l'
  end.

Lemma insert_sorted_perm x l : Permutation (insert_sorted leb x l) (x :: l).
Proof.
  induction l as [|y l IH]; cbn; [reflexivity|].
  destruct (leb x y); [reflexivity|].
  rewrite IH. apply perm_swap.
Qed.

Lemma sorted_perm l : Permutation (sorted leb l) l.
Proof.
  induction l as [|x l IH]; cbn; [reflexivity|].
  rewrite insert_sorted_perm, IH. reflexivity.
Qed.

(** On the elements at hand the order is the order of the ranks. *)
Definition by_rank (l : list X) : Prop :=
  forall x y, In x l -> In y l -> rank x <> rank y ->
              leb x y = true <-> rank x < rank y.

Lemma insert_sorted_ranked all x l :
  by_rank all -> In x all -> incl l all ->
  Forall (fun y => rank y <> rank x) l ->
  ranked l -> ranked (insert_sorted leb x l).
Proof.
  intros Hby Hx. induction l as [|y l IH]; intros Hincl Hne Hr.
  - cbn. split; [constructor | exact I].
  - inversion Hne as [|? ? Hy Hne']; subst. destruct Hr as [Hyl Hr].
    assert (Hyin : In y all) by (apply Hincl; left; reflexivity).
    assert (Hincl' : incl l all) by (intros z Hz; apply Hincl; right; exact Hz).
    cbn. destruct (leb x y) eqn:E.
    + assert (Hlt : rank x < rank y) by (apply (Hby x y); auto).
      split; [|split; assumption].
      constructor; [exact Hlt|]. eapply List.Forall_impl; [|exact Hyl].
      cbn. intros z Hz. lia.
    + assert (Hlt : rank y < rank x).
      { destruct (Nat.lt_total (rank x) (rank y)) as [H|[H|H]]; [|congruence|exact H].
        apply (Hby x y) in H; auto. congruence. }
      split; [|apply IH; assumption].
      eapply Permutation_Forall; [symmetry; apply insert_sorted_perm|].
      constructor; assumption.
Qed.

Lemma sorted_ranked all l :
  by_rank all -> incl l all -> NoDup (map rank l) -> ranked (sorted leb l).
Proof.
  intros Hby. induction l as [|x l IH]; intros Hincl Hnd; [exact I|].
  cbn [map] in Hnd. apply NoDup_cons in Hnd as [Hnot Hnd]. cbn [sorted].
  assert (Hincl' : incl l all) by (intros z Hz; apply Hincl; right; exact Hz).
  apply (insert_sorted_ranked all); auto.
  - apply Hincl. left. reflexivity.
  - intros z Hz. apply Hincl'. apply (Permutation_in z (sorted_perm l) Hz).
  - eapply Permutation_Forall; [symmetry; apply sorted_perm|].
    apply List.Forall_forall. intros y Hy E. apply Hnot.
    rewrite <- E. apply list_elem_of_In, in_map, Hy.
Qed.

Lemma ranked_unique l1 l2 : ranked l1 -> ranked l2 -> Permutation l1 l2 -> l1 = l2.
Proof.
  revert l2. induction l1 as [|x1 l1 IH]; intros l2 H1 H2 Hp.
  - apply Permutation_nil in Hp. congruence.
  - destruct l2 as [|x2 l2]; [symmetry in Hp; apply Permutation_nil in Hp; congruence|].
    destruct H1 as [Hx1 H1]. destruct H2 as [Hx2 H2].
    assert (E : x1 = x2).
    { assert (I1 : In x1 (x2 :: l2)) by (apply (Permutation_in _ Hp); left; reflexivity).
      assert (I2 : In x2 (x1 :: l1))
        by (apply (Permutation_in _ (Permutation_sym Hp)); left; reflexivity).
      destruct I1 as [->|I1]; [reflexivity|]. destruct I2 as [->|I2]; [reflexivity|].
      pose proof (proj1 (List.Forall_forall _ _) Hx2 _ I1) as L1.
      pose proof (proj1 (List.Forall_forall _ _) Hx1 _ I2) as L2.
      cbn beta in L1, L2. lia. }
    subst x2. f_equal. apply IH; auto. eapply Permutation_cons_inv; eauto.
Qed.

Lemma ranked_NoDup l : ranked l -> NoDup (map rank l).
Proof.
  induction l as [|x l IH]; [constructor|]. intros [Hx Hr]. cbn. apply NoDup_cons.
  split; [|apply IH, Hr]. intros Hin. apply list_elem_of_In, in_map_iff in Hin as (y & E & Hy).
  pose proof (proj1 (List.Forall_forall _ _) Hx _ Hy) as L. cbn beta in L. lia.
Qed.

(** Sorting a rearrangement of a list in rank order gives that list. *)
Lemma sorted_of_permutation l k :
  by_rank k -> ranked k -> Permutation l k -> sorted leb l = k.
Proof.
  intros Hby Hr Hp. apply ranked_unique; [|exact Hr|].
  - apply (sorted_ranked k); [exact Hby| |].
    + intros z Hz. exact (Permutation_in z Hp Hz).
    + rewrite (Permutation_map rank Hp). apply ranked_NoDup, Hr.
  - rewrite sorted_perm. exact Hp.
Qed.
End ranked.

(** *** The round trip through the hierarchical format *)

(** The dataset [save_parameters] makes of the [i]-th parameter. *)
Definition dataset_of_parameter (i : nat) (p : ProtoParameter) : string * Dataset :=
  (variable_name p,
   mkDataset (shape_dim p) (parameter_data p) (Some (parameter_need_grad p)) (Some i)).

Definition dataset_of (h : list obj) (ikv : nat * (string * addr)) : string * Dataset :=
  dataset_of_parameter (fst ikv) (record_of h (snd ikv)).

Definition key_of (e : string * Dataset) : option nat * string := (ds_index (snd e), fst e).

Definition index_rank (k : option nat * string) : nat :=
  match fst k with
  | Some i => i
  | None => 0
  end.

Lemma save_h5_loop h c r path items :
  (forall ikv, In ikv items -> leaf_val h (snd (snd ikv)) <> None) ->
  NoDup (map (fun ikv => fst (snd ikv)) items) ->
  forall D f0,
    (forall ikv, In ikv items -> od_get (fst (snd ikv)) D = None) ->
    for_each items (save_h5_entry path) tt (mkState h c r (<[path := H5File D]> f0)) =
    (Ok tt, mkState h c r (<[path := H5File (D ++ map (dataset_of h) items)]> f0)).
Proof.
  induction items as [|[i [k a]] items IH]; intros Hv Hnd D f0 HD.
  - cbn. rewrite app_nil_r. reflexivity.
  - pose proof (Hv _ (or_introl eq_refl)) as Ha. cbn [snd] in Ha.
    pose proof (HD _ (or_introl eq_refl)) as Hk. cbn [fst snd] in Hk.
    cbn [map fst snd] in Hnd. apply NoDup_cons in Hnd as [Hnot Hnd].
    cbn [for_each map]. unfold dataset_of at 1, record_of. cbn [fst snd].
    unfold leaf_val in *.
    destruct (h !! a) as [[|v|]|] eqn:Ea; try congruence.
    destruct (h !! data v) as [[| |x]|] eqn:Ed; try congruence.
    unfold save_h5_entry at 1. cbn [fst snd].
    unfold bind at 1. unfold bind at 1.
    rewrite (get_d_run _ _ _ _ _ _ _ Ea Ed).
    unfold bind at 1. rewrite (get_Variable_run _ _ _ _ _ _ Ea).
    unfold h5_create, bind, open_file, write_file, set_files. cbn [files heap current_scope root_scope].
    rewrite lookup_insert_eq, Hk. cbn [files heap current_scope root_scope].
    rewrite insert_insert_eq.
    rewrite IH; [rewrite <- app_assoc; reflexivity| | exact Hnd |].
    + intros ikv Hin. apply Hv. right. exact Hin.
    + intros ikv Hin. apply od_get_app_None; [apply HD; right; exact Hin|].
      cbn. destruct (String.eqb (fst (snd ikv)) k) eqn:E; [|reflexivity].
      apply String.eqb_eq in E. exfalso. apply Hnot. rewrite <- E.
      apply list_elem_of_In, (in_map (fun ikv => fst (snd ikv))), Hin.
Qed.

Lemma enumerate_from_map {X Y} (f : X -> Y) (l : list X) i :
  combine (seq i (length (map f l))) (map f l) =
  map (fun ix => (fst ix, f (snd ix))) (combine (seq i (length l)) l).
Proof.
  revert i. induction l as [|x l IH]; intros i; [reflexivity|].
  cbn. f_equal. apply IH.
Qed.

Lemma enumerate_snd {X} (l : list X) i : map snd (combine (seq i (length l)) l) = l.
Proof.
  revert i. induction l as [|x l IH]; intros i; [reflexivity|]. cbn. f_equal. apply IH.
Qed.

Lemma enumerate_In {X} (l : list X) i ix :
  In ix (combine (seq i (length l)) l) -> In (snd ix) l.
Proof. intros H. rewrite <- (enumerate_snd l i). apply in_map, H. Qed.

(** The keys of the datasets a save wrote are in the order of their
    indices. *)
Lemma keys_ranked (R : list ProtoParameter) i :
  ranked index_rank
    (map key_of (map (fun ip => dataset_of_parameter (fst ip) (snd ip))
                     (combine (seq i (length R)) R))) /\
  Forall (fun k => i <= index_rank k /\ fst k <> None)
    (map key_of (map (fun ip => dataset_of_parameter (fst ip) (snd ip))
                     (combine (seq i (length R)) R))).
Proof.
  revert i. induction R as [|p R IH]; intros i; [split; [exact I | constructor]|].
  cbn [length seq combine map]. destruct (IH (S i)) as [Hr Hall].
  split; [split; [|exact Hr]|constructor].
  - eapply List.Forall_impl; [|exact Hall]. cbn. intros k [Hk _]. lia.
  - cbn. split; [lia | discriminate].
  - eapply List.Forall_impl; [|exact Hall]. cbn. intros k [Hk Hn]. split; [lia | exact Hn].
Qed.

Lemma key_leb_by_rank (K : list (option nat * string)) :
  Forall (fun k => fst k <> None) K -> by_rank index_rank key_leb K.
Proof.
  intros Hall x y Hx Hy Hne.
  pose proof (proj1 (List.Forall_forall _ _) Hall x Hx) as Sx.
  pose proof (proj1 (List.Forall_forall _ _) Hall y Hy) as Sy.
  destruct x as [[i|] nx], y as [[j|] ny]; cbn in *; try congruence.
  unfold key_leb, index_rank in *. cbn [fst snd index_compare] in *.
  destruct (Nat.compare_spec i j) as [E|E|E]; try congruence.
  - split; [intros _; exact E | reflexivity].
  - split; [discriminate | lia].
Qed.

(** [sorted(keys)] in [load_parameters] gives the names in the order of
    the save. *)
Lemma sorted_keys (R : list ProtoParameter) :
  let datasets := map (fun ip => dataset_of_parameter (fst ip) (snd ip)) (enumerate R) in
  map snd (sorted key_leb (map key_of (h5_visit datasets))) = map variable_name R.
Proof.
  intros datasets. destruct (keys_ranked R 0) as [Hr Hall]. fold (enumerate R) in Hr, Hall.
  fold datasets in Hr, Hall.
  rewrite (sorted_of_permutation index_rank key_leb _ (map key_of datasets)).
  - unfold datasets, enumerate. rewrite !map_map. cbn [key_of dataset_of_parameter fst snd].
    rewrite <- (map_map snd variable_name). rewrite enumerate_snd. reflexivity.
  - apply key_leb_by_rank. eapply List.Forall_impl; [|exact Hall]. cbn. tauto.
  - exact Hr.
  - apply Permutation_map. unfold h5_visit. apply sorted_perm.
Qed.

Lemma load_h5_entry_tree r f datasets h t sv i proto :
  tree_in h t -> record_ok sv -> insertable (fst sv) (abs h t) = true ->
  od_get (join (fst sv)) datasets = Some (snd (dataset_of_parameter i (to_parameter sv))) ->
  exists h',
    load_h5_entry datasets (join (fst sv)) proto (mkState h (root t) r f) =
      (Ok (proto ++ [to_parameter sv]), mkState h' (root t) r f) /\
    tree_in h' (tins (length h) (fst sv) t) /\
    abs h' (tins (length h) (fst sv) t) = vins (fst sv) (Some (snd sv)) (abs h t).
Proof.
  intros (Hh & Hnd & Hvalid) (Hne & Hgood & Hlen) Hins Hds.
  destruct sv as [segs [[sh gr] d]]. cbn [fst snd] in *.
  destruct (get_parameter_or_create_tree sh gr r f segs (good_names_no_slash _ Hgood)
              t h Hh Hnd Hins) as (h' & Hrun & Hinserted).
  pose proof Hinserted as (_ & _ & _ & _ & _ & _ & Harr & Hvar).
  pose proof (fill_tree h h' t segs sh gr gr d Hh Hvalid Hinserted) as Hfill.
  set (newdata := length h + created segs t) in *.
  assert (Hltd : newdata < length h') by (eapply lookup_lt_Some; eauto).
  assert (Hvar' : (<[newdata := OArray d]> h') !! S newdata =
                  Some (OVariable (mkVariable sh gr newdata))).
  { rewrite list_lookup_insert_ne by lia. exact Hvar. }
  rewrite (list_insert_id _ _ _ Hvar') in Hfill.
  exists (<[newdata := OArray d]> h'). split; [|split].
  - unfold load_h5_entry, h5_get. rewrite Hds.
    rewrite (bind_ok _ _ _ _ _ (eq_refl : ret _ _ = (Ok _, _))).
    cbn [dataset_of_parameter to_parameter snd fst ds_need_grad ds_shape ds_value
           shape_dim parameter_data parameter_need_grad variable_name unwrap].
    rewrite (bind_ok _ _ _ _ _ (eq_refl : ret _ _ = (Ok _, _))).
    unfold get_parameter_or_create.
    rewrite split_join by (assumption || apply good_names_no_slash; assumption).
    rewrite (bind_ok _ _ _ _ _ Hrun).
    erewrite (bind_ok _ _ _ _ _ (set_d_run _ _ _ _ _ _ _ Hvar Hlen)).
    cbn [data shape].
    rewrite (bind_ok _ _ _ _ _ (get_Variable_run _ _ _ _ _ _ Hvar')).
    erewrite (bind_ok _ _ _ _ _ (get_d_run _ _ _ _ _ _ _ Hvar' _)).
    reflexivity.
  - destruct Hfill as (H1 & H2 & H3 & _). repeat split; assumption.
  - apply Hfill.
  Unshelve.
  cbn [data]. apply list_lookup_insert_eq. exact Hltd.
Qed.

Lemma load_h5_loop r f datasets records :
  Forall record_ok records ->
  Forall (fun sv => exists i,
            od_get (join (fst sv)) datasets =
            Some (snd (dataset_of_parameter i (to_parameter sv)))) records ->
  forall t h proto,
    tree_in h t ->
    loadable (map with_Some records) (abs h t) ->
    exists h' t',
      for_each (map (fun sv => join (fst sv)) records) (load_h5_entry datasets) proto
        (mkState h (root t) r f) =
        (Ok (proto ++ map to_parameter records), mkState h' (root t) r f) /\
      tree_in h' t' /\ root t' = root t /\
      abs h' t' = vload (map with_Some records) (abs h t).
Proof.
  induction 1 as [|sv records Hsv _ IH]; intros Hds t h proto Ht Hl.
  - exists h, t. cbn. rewrite app_nil_r. repeat split; try apply Ht.
  - inversion Hds as [|? ? [i Hi] Hds']; subst.
    cbn [map loadable] in Hl. destruct Hl as [Hins Hl]. cbn [with_Some fst snd] in Hins, Hl.
    destruct (load_h5_entry_tree r f datasets h t sv i proto Ht Hsv Hins Hi)
      as (h1 & Hrun & Ht1 & Habs).
    rewrite <- Habs in Hl.
    destruct (IH Hds' _ h1 (proto ++ [to_parameter sv]) Ht1 Hl)
      as (h' & t' & Hloop & Ht' & Hroot & Habs').
    rewrite root_tins in Hloop, Hroot.
    exists h', t'. split; [|split; [exact Ht'|split; [exact Hroot|]]].
    + cbn [map for_each]. rewrite (bind_ok _ _ _ _ _ Hrun), Hloop.
      rewrite <- app_assoc. reflexivity.
    + rewrite Habs', Habs. reflexivity.
Qed.

Lemma enumerate_In_inv {X} (l : list X) x i :
  In x l -> exists j, In (j, x) (combine (seq i (length l)) l).
Proof.
  revert i. induction l as [|y l IH]; intros i Hin; [destruct Hin|].
  destruct Hin as [->|Hin].
  - exists i. left. reflexivity.
  - destruct (IH (S i) Hin) as (j & Hj). exists j. right. exact Hj.
Qed.

Lemma round_trip_h5 h r f t limit path :
  holds h t -> is_scope t = true -> depth t <= limit -> well_named t ->
  sound_leaves h t ->
  snd (splitext path) = dot_h5 ->
  exists proto h' f' t',
    (exec save_parameters limit path ;; exec clear_parameters ;; load_parameters path None)
      (mkState h (root t) r f) = (Ok proto, mkState h' (root t) r f') /\
    holds h' t' /\ root t' = root t /\ abs h' t' = prune (abs h t).
Proof.
  intros Hh Hs Hd Hn Hsound Hext.
  set (recs := records_of h t).
  set (R := map to_parameter recs).
  set (datasets := map (fun ip => dataset_of_parameter (fst ip) (snd ip)) (enumerate R)).
  set (f' := <[path := H5File datasets]> f).
  assert (Hc : exists d, h !! root t = Some (ODict d)).
  { destruct t as [a|a es]; [discriminate|]. apply holds_node in Hh. destruct Hh. eauto. }
  destruct Hc as (d & Hc).
  assert (Hget : forall f0, get_parameters limit false (mkState h (root t) r f0) =
                            (Ok (dfs EmptyString t), mkState h (root t) r f0))
    by (intros f0; eapply source_get_parameters; eassumption).
  assert (Hvalid : forall pa, In pa (dfs EmptyString t) -> leaf_val h (snd pa) <> None)
    by (eapply source_leaves_valid; eassumption).
  assert (Hsaved : map (record_of h) (dfs EmptyString t) = R)
    by (eapply source_saved; eassumption).
  assert (Hok : Forall record_ok recs) by (eapply source_records_ok; eassumption).
  assert (Hrecs : map with_Some recs = rel_dfs (abs h t))
    by (eapply source_records; eassumption).
  assert (Hdistinct : NoDup (map fst (dfs EmptyString t)))
    by (eapply source_paths_distinct; eassumption).
  assert (Hnames : map variable_name R = map fst (dfs EmptyString t)).
  { rewrite <- Hsaved, map_map. apply map_ext. intros [p a]. unfold record_of. cbn [fst snd].
    destruct (leaf_val h a) as [[[sh g] x]|]; reflexivity. }
  assert (Hpure : vload (rel_dfs (abs h t)) (VNode []) = prune (abs h t) /\
                  loadable (rel_dfs (abs h t)) (VNode [])).
  { pose proof (distinct_keys_abs h t Hh) as Hdk.
    destruct t as [a|a es]; [discriminate|]. rewrite abs_node in *.
    apply vload_rel_dfs. exact Hdk. }
  destruct Hpure as [Hvload Hloadable].
  assert (Hwritten : map (dataset_of h) (enumerate (dfs EmptyString t)) = datasets).
  { unfold datasets, enumerate. rewrite <- Hsaved, enumerate_from_map, map_map.
    reflexivity. }
  assert (Hsave : save_parameters limit path (mkState h (root t) r f) =
                  (Ok tt, mkState h (root t) r f')).
  { unfold save_parameters. rewrite Hext, String.eqb_refl.
    rewrite (bind_ok _ _ _ _ _ (Hget f)).
    rewrite (bind_ok _ _ _ _ _ (eq_refl : write_file _ _ _ = (Ok tt, _))).
    unfold set_files. cbn [heap current_scope root_scope files].
    rewrite (bind_ok _ _ _ _ _ (Hget _)).
    rewrite (save_h5_loop h (root t) r path (enumerate (dfs EmptyString t))).
    - cbn [app]. rewrite Hwritten. reflexivity.
    - intros ikv Hin. apply Hvalid. exact (enumerate_In _ _ _ Hin).
    - rewrite <- (map_map snd fst). unfold enumerate. rewrite enumerate_snd. exact Hdistinct.
    - reflexivity. }
  assert (Hfst : map fst datasets = map variable_name R).
  { unfold datasets, enumerate. rewrite map_map. cbn [dataset_of_parameter fst].
    rewrite <- (map_map snd variable_name), enumerate_snd. reflexivity. }
  assert (Hds : Forall (fun sv => exists i,
                          od_get (join (fst sv)) datasets =
                          Some (snd (dataset_of_parameter i (to_parameter sv)))) recs).
  { apply List.Forall_forall. intros sv Hsv.
    destruct (enumerate_In_inv R (to_parameter sv) 0) as (i & Hi).
    { unfold R. apply in_map, Hsv. }
    exists i. apply od_get_In.
    - rewrite Hfst, Hnames. exact Hdistinct.
    - unfold datasets. apply in_map_iff. exists (i, to_parameter sv). split; [reflexivity|].
      exact Hi. }
  destruct (load_h5_loop r f' datasets recs Hok Hds
              (TNode (root t) []) (<[root t := ODict []]> h) [])
    as (h' & t' & Hloop & (Hh' & _ & _) & Hroot & Habs).
  { eapply empty_scope_tree_in. exact Hc. }
  { rewrite Hrecs, abs_node. exact Hloadable. }
  cbn [root app] in Hloop, Hroot.
  exists R, h', f', t'. split; [|split; [exact Hh'|split; [exact Hroot|]]].
  - rewrite (bind_ok _ _ _ _ _ Hsave).
    rewrite (bind_ok _ _ _ _ _ (clear_parameters_run _ _ _ _ _ Hc)).
    unfold load_parameters. rewrite Hext, String.eqb_refl.
    unfold bind at 1. unfold open_file. cbn [files]. unfold f' at 1.
    rewrite lookup_insert_eq. fold f'.
    unfold datasets at 1. rewrite sorted_keys. fold R. unfold R at 1. rewrite map_map.
    exact Hloop.
  - rewrite Habs, Hrecs, abs_node. exact Hvload.
Qed.

(** ** C4: save, clear, load *)

(** C4, as amended: when the current scope holds a tree of scopes and
    parameters whose names are all non-empty and free of slashes, within
    the recursion limit, and every parameter has a data buffer of the size
    of its shape, then [save_parameters], [clear_parameters] and
    [load_parameters] on a [.h5] or [.protobuf] path return, and
    [get_parameters(grad_only=False)] afterwards gives the same paths in
    the same order with the same shapes, [need_grad] flags and data. *)
Theorem save_clear_load_round_trip (s : state) (t : tree) (limit : nat) (path : string) :
  holds (heap s) t -> is_scope t = true -> root t = current_scope s ->
  depth t <= limit -> well_named t -> sound_leaves (heap s) t ->
  snd (splitext path) = dot_h5 \/ snd (splitext path) = dot_protobuf ->
  exists before proto s' after,
    get_parameters limit false s = (Ok before, s) /\
    (exec save_parameters limit path ;; exec clear_parameters ;; load_parameters path None) s =
      (Ok proto, s') /\
    get_parameters limit false s' = (Ok after, s') /\
    values (heap s') after = values (heap s) before /\
    Forall (fun pv => snd pv <> None) (values (heap s) before) /\
    current_scope s' = current_scope s.
Proof.
  intros Hh Hs Hr Hd Hn Hsound Hext. destruct s as [h c r f].
  cbn [heap current_scope] in *. subst c.
  assert (Htrip : exists proto h' f' t',
    (exec save_parameters limit path ;; exec clear_parameters ;; load_parameters path None)
      (mkState h (root t) r f) = (Ok proto, mkState h' (root t) r f') /\
    holds h' t' /\ root t' = root t /\ abs h' t' = prune (abs h t)).
  { destruct Hext as [Hext|Hext];
      [apply round_trip_h5 | apply round_trip_protobuf]; assumption. }
  destruct Htrip as (proto & h' & f' & t' & Hrun & Hh' & Hroot & Habs).
  destruct (loaded_get_parameters h t h' t' limit r f' Hh Hs Hd Hn Hsound Hh' Habs)
    as [Hafter Hvalues].
  rewrite Hroot in Hafter.
  exists (dfs EmptyString t), proto, (mkState h' (root t) r f'), (dfs EmptyString t').
  cbn [heap current_scope].
  split; [eapply source_get_parameters; eassumption|].
  split; [exact Hrun|]. split; [exact Hafter|]. split; [exact Hvalues|].
  split; [|reflexivity].
  apply List.Forall_forall. intros pv Hin. unfold values in Hin.
  apply in_map_iff in Hin as (pa & <- & Hin). cbn [snd].
  eapply source_leaves_valid; eassumption.
Qed.

Lemma two_scopes_sound : sound_leaves two_scopes two_scopes_tree.
Proof. intros a [<-|[<-|[]]]; cbn; eauto. Qed.

Lemma two_scopes_well_named : well_named two_scopes_tree.
Proof. cbn. repeat split; discriminate. Qed.

Lemma save_clear_load_round_trip_witness :
  let s := mkState two_scopes 0 0 ∅ in
  exists before proto s' after,
    get_parameters 5 false s = (Ok before, s) /\
    (exec save_parameters 5 "params.h5" ;; exec clear_parameters ;;
     load_parameters "params.h5" None) s = (Ok proto, s') /\
    get_parameters 5 false s' = (Ok after, s') /\
    values (heap s') after = values (heap s) before /\
    Forall (fun pv => snd pv <> None) (values (heap s) before) /\
    current_scope s' = current_scope s.
Proof.
  apply (save_clear_load_round_trip (mkState two_scopes 0 0 ∅) two_scopes_tree 5 "params.h5").
  - exact two_scopes_holds.
  - reflexivity.
  - reflexivity.
  - cbn. lia.
  - exact two_scopes_well_named.
  - exact two_scopes_sound.
  - left. reflexivity.
Defined.

(** The state after [get_parameter_or_create("/a", (1,))] and
    [get_parameter_or_create("a/b", (1,))]: a scope with the empty name
    holds [a], and the scope [a] holds [b]. *)
Definition empty_name_state : state :=
  snd ((exec get_parameter_or_create "/a" [1] None true ;;
        get_parameter_or_create "a/b" [1] None true) initial_state).

(** C4, as stated, fails: with a scope of the empty name the parameters
    [a] and [a/b] are saved, and the load, after making [a] a parameter,
    cannot enter [a] as a scope. *)
Lemma round_trip_fails_with_empty_name :
  ~ (forall (s : state) (limit : nat) (path : string) before,
       snd (splitext path) = dot_protobuf ->
       get_parameters limit false s = (Ok before, s) ->
       exists proto s',
         (exec save_parameters limit path ;; exec clear_parameters ;;
          load_parameters path None) s = (Ok proto, s')).
Proof.
  intros H.
  destruct (H empty_name_state 10 "f.protobuf"%string _ eq_refl eq_refl) as (proto & s' & Hrun).
  vm_compute in Hrun. discriminate.
Qed.

(** * Further properties of the module *)

(** ** Paths and nested scopes *)

Lemma set_parameter_names_walk names a :
  set_parameter_names names a =
  walk names (fun k => do cur <- get_current_scope ;; dict_setitem cur k a).
Proof.
  induction names as [|n [|m rest] IH]; try reflexivity.
  change (set_parameter_names (n :: m :: rest) a)
    with (with_parameter_scope n (set_parameter_names (m :: rest) a)).
  rewrite IH. reflexivity.
Qed.

Lemma walk_snoc {A} (leaf : string -> M A) pre k :
  walk (pre ++ [k]) leaf = nested_scopes pre (leaf k).
Proof.
  induction pre as [|n [|m pre] IH]; try reflexivity.
  change (walk ((n :: m :: pre) ++ [k]) leaf)
    with (with_parameter_scope n (walk ((m :: pre) ++ [k]) leaf)).
  rewrite IH. reflexivity.
Qed.

(** X1: a call with the path [a/b/w] is the call with [w] inside
    [with parameter_scope('a'): with parameter_scope('b'):], for each of the
    three functions that take a path. *)
Theorem path_is_nested_scopes (pre : list string) (k : string) (a : addr) (sh : list nat)
    (init : option (list nat -> list float32)) (ng : bool) :
  Forall (fun n => no_slash n = true) pre -> no_slash k = true ->
  get_parameter (join (pre ++ [k])) = nested_scopes pre (get_parameter k) /\
  set_parameter (join (pre ++ [k])) a = nested_scopes pre (set_parameter k a) /\
  get_parameter_or_create (join (pre ++ [k])) sh init ng =
    nested_scopes pre (get_parameter_or_create k sh init ng).
Proof.
  intros Hpre Hk.
  assert (Hs : split (join (pre ++ [k])) = pre ++ [k]).
  { apply split_join; [destruct pre; discriminate|].
    apply Forall_app. split; [exact Hpre | constructor; [exact Hk | constructor]]. }
  unfold get_parameter, set_parameter, get_parameter_or_create.
  rewrite Hs, (split_single k Hk).
  rewrite get_parameter_names_walk, set_parameter_names_walk,
    get_parameter_or_create_names_walk, !walk_snoc.
  rewrite get_parameter_names_walk, set_parameter_names_walk,
    get_parameter_or_create_names_walk.
  repeat split.
Qed.

Lemma path_is_nested_scopes_witness :
  get_parameter "a/b/w" =
    with_parameter_scope "a" (with_parameter_scope "b" (get_parameter "w")) /\
  set_parameter "a/b/w" 7 =
    with_parameter_scope "a" (with_parameter_scope "b" (set_parameter "w" 7)) /\
  get_parameter_or_create "a/b/w" [3; 4] None true =
    with_parameter_scope "a"
      (with_parameter_scope "b" (get_parameter_or_create "w" [3; 4] None true)).
Proof.
  apply (path_is_nested_scopes ["a"; "b"]%string "w" 7 [3; 4] None true).
  - repeat constructor.
  - reflexivity.
Defined.

(** ** Lookups that hit, and lookups that fail *)

(** The descent stops at a name that is taken by something other than a
    scope: [parameter_scope] raises before its [yield], inside the scopes
    entered so far. *)
Lemma walk_blocked {A} (leaf : string -> M A) pre n rest h c r f x y :
  rest <> [] ->
  resolve_scope h c pre = Some x ->
  lookup_entry h x n = Some y -> is_dict h y = false ->
  walk (pre ++ n :: rest) leaf (mkState h c r f) =
  (Raise (AssertionError NotAScope), mkState h x r f).
Proof.
  intros Hrest. revert c. induction pre as [|m pre IH]; intros c Hres Hy Hd.
  - cbn in Hres. destruct (is_dict h c); inversion Hres; subst x.
    destruct rest as [|k rest]; [contradiction|].
    change (walk ([] ++ n :: k :: rest) leaf)
      with (with_parameter_scope n (walk (k :: rest) leaf)).
    apply lookup_entry_dict in Hy as (d & Hc & Hn).
    rewrite with_parameter_scope_eq, (enter_not_dict _ _ _ _ _ _ _ Hc Hn Hd). reflexivity.
  - cbn [resolve_scope] in Hres.
    destruct (lookup_entry h c m) as [z|] eqn:Hz; [|discriminate].
    destruct (is_dict h z) eqn:Hdz; [|discriminate].
    assert (E : walk ((m :: pre) ++ n :: rest) leaf =
                with_parameter_scope m (walk (pre ++ n :: rest) leaf)).
    { cbn [app]. destruct (pre ++ n :: rest) eqn:E; [destruct pre; discriminate|reflexivity]. }
    rewrite E.
    apply lookup_entry_dict in Hz as (d & Hc & Hm).
    rewrite with_parameter_scope_eq, (enter_present _ _ _ _ _ _ _ Hc Hm Hdz).
    rewrite (IH z Hres Hy Hd). reflexivity.
Qed.

(** X2: a path that goes through a name taken by a parameter cannot be
    used: [get_parameter], [set_parameter] and [get_parameter_or_create]
    raise the assertion of [parameter_scope], the store is as it was, and the
    current scope is left at the scope that holds that name. *)
Theorem path_through_parameter (h : list obj) (c r : addr) (f : gmap string file)
    (p : string) (pre : list string) (n : string) (rest : list string) (x y : addr)
    (a : addr) (sh : list nat) (init : option (list nat -> list float32)) (ng : bool) :
  split p = pre ++ n :: rest -> rest <> [] ->
  resolve_scope h c pre = Some x ->
  lookup_entry h x n = Some y -> is_dict h y = false ->
  let failed := mkState h x r f in
  get_parameter p (mkState h c r f) = (Raise (AssertionError NotAScope), failed) /\
  set_parameter p a (mkState h c r f) = (Raise (AssertionError NotAScope), failed) /\
  get_parameter_or_create p sh init ng (mkState h c r f) =
    (Raise (AssertionError NotAScope), failed).
Proof.
  intros Hp Hrest Hres Hy Hd failed.
  unfold get_parameter, set_parameter, get_parameter_or_create. rewrite Hp.
  rewrite get_parameter_names_walk, set_parameter_names_walk,
    get_parameter_or_create_names_walk.
  repeat split; eapply walk_blocked; eassumption.
Qed.

Lemma path_through_parameter_witness :
  let failed := mkState two_scopes 1 0 ∅ in
  get_parameter "a/w/x" (mkState two_scopes 0 0 ∅) =
    (Raise (AssertionError NotAScope), failed) /\
  set_parameter "a/w/x" 6 (mkState two_scopes 0 0 ∅) =
    (Raise (AssertionError NotAScope), failed) /\
  get_parameter_or_create "a/w/x" [1] None true (mkState two_scopes 0 0 ∅) =
    (Raise (AssertionError NotAScope), failed).
Proof.
  apply (path_through_parameter two_scopes 0 0 ∅ "a/w/x" ["a"%string] "w" ["x"%string] 1 3).
  - reflexivity.
  - discriminate.
  - reflexivity.
  - reflexivity.
  - reflexivity.
Defined.

Lemma get_parameter_hit (s : state) (p : string) (a : addr) (v : nn_Variable) :
  parameter_at s p a v -> get_parameter p s = (Ok (Some a), s).
Proof.
  destruct s as [h c r f]. intros [Hres Hv]. cbn [heap current_scope] in *.
  destruct (resolve_split _ _ _ _ Hres) as (x & Hx & Hl).
  apply lookup_entry_dict in Hl as (d & Hd & Hk).
  unfold get_parameter. rewrite get_parameter_names_walk.
  rewrite (walk_found_ok _ _ h c r f x (Some a) (mkState h x r f) Hx);
    [reflexivity | | reflexivity].
  eapply get_parameter_leaf_found; eauto.
Qed.

(** X3: looking up a parameter that exists returns it and changes
    nothing: no scope is created and the current scope is put back. *)
Theorem get_parameter_found (s : state) (p : string) (a : addr) (v : nn_Variable) :
  parameter_at s p a v -> get_parameter p s = (Ok (Some a), s).
Proof. apply get_parameter_hit. Qed.

Lemma get_parameter_found_witness :
  get_parameter "a/w" (mkState two_scopes 0 0 ∅) = (Ok (Some 3), mkState two_scopes 0 0 ∅).
Proof.
  apply (get_parameter_found (mkState two_scopes 0 0 ∅) "a/w" 3 (mkVariable [1] true 2)).
  split; reflexivity.
Defined.

(** X4: a path that names a scope is not a parameter: [get_parameter]
    raises its assertion, the store is as it was, and the current scope is
    left at the scope that holds the name. *)
Theorem get_parameter_of_scope (h : list obj) (c r : addr) (f : gmap string file)
    (p : string) (y : addr) :
  resolve h c (split p) = Some y -> is_dict h y = true ->
  exists x,
    resolve_scope h c (removelast (split p)) = Some x /\
    get_parameter p (mkState h c r f) =
    (Raise (AssertionError NotAVariable), mkState h x r f).
Proof.
  intros Hres Hy.
  destruct (resolve_split _ _ _ _ Hres) as (x & Hx & Hl).
  exists x. split; [exact Hx|].
  apply lookup_entry_dict in Hl as (d & Hd & Hk).
  unfold get_parameter. rewrite get_parameter_names_walk.
  eapply walk_found_raise; [exact Hx|].
  unfold get_parameter_leaf.
  unfold_prims. cbn. rewrite Hd. cbn. rewrite Hk. cbn.
  unfold is_dict in Hy. destruct (h !! y) as [[| |]|]; try discriminate. reflexivity.
Qed.

Lemma get_parameter_of_scope_witness :
  exists x,
    resolve_scope two_scopes 0 (removelast (split "a")) = Some x /\
    get_parameter "a" (mkState two_scopes 0 0 ∅) =
    (Raise (AssertionError NotAVariable), mkState two_scopes x 0 ∅).
Proof.
  apply (get_parameter_of_scope two_scopes 0 0 ∅ "a" 1); reflexivity.
Defined.

(** ** Scopes *)

(** X5: [parameter_scope(n)] makes the scope [n] once: when [n] is free a
    new empty scope is registered under it, and every later entry, as long
    as the entry stays, runs its body in that same scope and changes
    nothing. *)
Theorem parameter_scope_reentry (h : list obj) (c r : addr) (f : gmap string file)
    (d : list (string * addr)) (n : string) :
  h !! c = Some (ODict d) ->
  (forall y, od_get n d = Some y -> is_dict h y = true) ->
  exists x s1,
    with_parameter_scope n get_current_scope (mkState h c r f) = (Ok x, s1) /\
    current_scope s1 = c /\
    lookup_entry (heap s1) c n = Some x /\
    (forall y, od_get n d = Some y -> x = y /\ s1 = mkState h c r f) /\
    (od_get n d = None -> heap s1 !! x = Some (ODict [])) /\
    with_parameter_scope n get_current_scope s1 = (Ok x, s1).
Proof.
  intros Hc Hd.
  assert (Hlt : c < length h) by (eapply lookup_lt_Some; eauto).
  destruct (od_get n d) as [y|] eqn:Hn.
  - specialize (Hd y eq_refl).
    assert (Hrun : with_parameter_scope n get_current_scope (mkState h c r f) =
                   (Ok y, mkState h c r f)).
    { rewrite with_parameter_scope_eq, (enter_present _ _ _ _ _ _ _ Hc Hn Hd). reflexivity. }
    exists y, (mkState h c r f). cbn [heap current_scope].
    split; [exact Hrun|]. split; [reflexivity|].
    split; [unfold lookup_entry; rewrite Hc; exact Hn|].
    split; [intros y' [= <-]; split; reflexivity|].
    split; [discriminate | exact Hrun].
  - set (h1 := <[c := ODict (d ++ [(n, length h)])]> h ++ [ODict []]).
    assert (Hc1 : h1 !! c = Some (ODict (d ++ [(n, length h)]))).
    { unfold h1. rewrite lookup_app_l by (rewrite length_insert; lia).
      apply list_lookup_insert_eq. lia. }
    assert (Hx1 : h1 !! length h = Some (ODict [])).
    { unfold h1. rewrite lookup_app_r by (rewrite length_insert; lia).
      rewrite length_insert, Nat.sub_diag. reflexivity. }
    assert (Hn1 : od_get n (d ++ [(n, length h)]) = Some (length h)).
    { rewrite od_get_app, Hn. cbn. rewrite String.eqb_refl. reflexivity. }
    exists (length h), (mkState h1 c r f). cbn [heap current_scope].
    split; [rewrite with_parameter_scope_eq, (enter_absent _ _ _ _ _ _ Hc Hn); reflexivity|].
    split; [reflexivity|].
    split; [unfold lookup_entry; rewrite Hc1; exact Hn1|].
    split; [discriminate|].
    split; [intros _; exact Hx1|].
    rewrite with_parameter_scope_eq, (enter_present _ _ _ _ _ _ _ Hc1 Hn1); [reflexivity|].
    unfold is_dict. rewrite Hx1. reflexivity.
Qed.

Lemma parameter_scope_reentry_witness :
  exists x s1,
    with_parameter_scope "conv1" get_current_scope initial_state = (Ok x, s1) /\
    current_scope s1 = 0 /\
    lookup_entry (heap s1) 0 "conv1" = Some x /\
    (forall y, od_get "conv1" [] = Some y -> x = y /\ s1 = mkState [ODict []] 0 0 ∅) /\
    (od_get "conv1" ([] : list (string * addr)) = None -> heap s1 !! x = Some (ODict [])) /\
    with_parameter_scope "conv1" get_current_scope s1 = (Ok x, s1).
Proof.
  apply (parameter_scope_reentry [ODict []] 0 0 ∅ [] "conv1").
  - reflexivity.
  - discriminate.
Defined.

(** X6: after [clear_parameters] the current scope has no parameters:
    [get_parameters] returns the empty mapping, whatever [grad_only] is. *)
Theorem clear_then_get_parameters (h : list obj) (c r : addr) (f : gmap string file)
    (d : list (string * addr)) (limit : nat) (grad_only : bool) :
  h !! c = Some (ODict d) ->
  (exec clear_parameters ;; get_parameters (S limit) grad_only) (mkState h c r f) =
  (Ok [], mkState (<[c := ODict []]> h) c r f).
Proof.
  intros Hc.
  rewrite (bind_ok _ _ _ _ _ (clear_parameters_run h c r f d Hc)).
  assert (Hc' : <[c := ODict []]> h !! c = Some (ODict [])).
  { apply list_lookup_insert_eq. eapply lookup_lt_Some; eauto. }
  unfold get_parameters. cbn [get_parameters_rec].
  unfold_prims. cbn. rewrite Hc'. reflexivity.
Qed.

Lemma clear_then_get_parameters_witness :
  (exec clear_parameters ;; get_parameters 1 true) (mkState two_scopes 0 0 ∅) =
  (Ok [], mkState (<[0 := ODict []]> two_scopes) 0 0 ∅).
Proof.
  apply (clear_then_get_parameters two_scopes 0 0 ∅ [("a"%string, 1); ("b"%string, 4)] 0 true).
  reflexivity.
Defined.

(** ** The two globals *)

(** [m] never assigns [root_scope], and when it returns the current scope
    is the one it started in. *)
Definition keeps_scopes {A} (m : M A) : Prop :=
  forall s,
    root_scope (snd (m s)) = root_scope s /\
    forall a, fst (m s) = Ok a -> current_scope (snd (m s)) = current_scope s.

(** [m] assigns neither global, whatever it does to the store and the
    files. *)
Definition no_scope_assignment {A} (m : M A) : Prop :=
  forall s, root_scope (snd (m s)) = root_scope s /\
            current_scope (snd (m s)) = current_scope s.

Lemma no_assignment_keeps {A} (m : M A) : no_scope_assignment m -> keeps_scopes m.
Proof. intros H s. destruct (H s). split; auto. Qed.

Ltac no_assignment :=
  intros [? ? ? ?];
  unfold get_d, set_d, set_need_grad, unlinked, Variable_new, h5_get, unwrap, reshape,
    open_file, write_file;
  unfold_prims; cbn;
  repeat (match goal with
          | |- context [match ?l !! ?a with _ => _ end] => destruct (l !! a) as [[]|]; cbn
          | |- context [match od_get ?k ?d with _ => _ end] => destruct (od_get k d); cbn
          | |- context [if ?b then _ else _] => destruct b; cbn
          | |- context [match ?x with _ => _ end] =>
              lazymatch x with
              | context [match _ with _ => _ end] => fail
              | _ => destruct x; cbn
              end
          end);
  auto.

Lemma keeps_scopes_ret {A} (a : A) : keeps_scopes (ret a).
Proof. apply no_assignment_keeps. no_assignment. Qed.

Lemma keeps_scopes_raise {A} e : keeps_scopes (@raise A e).
Proof. apply no_assignment_keeps. no_assignment. Qed.

Lemma keeps_scopes_bind {A B} (m : M A) (k : A -> M B) :
  keeps_scopes m -> (forall a, keeps_scopes (k a)) -> keeps_scopes (bind m k).
Proof.
  intros Hm Hk s. unfold bind. destruct (Hm s) as [Hr Hc].
  destruct (m s) as [[a|e] s1]; cbn in *.
  - destruct (Hk a s1) as [Hr' Hc']. split; [congruence|].
    intros b Hb. rewrite (Hc' b Hb). apply (Hc a eq_refl).
  - split; [exact Hr | discriminate].
Qed.

Lemma keeps_scopes_for_each {A B} (l : list A) (body : A -> B -> M B) acc :
  (forall x b, keeps_scopes (body x b)) -> keeps_scopes (for_each l body acc).
Proof.
  intros Hb. revert acc. induction l as [|x l IH]; intros acc.
  - apply keeps_scopes_ret.
  - cbn. apply keeps_scopes_bind; auto.
Qed.

Lemma enter_root n s : root_scope (snd (parameter_scope_enter n s)) = root_scope s.
Proof.
  destruct s as [h c r f]. unfold_prims. cbn.
  destruct (h !! c) as [[d| |]|]; cbn; try reflexivity.
  destruct (od_get n d) as [x|]; cbn.
  - destruct (h !! x) as [[]|]; cbn; try reflexivity.
    destruct (h !! c) as [[]|]; reflexivity.
  - rewrite lookup_app_r by lia. rewrite Nat.sub_diag. cbn.
    destruct ((h ++ [ODict []]) !! c) as [[]|]; reflexivity.
Qed.

(** The body may leave the current scope anywhere: the generator puts the
    one of before the entry back. *)
Lemma keeps_scopes_with {A} n (body : M A) :
  (forall s, root_scope (snd (body s)) = root_scope s) ->
  keeps_scopes (with_parameter_scope n body).
Proof.
  intros Hb s. rewrite with_parameter_scope_eq.
  pose proof (enter_root n s) as Hr. pose proof (enter_prev n s) as Hp.
  destruct (parameter_scope_enter n s) as [[prev|e] s1]; cbn in *.
  - specialize (Hb s1). specialize (Hp prev s1 eq_refl). subst prev.
    destruct (body s1) as [[a|e] s2]; cbn in *; split; congruence.
  - split; [exact Hr | discriminate].
Qed.

Lemma keeps_scopes_with_body {A} n (body : M A) :
  keeps_scopes body -> keeps_scopes (with_parameter_scope n body).
Proof. intros Hb. apply keeps_scopes_with. intros s. apply Hb. Qed.

Ltac keeps :=
  repeat first
    [ match goal with
      | |- keeps_scopes (with_parameter_scope _ _) => apply keeps_scopes_with_body
      | |- keeps_scopes (for_each _ _ _) => apply keeps_scopes_for_each; intros ? ?
      | |- keeps_scopes (bind _ _) => apply keeps_scopes_bind; [|intros ?]
      | |- keeps_scopes (ret _) => apply keeps_scopes_ret
      | |- keeps_scopes (raise _) => apply keeps_scopes_raise
      end
    | match goal with
      | |- keeps_scopes (match ?x with _ => _ end) => destruct x
      | |- keeps_scopes (if ?x then _ else _) => destruct x
      | H : _ |- _ => apply H
      end
    | solve [apply no_assignment_keeps; no_assignment] ].

Lemma keeps_scopes_get_parameter_names names : keeps_scopes (get_parameter_names names).
Proof.
  induction names as [|n [|m rest] IH].
  - unfold get_parameter_names, get_parameter_leaf. keeps.
  - unfold get_parameter_names, get_parameter_leaf. keeps.
  - change (get_parameter_names (n :: m :: rest))
      with (with_parameter_scope n (get_parameter_names (m :: rest))).
    keeps.
Qed.

Lemma keeps_scopes_set_parameter_names names a : keeps_scopes (set_parameter_names names a).
Proof.
  induction names as [|n [|m rest] IH].
  - unfold set_parameter_names. keeps.
  - unfold set_parameter_names. keeps.
  - change (set_parameter_names (n :: m :: rest) a)
      with (with_parameter_scope n (set_parameter_names (m :: rest) a)).
    keeps.
Qed.

Lemma keeps_scopes_leaf name sh init ng :
  keeps_scopes (get_parameter_or_create_leaf name sh init ng).
Proof.
  pose proof keeps_scopes_get_parameter_names as Hg.
  pose proof keeps_scopes_set_parameter_names as Hs.
  unfold get_parameter_or_create_leaf, get_parameter, set_parameter. keeps.
Qed.

Lemma keeps_scopes_get_parameter_or_create_names names sh init ng :
  keeps_scopes (get_parameter_or_create_names names sh init ng).
Proof.
  pose proof keeps_scopes_leaf as Hl.
  induction names as [|n [|m rest] IH].
  - unfold get_parameter_or_create_names. keeps.
  - unfold get_parameter_or_create_names. keeps.
  - change (get_parameter_or_create_names (n :: m :: rest) sh init ng)
      with (with_parameter_scope n (get_parameter_or_create_names (m :: rest) sh init ng)).
    keeps.
Qed.

Lemma keeps_scopes_get_parameters_rec limit :
  forall params path grad_only, keeps_scopes (get_parameters_rec limit params path grad_only).
Proof.
  induction limit as [|limit IH]; intros params path grad_only.
  - keeps.
  - cbn [get_parameters_rec]. keeps.
Qed.

(** X7: no function of the module assigns [root_scope], and each of them,
    when it returns, leaves [current_scope] as it found it: the scopes a
    path or a traversal enters are left again. *)
Theorem module_keeps_scopes (key path : string) (param : addr) (sh : list nat)
    (init : option (list nat -> list float32)) (ng grad_only : bool) (limit : nat)
    (proto : option (list ProtoParameter)) :
  keeps_scopes (get_parameter key) /\
  keeps_scopes (set_parameter key param) /\
  keeps_scopes (get_parameter_or_create key sh init ng) /\
  keeps_scopes (get_parameters limit grad_only) /\
  keeps_scopes clear_parameters /\
  keeps_scopes (load_parameters path proto) /\
  keeps_scopes (save_parameters limit path).
Proof.
  pose proof keeps_scopes_get_parameter_or_create_names as Hc.
  pose proof keeps_scopes_get_parameters_rec as Hr.
  refine (conj _ (conj _ (conj _ (conj _ (conj _ (conj _ _)))))).
  - apply keeps_scopes_get_parameter_names.
  - apply keeps_scopes_set_parameter_names.
  - apply Hc.
  - apply Hr.
  - unfold clear_parameters. keeps.
  - unfold load_parameters, load_h5_entry, load_protobuf_record, get_parameter_or_create.
    cbv zeta. keeps.
  - unfold save_parameters, save_h5_entry, save_protobuf_record, h5_create, get_parameters.
    cbv zeta. keeps.
Qed.

(** ** Registering a Variable *)

Lemma scopes_on_path_fresh h x names :
  h !! x = Some (ODict []) -> names <> [] -> scopes_on_path h x names = [x].
Proof.
  intros Hx Hn. destruct names as [|n [|m rest]]; [contradiction|reflexivity|].
  cbn [scopes_on_path]. unfold lookup_entry. rewrite Hx. reflexivity.
Qed.

Lemma is_dict_insert h c d y :
  h !! c = Some (ODict d) -> forall d', is_dict h y = true -> is_dict (<[c := ODict d']> h) y = true.
Proof.
  intros Hc d' Hy. unfold is_dict in *.
  destruct (decide (y = c)) as [->|Hne].
  - rewrite list_lookup_insert_eq by (eapply lookup_lt_Some; eauto). reflexivity.
  - rewrite list_lookup_insert_ne by congruence. exact Hy.
Qed.

Lemma is_dict_app h tl y : is_dict h y = true -> is_dict (h ++ tl) y = true.
Proof.
  unfold is_dict. destruct (h !! y) as [o|] eqn:E; [|discriminate].
  rewrite (lookup_app_l_Some _ _ _ _ E). auto.
Qed.

(** [set_parameter] along a path whose scopes are distinct, followed by
    [get_parameter] of the same path. *)
Lemma set_then_get_names (a : addr) (v : nn_Variable) (r : addr) (f : gmap string file)
    (names : list string) :
  names <> [] ->
  forall h c d,
    h !! c = Some (ODict d) ->
    enterable h c (removelast names) = true ->
    NoDup (scopes_on_path h c names) ->
    h !! a = Some (OVariable v) ->
    exists h1,
      set_parameter_names names a (mkState h c r f) = (Ok tt, mkState h1 c r f) /\
      get_parameter_names names (mkState h1 c r f) = (Ok (Some a), mkState h1 c r f) /\
      length h <= length h1 /\
      (forall y, y < length h -> ~ In y (scopes_on_path h c names) -> h1 !! y = h !! y) /\
      (forall y, is_dict h y = true -> is_dict h1 y = true) /\
      h1 !! a = Some (OVariable v).
Proof.
  induction names as [|n [|m rest] IH]; intros Hne h c d Hc Hent Hnd Ha; [contradiction| |].
  - assert (Hlt : c < length h) by (eapply lookup_lt_Some; eauto).
    assert (Hac : a <> c) by congruence.
    exists (<[c := ODict (od_set n a d)]> h).
    assert (Ha1 : <[c := ODict (od_set n a d)]> h !! a = Some (OVariable v)).
    { rewrite list_lookup_insert_ne by congruence. exact Ha. }
    split; [|split; [|split; [|split; [|split]]]].
    + cbn [set_parameter_names]. unfold bind at 1. unfold get_current_scope.
      cbn [current_scope]. apply dict_setitem_run. exact Hc.
    + cbn [get_parameter_names].
      eapply get_parameter_leaf_found; [apply list_lookup_insert_eq; exact Hlt | | exact Ha1].
      rewrite od_get_set, String.eqb_refl. reflexivity.
    + rewrite length_insert. lia.
    + intros y _ Hy. cbn in Hy. rewrite list_lookup_insert_ne; [reflexivity|]. intuition.
    + intros y. apply (is_dict_insert _ _ _ _ Hc).
    + exact Ha1.
  - assert (Hlt : c < length h) by (eapply lookup_lt_Some; eauto).
    assert (Hac : a <> c) by congruence.
    change (set_parameter_names (n :: m :: rest) a)
      with (with_parameter_scope n (set_parameter_names (m :: rest) a)).
    change (get_parameter_names (n :: m :: rest))
      with (with_parameter_scope n (get_parameter_names (m :: rest))).
    change (removelast (n :: m :: rest)) with (n :: removelast (m :: rest)) in Hent.
    cbn [enterable] in Hent. rewrite Hc in Hent.
    cbn [scopes_on_path] in Hnd |- *. unfold lookup_entry in Hnd |- *. rewrite Hc in Hnd |- *.
    apply NoDup_cons in Hnd as [Hcn Hnd].
    destruct (od_get n d) as [x|] eqn:Hn.
    + apply andb_true_iff in Hent as [Hdx Hent]. rewrite Hdx in Hcn, Hnd |- *.
      assert (Hx : exists dx, h !! x = Some (ODict dx)).
      { unfold is_dict in Hdx. destruct (h !! x) as [[dx| |]|]; try discriminate. eauto. }
      destruct Hx as (dx & Hx).
      destruct (IH ltac:(discriminate) h x dx Hx Hent Hnd Ha)
        as (h1 & Hset & Hget & Hlen & Hframe & Hdict & Ha1).
      exists h1.
      assert (Hc1 : h1 !! c = Some (ODict d)).
      { rewrite Hframe; [exact Hc | exact Hlt|].
        intros Hin. apply Hcn. apply list_elem_of_In. exact Hin. }
      split; [|split; [|split; [|split; [|split]]]].
      * rewrite with_parameter_scope_eq, (enter_present _ _ _ _ _ _ _ Hc Hn Hdx), Hset.
        reflexivity.
      * rewrite with_parameter_scope_eq,
          (enter_present _ _ _ _ _ _ _ Hc1 Hn (Hdict x Hdx)), Hget.
        reflexivity.
      * exact Hlen.
      * intros y Hy Hin. apply Hframe; [exact Hy|]. intros Hin'. apply Hin. right. exact Hin'.
      * exact Hdict.
      * exact Ha1.
    + set (h0 := <[c := ODict (d ++ [(n, length h)])]> h ++ [ODict []]).
      assert (Hx0 : h0 !! length h = Some (ODict [])).
      { unfold h0. rewrite lookup_app_r by (rewrite length_insert; lia).
        rewrite length_insert, Nat.sub_diag. reflexivity. }
      assert (Hc0 : h0 !! c = Some (ODict (d ++ [(n, length h)]))).
      { unfold h0. rewrite lookup_app_l by (rewrite length_insert; lia).
        apply list_lookup_insert_eq. exact Hlt. }
      assert (Ha0 : h0 !! a = Some (OVariable v)).
      { unfold h0. apply lookup_app_l_Some. rewrite list_lookup_insert_ne by congruence.
        exact Ha. }
      assert (Hlen0 : length h0 = S (length h)).
      { unfold h0. rewrite length_app, length_insert. cbn. lia. }
      destruct (IH ltac:(discriminate) h0 (length h) [] Hx0
                  (enterable_fresh _ _ _ Hx0)) as (h1 & Hset & Hget & Hlen & Hframe & Hdict & Ha1).
      { rewrite (scopes_on_path_fresh _ _ _ Hx0) by discriminate.
        apply NoDup_singleton. }
      { exact Ha0. }
      rewrite (scopes_on_path_fresh _ _ _ Hx0) in Hframe by discriminate.
      assert (Hc1 : h1 !! c = Some (ODict (d ++ [(n, length h)]))).
      { rewrite Hframe; [exact Hc0 | lia|]. cbn. intros [E|[]]. lia. }
      assert (Hn1 : od_get n (d ++ [(n, length h)]) = Some (length h)).
      { rewrite od_get_app, Hn. cbn. rewrite String.eqb_refl. reflexivity. }
      exists h1.
      split; [|split; [|split; [|split; [|split]]]].
      * rewrite with_parameter_scope_eq, (enter_absent _ _ _ _ _ _ Hc Hn).
        fold h0. rewrite Hset. reflexivity.
      * rewrite with_parameter_scope_eq, (enter_present _ _ _ _ _ _ _ Hc1 Hn1), Hget;
          [reflexivity|].
        apply Hdict. unfold is_dict. rewrite Hx0. reflexivity.
      * lia.
      * intros y Hy Hin. rewrite Hframe; [|lia|cbn; intros [E|[]]; lia].
        unfold h0. rewrite lookup_app_l by (rewrite length_insert; lia).
        apply list_lookup_insert_ne. intros ->. apply Hin. left. reflexivity.
      * intros y Hy. apply Hdict. unfold h0. apply is_dict_app.
        apply (is_dict_insert _ _ _ _ Hc). exact Hy.
      * exact Ha1.
Qed.

(** X8: what [set_parameter] registers, [get_parameter] returns: for a
    Variable and a path whose segments before the last are free or name
    scopes, none of them nested in itself, [set_parameter] returns, whatever
    the last segment named before, and [get_parameter] of the same path then
    returns that Variable and changes nothing. *)
Theorem set_parameter_then_get_parameter (h : list obj) (c r : addr) (f : gmap string file)
    (d : list (string * addr)) (key : string) (a : addr) (v : nn_Variable) :
  h !! c = Some (ODict d) ->
  enterable h c (removelast (split key)) = true ->
  NoDup (scopes_on_path h c (split key)) ->
  h !! a = Some (OVariable v) ->
  exists s1,
    set_parameter key a (mkState h c r f) = (Ok tt, s1) /\
    get_parameter key s1 = (Ok (Some a), s1) /\
    current_scope s1 = c /\
    heap s1 !! a = Some (OVariable v).
Proof.
  intros Hc Hent Hnd Ha.
  destruct (set_then_get_names a v r f (split key) (split_nonempty key) h c d Hc Hent Hnd Ha)
    as (h1 & Hset & Hget & _ & _ & _ & Ha1).
  exists (mkState h1 c r f). auto.
Qed.

Lemma set_parameter_then_get_parameter_witness :
  exists s1,
    set_parameter "a/c/u" 6 (mkState two_scopes 0 0 ∅) = (Ok tt, s1) /\
    get_parameter "a/c/u" s1 = (Ok (Some 6), s1) /\
    current_scope s1 = 0 /\
    heap s1 !! 6 = Some (OVariable (mkVariable [1] false 5)).
Proof.
  apply (set_parameter_then_get_parameter two_scopes 0 0 ∅ [("a"%string, 1); ("b"%string, 4)]
           "a/c/u" 6 (mkVariable [1] false 5)).
  - reflexivity.
  - reflexivity.
  - apply (bool_decide_unpack _). vm_compute. exact I.
  - reflexivity.
Defined.

(** ** Creating a parameter *)

Lemma extends_resolve_scope h h' pre :
  extends h h' -> forall c x, resolve_scope h c pre = Some x -> resolve_scope h' c pre = Some x.
Proof.
  intros E. induction pre as [|n pre IH]; intros c x; cbn.
  - destruct (is_dict h c) eqn:Hd; [|discriminate].
    rewrite (extends_is_dict _ _ _ E Hd). auto.
  - destruct (lookup_entry h c n) as [y|] eqn:Hy; [|discriminate].
    destruct (is_dict h y) eqn:Hd; [|discriminate].
    rewrite (extends_lookup_entry _ _ _ _ _ E Hy), (extends_is_dict _ _ _ E Hd). apply IH.
Qed.

Lemma resolve_join h names : 
  names <> [] ->
  forall c x a,
    resolve_scope h c (removelast names) = Some x ->
    lookup_entry h x (List.last names EmptyString) = Some a ->
    resolve h c names = Some a.
Proof.
  induction names as [|n [|m rest] IH]; intros Hne c x a Hx Hl; [contradiction| |].
  - cbn in *. destruct (is_dict h c); inversion Hx; subst. exact Hl.
  - change (removelast (n :: m :: rest)) with (n :: removelast (m :: rest)) in Hx.
    change (List.last (n :: m :: rest) EmptyString) with (List.last (m :: rest) EmptyString) in Hl.
    cbn [resolve resolve_scope] in *.
    destruct (lookup_entry h c n) as [y|]; [|discriminate].
    destruct (is_dict h y); [|discriminate].
    apply (IH ltac:(discriminate) y x a Hx Hl).
Qed.

(** [get_parameter_or_create] of a name that is free in its scope, the
    scopes before it being there. *)
Lemma create_in_scope h c r f p sh init ng x d :
  resolve_scope h c (removelast (split p)) = Some x ->
  h !! x = Some (ODict d) ->
  od_get (List.last (split p) EmptyString) d = None ->
  length (initial_data sh init) = size_of sh ->
  let a := S (length h) in
  let v := mkVariable sh ng (length h) in
  let h1 := <[x := ODict (d ++ [(List.last (split p) EmptyString, a)])]> h
            ++ [OArray (initial_data sh init); OVariable v] in
  get_parameter_or_create p sh init ng (mkState h c r f) = (Ok a, mkState h1 c r f) /\
  parameter_at (mkState h1 c r f) p a v /\
  h1 !! length h = Some (OArray (initial_data sh init)).
Proof.
  intros Hx Hd Hk Hlen a v h1.
  assert (Hlt : x < length h) by (eapply lookup_lt_Some; eauto).
  assert (Hv : h1 !! a = Some (OVariable v)).
  { unfold h1, a. rewrite lookup_app_r by (rewrite length_insert; lia).
    rewrite length_insert. replace (S (length h) - length h) with 1 by lia. reflexivity. }
  assert (Hdat : h1 !! length h = Some (OArray (initial_data sh init))).
  { unfold h1. rewrite lookup_app_r by (rewrite length_insert; lia).
    rewrite length_insert, Nat.sub_diag. reflexivity. }
  split; [|split; [split|]]; [| |exact Hv|exact Hdat].
  - unfold get_parameter_or_create. rewrite get_parameter_or_create_names_walk.
    rewrite (walk_found_ok _ _ h c r f x a (mkState h1 x r f) Hx); [reflexivity| |reflexivity].
    apply leaf_create; auto. apply last_split_no_slash.
  - cbn [heap current_scope].
    apply (resolve_join h1 (split p) (split_nonempty p) c x a).
    + eapply extends_resolve_scope; [|exact Hx]. apply extends_add_entry; assumption.
    + unfold lookup_entry, h1. rewrite lookup_app_l by (rewrite length_insert; lia).
      rewrite list_lookup_insert_eq by lia.
      rewrite od_get_app, Hk. cbn. rewrite String.eqb_refl. reflexivity.
Qed.

(** X9: a parameter is initialised when it is created and never again:
    for a name that is free in its scope, [get_parameter_or_create] returns
    a new Variable of the requested shape and [need_grad], registered at the
    path, whose data is what the initializer gives for the shape (zeros
    without an initializer); a later call with the same path, shape and
    [need_grad] returns it and changes nothing, whatever initializer it is
    given. *)
Theorem initialised_on_creation (h : list obj) (c r : addr) (f : gmap string file)
    (p : string) (sh : list nat) (init init2 : option (list nat -> list float32)) (ng : bool)
    (x : addr) (d : list (string * addr)) :
  resolve_scope h c (removelast (split p)) = Some x ->
  h !! x = Some (ODict d) ->
  od_get (List.last (split p) EmptyString) d = None ->
  length (initial_data sh init) = size_of sh ->
  exists a v s1,
    get_parameter_or_create p sh init ng (mkState h c r f) = (Ok a, s1) /\
    h !! a = None /\
    parameter_at s1 p a v /\ shape v = sh /\ need_grad v = ng /\
    get_d a s1 = (Ok (initial_data sh init), s1) /\
    get_parameter_or_create p sh init2 ng s1 = (Ok a, s1).
Proof.
  intros Hx Hd Hk Hlen.
  destruct (create_in_scope h c r f p sh init ng x d Hx Hd Hk Hlen) as (Hrun & Hat & Hdat).
  eexists _, _, _. split; [exact Hrun|].
  split; [apply lookup_ge_None_2; lia|].
  split; [exact Hat|]. split; [reflexivity|]. split; [reflexivity|].
  split.
  - eapply get_d_run; [apply Hat | exact Hdat].
  - eapply found_same; [exact Hat | reflexivity | reflexivity].
Qed.

Lemma initialised_on_creation_witness :
  exists a v s1,
    get_parameter_or_create "a/u" [2] (Some (fun sh => repeat 7%Z (size_of sh))) true
      (mkState two_scopes 0 0 ∅) = (Ok a, s1) /\
    two_scopes !! a = None /\
    parameter_at s1 "a/u" a v /\ shape v = [2] /\ need_grad v = true /\
    get_d a s1 = (Ok [7%Z; 7%Z], s1) /\
    get_parameter_or_create "a/u" [2] None true s1 = (Ok a, s1).
Proof.
  apply (initialised_on_creation two_scopes 0 0 ∅ "a/u" [2]
           (Some (fun sh => repeat 7%Z (size_of sh))) None true 1 [("w"%string, 3)]).
  - reflexivity.
  - reflexivity.
  - reflexivity.
  - reflexivity.
Defined.

(** ** A record that cannot be loaded *)

(** X10: [load_parameters] is not all or nothing.  When the first record of
    a [.protobuf] file has a number of values other than the product of its
    shape, the load raises [ValueError] out of [numpy.reshape], and the
    parameter of that record, which [get_parameter_or_create] has made just
    before, stays registered, filled with zeros. *)
Theorem load_stops_at_bad_record (h : list obj) (c r : addr) (f : gmap string file)
    (path : string) (bad : ProtoParameter) (rest : list ProtoParameter)
    (x : addr) (d : list (string * addr)) :
  snd (splitext path) = dot_protobuf ->
  f !! path = Some (ProtoFile (bad :: rest)) ->
  resolve_scope h c (removelast (split (variable_name bad))) = Some x ->
  h !! x = Some (ODict d) ->
  od_get (List.last (split (variable_name bad)) EmptyString) d = None ->
  length (parameter_data bad) <> size_of (shape_dim bad) ->
  exists a v s1,
    load_parameters path None (mkState h c r f) = (Raise ValueError, s1) /\
    h !! a = None /\
    parameter_at s1 (variable_name bad) a v /\
    shape v = shape_dim bad /\
    get_d a s1 = (Ok (repeat 0%Z (size_of (shape_dim bad))), s1) /\
    current_scope s1 = c /\ files s1 = f.
Proof.
  intros Hext Hf Hx Hd Hk Hlen.
  destruct (create_in_scope h c r f (variable_name bad) (shape_dim bad) None true x d
              Hx Hd Hk (repeat_length _ _)) as (Hrun & Hat & Hdat).
  exists (S (length h)). eexists _, _. split; [|split; [apply lookup_ge_None_2; lia|]].
  - rewrite (load_parameters_protobuf path (bad :: rest) (mkState h c r f) Hext Hf).
    cbn [for_each]. unfold load_protobuf_record at 1.
    erewrite bind_raise; [reflexivity|].
    erewrite bind_raise; [reflexivity|].
    rewrite (bind_ok _ _ _ _ _ Hrun).
    erewrite bind_raise; [reflexivity|].
    unfold reshape. apply Nat.eqb_neq in Hlen. rewrite Hlen. reflexivity.
  - split; [exact Hat|]. split; [reflexivity|].
    split; [|split; reflexivity].
    eapply get_d_run; [apply Hat | exact Hdat].
Qed.

Lemma load_stops_at_bad_record_witness :
  let f : gmap string file :=
    {[ "f.protobuf"%string := ProtoFile [mkParameter "u" [2] [5%Z] true] ]} in
  exists a v s1,
    load_parameters "f.protobuf" None (mkState two_scopes 0 0 f) = (Raise ValueError, s1) /\
    two_scopes !! a = None /\
    parameter_at s1 "u" a v /\
    shape v = [2] /\
    get_d a s1 = (Ok (repeat 0%Z (size_of [2])), s1) /\
    current_scope s1 = 0 /\ files s1 = f.
Proof.
  intros f.
  apply (load_stops_at_bad_record two_scopes 0 0 f "f.protobuf" (mkParameter "u" [2] [5%Z] true)
           [] 0 [("a"%string, 1); ("b"%string, 4)]).
  - reflexivity.
  - reflexivity.
  - reflexivity.
  - reflexivity.
  - reflexivity.
  - cbn. lia.
Defined.

(** ** What [save_parameters] writes *)

Lemma sound_record h t pa :
  sound_leaves h t -> In (snd pa) (leaf_addrs t) ->
  exists v x,
    h !! snd pa = Some (OVariable v) /\ h !! data v = Some (OArray x) /\
    leaf_val h (snd pa) = Some (shape v, need_grad v, x) /\
    record_of h pa = mkParameter (fst pa) (shape v) x (need_grad v).
Proof.
  intros Hsound Hin. destruct (Hsound _ Hin) as (v & x & Hv & Hx & _).
  exists v, x. unfold record_of, leaf_val. rewrite Hv, Hx. auto.
Qed.

(** X11: [save_parameters] to a [.protobuf] path writes, in the order of
    [get_parameters(grad_only=False)], one record for every entry of that
    mapping, with its path, the shape, the data and the [need_grad] of its
    Variable; it writes that file only and leaves the store and both scopes
    as they were. *)
Theorem save_protobuf_writes (s : state) (t : tree) (limit : nat) (path : string) :
  holds (heap s) t -> is_scope t = true -> root t = current_scope s ->
  depth t <= limit -> sound_leaves (heap s) t ->
  snd (splitext path) = dot_protobuf ->
  exists params,
    get_parameters limit false s = (Ok params, s) /\
    save_parameters limit path s =
      (Ok tt, set_files (<[path := ProtoFile (map (record_of (heap s)) params)]> (files s)) s) /\
    Forall (fun pa => exists v x,
              heap s !! snd pa = Some (OVariable v) /\
              heap s !! data v = Some (OArray x) /\
              record_of (heap s) pa = mkParameter (fst pa) (shape v) x (need_grad v))
           params.
Proof.
  intros Hh Hs Hr Hd Hsound Hext.
  pose proof (get_parameters_tree s t limit false Hh Hs Hr Hd) as Hget.
  set (params := od_update [] (List.filter (kept (heap s) false) (dfs EmptyString t))) in *.
  assert (Hleaf : forall pa, In pa params -> In (snd pa) (leaf_addrs t)).
  { intros [p a] Hin. apply od_update_In in Hin as [[]|Hin].
    apply filter_In in Hin as [Hin _]. apply (dfs_leaves _ _ _ Hin). }
  exists params. split; [exact Hget|]. split.
  - unfold save_parameters. rewrite Hext.
    replace (String.eqb dot_protobuf dot_h5) with false by reflexivity.
    rewrite String.eqb_refl.
    rewrite (bind_ok _ _ _ _ _ Hget). destruct s as [h c r f]. cbn [heap files] in *.
    rewrite (bind_ok _ _ _ _ _ (save_protobuf_loop h c r f params
               (fun pa Hin => ltac:(destruct (sound_record h t pa Hsound (Hleaf pa Hin))
                                      as (v & x & _ & _ & E & _); congruence)) [])).
    reflexivity.
  - apply List.Forall_forall. intros pa Hin.
    destruct (sound_record (heap s) t pa Hsound (Hleaf pa Hin)) as (v & x & Hv & Hx & _ & E).
    eauto.
Qed.

Lemma save_protobuf_writes_witness :
  let s := mkState two_scopes 0 0 ∅ in
  exists params,
    get_parameters 5 false s = (Ok params, s) /\
    save_parameters 5 "params.protobuf" s =
      (Ok tt, set_files (<["params.protobuf"%string :=
                           ProtoFile (map (record_of (heap s)) params)]> (files s)) s) /\
    Forall (fun pa => exists v x,
              heap s !! snd pa = Some (OVariable v) /\
              heap s !! data v = Some (OArray x) /\
              record_of (heap s) pa = mkParameter (fst pa) (shape v) x (need_grad v))
           params.
Proof.
  apply (save_protobuf_writes (mkState two_scopes 0 0 ∅) two_scopes_tree 5 "params.protobuf").
  - exact two_scopes_holds.
  - reflexivity.
  - reflexivity.
  - cbn. lia.
  - exact two_scopes_sound.
  - reflexivity.
Defined.

(** X12: [save_parameters] to an [.h5] path, when every name is non-empty
    and free of ['/'], makes the file anew and writes, for the entry at
    position [i] of [get_parameters(grad_only=False)], a dataset named by
    its path with the shape and the data of its Variable and the attributes
    [need_grad] and [index = i]; it writes that file only and leaves the
    store and both scopes as they were. *)
Theorem save_h5_writes (s : state) (t : tree) (limit : nat) (path : string) :
  holds (heap s) t -> is_scope t = true -> root t = current_scope s ->
  depth t <= limit -> well_named t -> sound_leaves (heap s) t ->
  snd (splitext path) = dot_h5 ->
  exists params,
    get_parameters limit false s = (Ok params, s) /\
    save_parameters limit path s =
      (Ok tt, set_files (<[path := H5File (map (dataset_of (heap s)) (enumerate params))]>
                           (files s)) s) /\
    Forall (fun ikv => exists v x,
              heap s !! snd (snd ikv) = Some (OVariable v) /\
              heap s !! data v = Some (OArray x) /\
              dataset_of (heap s) ikv =
              (fst (snd ikv), mkDataset (shape v) x (Some (need_grad v)) (Some (fst ikv))))
           (enumerate params).
Proof.
  intros Hh Hs Hr Hd Hn Hsound Hext. destruct s as [h c r f]. cbn [heap current_scope files] in *.
  subst c.
  assert (Hget : forall f0, get_parameters limit false (mkState h (root t) r f0) =
                            (Ok (dfs EmptyString t), mkState h (root t) r f0))
    by (intros f0; eapply source_get_parameters; eassumption).
  assert (Hvalid : forall pa, In pa (dfs EmptyString t) -> leaf_val h (snd pa) <> None)
    by (eapply source_leaves_valid; eassumption).
  assert (Hdistinct : NoDup (map fst (dfs EmptyString t)))
    by (eapply source_paths_distinct; eassumption).
  exists (dfs EmptyString t). split; [apply Hget|]. split.
  - unfold save_parameters. rewrite Hext, String.eqb_refl.
    rewrite (bind_ok _ _ _ _ _ (Hget f)).
    rewrite (bind_ok _ _ _ _ _ (eq_refl : write_file _ _ _ = (Ok tt, _))).
    unfold set_files. cbn [heap current_scope root_scope files].
    rewrite (bind_ok _ _ _ _ _ (Hget _)).
    rewrite (save_h5_loop h (root t) r path (enumerate (dfs EmptyString t))).
    + reflexivity.
    + intros ikv Hin. apply Hvalid. exact (enumerate_In _ _ _ Hin).
    + rewrite <- (map_map snd fst). unfold enumerate. rewrite enumerate_snd. exact Hdistinct.
    + reflexivity.
  - apply List.Forall_forall. intros [i pa] Hin.
    assert (Hpa : In pa (dfs EmptyString t)) by exact (enumerate_In _ _ _ Hin).
    destruct (sound_record h t pa Hsound (dfs_leaves _ _ _ Hpa)) as (v & x & Hv & Hx & _ & E).
    exists v, x. cbn [fst snd]. split; [exact Hv|]. split; [exact Hx|].
    unfold dataset_of, dataset_of_parameter. cbn [fst snd]. rewrite E. reflexivity.
Qed.

Lemma save_h5_writes_witness :
  let s := mkState two_scopes 0 0 ∅ in
  exists params,
    get_parameters 5 false s = (Ok params, s) /\
    save_parameters 5 "params.h5" s =
      (Ok tt, set_files (<["params.h5"%string :=
                           H5File (map (dataset_of (heap s)) (enumerate params))]>
                           (files s)) s) /\
    Forall (fun ikv => exists v x,
              heap s !! snd (snd ikv) = Some (OVariable v) /\
              heap s !! data v = Some (OArray x) /\
              dataset_of (heap s) ikv =
              (fst (snd ikv), mkDataset (shape v) x (Some (need_grad v)) (Some (fst ikv))))
           (enumerate params).
Proof.
  apply (save_h5_writes (mkState two_scopes 0 0 ∅) two_scopes_tree 5 "params.h5").
  - exact two_scopes_holds.
  - reflexivity.
  - reflexivity.
  - cbn. lia.
  - exact two_scopes_well_named.
  - exact two_scopes_sound.
  - reflexivity.
Defined.

(** ** The paths [get_parameters] returns *)

Lemma resolve_cons h c n rest :
  rest <> [] ->
  resolve h c (n :: rest) =
  match lookup_entry h c n with
  | Some x => if is_dict h x then resolve h x rest else None
  | None => None
  end.
Proof. destruct rest; [contradiction|reflexivity]. Qed.

(** A path of the traversal leads, segment by segment, to its Variable. *)
Lemma dfs_resolve h t :
  holds h t -> names_ok (abs h t) -> is_scope t = true ->
  forall pre p a,
    Forall good_name pre -> In (p, a) (dfs (join pre) t) ->
    exists segs,
      segs <> [] /\ Forall good_name segs /\ p = join (pre ++ segs) /\
      resolve h (root t) segs = Some a.
Proof.
  induction t as [b|x es IH] using tree_ind'; intros Hh Hn Hs pre p a Hpre Hin;
    [discriminate|].
  apply holds_node in Hh as (Hx & Hnd & Hch).
  rewrite abs_node in Hn. apply names_ok_node in Hn.
  rewrite dfs_node in Hin. unfold dfs_entries in Hin.
  apply in_flat_map in Hin as ([k child] & Hkt & Hin). cbn [fst snd] in Hin.
  rewrite List.Forall_forall in IH, Hch, Hn.
  specialize (IH _ Hkt). specialize (Hch _ Hkt). cbn [snd] in IH, Hch.
  assert (Hgood : good_name k /\ names_ok (abs h child)).
  { apply (Hn (k, abs h child)).
    apply in_map_iff. exists (k, child). split; [reflexivity | exact Hkt]. }
  destruct Hgood as [Hk Hnc].
  assert (Hl : lookup_entry h x k = Some (root child)).
  { unfold lookup_entry. rewrite Hx. apply od_get_entry; assumption. }
  rewrite (child_path_join pre k Hpre) in Hin.
  destruct child as [b|y es'].
  - cbn in Hin. destruct Hin as [[= <- <-]|[]].
    exists [k]. split; [discriminate|]. split; [constructor; [exact Hk|constructor]|].
    split; [reflexivity | exact Hl].
  - destruct (IH Hch Hnc eq_refl (pre ++ [k]) p a) as (segs & Hne & Hsegs & Hp & Hres).
    { apply Forall_app. split; [exact Hpre | constructor; [exact Hk|constructor]]. }
    { exact Hin. }
    exists (k :: segs). split; [discriminate|]. split; [constructor; assumption|].
    split; [rewrite Hp, <- app_assoc; reflexivity|].
    pose proof (is_dict_holds h (TNode y es') Hch) as Hdy.
    cbn [root is_scope] in *. rewrite (resolve_cons _ _ _ _ Hne), Hl, Hdy. exact Hres.
Qed.

(** X13: when every name is non-empty and free of ['/'], each path of the
    mapping [get_parameters] returns is a key for [get_parameter]: the
    lookup returns the Variable the mapping has at that path and changes
    nothing. *)
Theorem get_parameters_paths_resolve (s : state) (t : tree) (limit : nat)
    (grad_only : bool) :
  holds (heap s) t -> is_scope t = true -> root t = current_scope s ->
  depth t <= limit -> well_named t ->
  exists params,
    get_parameters limit grad_only s = (Ok params, s) /\
    Forall (fun pa => get_parameter (fst pa) s = (Ok (Some (snd pa)), s)) params.
Proof.
  intros Hh Hs Hr Hd Hn.
  pose proof (get_parameters_tree s t limit grad_only Hh Hs Hr Hd) as Hget.
  eexists. split; [exact Hget|].
  apply List.Forall_forall. intros [p a] Hin. cbn [fst snd].
  apply od_update_In in Hin as [[]|Hin]. apply filter_In in Hin as [Hin _].
  destruct (dfs_resolve (heap s) t Hh (names_ok_abs [] _ t Hn) Hs [] p a) as
    (segs & Hne & Hsegs & Hp & Hres); [constructor | exact Hin |].
  cbn [app] in Hp.
  pose proof (holds_leaf_is_Variable _ _ _ Hh (dfs_leaves _ _ _ Hin)) as Hv.
  cbn [snd] in Hv. unfold is_Variable in Hv.
  destruct (heap s !! a) as [[|v|]|] eqn:Ha; try discriminate.
  apply (get_parameter_hit s p a v). split; [|exact Ha].
  rewrite Hp, split_join; [rewrite <- Hr; exact Hres | exact Hne|].
  apply good_names_no_slash, Hsegs.
Qed.

Lemma get_parameters_paths_resolve_witness :
  let s := mkState two_scopes 0 0 ∅ in
  exists params,
    get_parameters 5 false s = (Ok params, s) /\
    Forall (fun pa => get_parameter (fst pa) s = (Ok (Some (snd pa)), s)) params.
Proof.
  apply (get_parameters_paths_resolve (mkState two_scopes 0 0 ∅) two_scopes_tree 5 false).
  - exact two_scopes_holds.
  - reflexivity.
  - reflexivity.
  - cbn. lia.
  - exact two_scopes_well_named.
Defined.

(** ** Loading a flat file into an empty scope *)

(** The value at a path of a tree of values. *)
Fixpoint vget {A} (segs : list string) (t : vtree A) : option A :=
  match segs, t with
  | [], VLeaf v => Some v
  | n :: rest, VNode es =>
      match od_get n es with
      | Some child => vget rest child
      | None => None
      end
  | _, _ => None
  end.

Lemma od_get_alter {V} (k k' : string) (f : V -> V) d :
  od_get k (od_alter k' f d) =
  if String.eqb k k' then option_map f (od_get k d) else od_get k d.
Proof.
  induction d as [|[k0 x] d IH]; cbn.
  - destruct (String.eqb k k'); reflexivity.
  - destruct (String.eqb k' k0) eqn:E; cbn.
    + apply String.eqb_eq in E. subst k0.
      destruct (String.eqb k k'); reflexivity.
    + destruct (String.eqb k k0) eqn:E0; [|exact IH].
      apply String.eqb_eq in E0. subst k0. rewrite String.eqb_sym, E. reflexivity.
Qed.

Lemma vget_fresh_sub {A} (v : A) segs : vget segs (fresh_sub v segs) = Some v.
Proof.
  induction segs as [|n rest IH]; cbn; [reflexivity|].
  rewrite String.eqb_refl. exact IH.
Qed.

(** An insertion puts its value at its path... *)
Lemma vget_vins {A} (v : A) segs :
  forall t, insertable segs t = true -> vget segs (vins segs v t) = Some v.
Proof.
  induction segs as [|n rest IH]; intros [w|es] Hi; try discriminate.
  cbn [insertable vins] in *.
  destruct (od_get n es) as [child|] eqn:Hn.
  - destruct rest as [|m rest]; [discriminate|].
    apply andb_true_iff in Hi as [_ Hi].
    cbn [vget]. rewrite od_get_alter, String.eqb_refl, Hn. cbn [option_map].
    apply IH, Hi.
  - cbn [vget]. rewrite od_get_app, Hn. cbn. rewrite String.eqb_refl.
    apply vget_fresh_sub.
Qed.

(** ... and keeps the values at the other paths. *)
Lemma vget_vins_keep {A} (v w : A) segs' :
  forall segs t,
    vget segs' t = Some w -> insertable segs t = true ->
    vget segs' (vins segs v t) = Some w.
Proof.
  induction segs' as [|n' rest' IH]; intros segs [u|es] Hg Hi;
    try discriminate; try (destruct segs; discriminate).
  destruct segs as [|n rest]; [discriminate|].
  cbn [vget insertable vins] in *.
  destruct (od_get n' es) as [child'|] eqn:Hn'; [|discriminate].
  destruct (od_get n es) as [child|] eqn:Hn.
  - destruct rest as [|m rest]; [discriminate|].
    apply andb_true_iff in Hi as [_ Hi].
    cbn [vget]. rewrite od_get_alter.
    destruct (String.eqb n' n) eqn:E.
    + apply String.eqb_eq in E. subst n'. rewrite Hn. cbn [option_map].
      assert (child' = child) by congruence. subst child'.
      apply IH; assumption.
    + rewrite Hn'. exact Hg.
  - cbn [vget]. rewrite od_get_app, Hn'. exact Hg.
Qed.

Lemma vget_vload {A} (records : list (list string * A)) :
  forall t,
    loadable records t ->
    (forall sv, In sv records -> vget (fst sv) (vload records t) = Some (snd sv)) /\
    (forall segs w, vget segs t = Some w -> vget segs (vload records t) = Some w).
Proof.
  induction records as [|sv records IH]; intros t Hl.
  - split; [intros sv []|auto].
  - destruct Hl as [Hi Hl]. destruct (IH _ Hl) as [Hin Hkeep].
    unfold vload in *. cbn [fold_left]. split.
    + intros sv' [<-|Hsv']; [|apply Hin, Hsv'].
      apply Hkeep. apply vget_vins, Hi.
    + intros segs w Hg. apply Hkeep. apply vget_vins_keep; assumption.
Qed.

(** A value of the tree the store holds is the value of the Variable its
    path leads to. *)
Lemma vget_abs h segs :
  forall t val,
    holds h t -> segs <> [] -> vget segs (abs h t) = Some val ->
    exists a, resolve h (root t) segs = Some a /\ leaf_val h a = val.
Proof.
  induction segs as [|n rest IH]; intros t val Hh Hne Hg; [contradiction|].
  destruct t as [b|x es]; [discriminate|].
  pose proof Hh as Hh'. apply holds_node in Hh' as (Hx & Hnd & Hch).
  rewrite abs_node in Hg. cbn [vget] in Hg. rewrite od_get_map in Hg.
  destruct (od_get n es) as [child|] eqn:Hn; [|discriminate]. cbn [option_map] in Hg.
  assert (Hl : lookup_entry h x n = Some (root child)).
  { unfold lookup_entry. rewrite Hx, od_get_entry_of, Hn. reflexivity. }
  assert (Hc : holds h child).
  { rewrite List.Forall_forall in Hch. apply (Hch (n, child)).
    apply od_get_Some_In, Hn. }
  destruct rest as [|m rest].
  - destruct child as [a|y es']; [|rewrite abs_node in Hg; discriminate].
    cbn in Hg. inversion Hg; subst. exists a. split; [exact Hl | reflexivity].
  - destruct child as [a|y es']; [cbn in Hg; discriminate|].
    assert (Hne' : m :: rest <> []) by discriminate.
    destruct (IH (TNode y es') val Hc Hne' Hg) as (a & Hres & Hv).
    exists a. split; [|exact Hv].
    pose proof (is_dict_holds h (TNode y es') Hc) as Hdy.
    cbn [root is_scope] in *.
    rewrite (resolve_cons _ _ _ _ Hne'), Hl, Hdy. exact Hres.
Qed.

(** After a load into a tree, the path of each record holds a Variable
    with the record's shape, [need_grad] and data. *)
Lemma loaded_records_found h' t' c r f (records : list (list string * value)) :
  holds h' t' -> root t' = c ->
  abs h' t' = vload (map with_Some records) (VNode []) ->
  Forall record_ok records ->
  loadable (map with_Some records) (VNode []) ->
  Forall (fun sv => exists a v,
            parameter_at (mkState h' c r f) (join (fst sv)) a v /\
            shape v = fst (fst (snd sv)) /\
            need_grad v = snd (fst (snd sv)) /\
            get_d a (mkState h' c r f) = (Ok (snd (snd sv)), mkState h' c r f))
         records.
Proof.
  intros Hh' Hroot Habs Hok Hl.
  destruct (vget_vload (map with_Some records) (VNode []) Hl) as [Hin _].
  apply List.Forall_forall. intros sv Hsv.
  rewrite List.Forall_forall in Hok. destruct (Hok sv Hsv) as (Hne & Hgood & _).
  specialize (Hin (with_Some sv) (in_map _ _ _ Hsv)). cbn [with_Some fst snd] in Hin.
  rewrite <- Habs in Hin.
  destruct (vget_abs h' (fst sv) t' _ Hh' Hne Hin) as (a & Hres & Hv).
  rewrite Hroot in Hres. unfold leaf_val in Hv.
  destruct (h' !! a) as [[|v|]|] eqn:Ha; try discriminate.
  destruct (h' !! data v) as [[| |x]|] eqn:Hx; try discriminate.
  inversion Hv as [Hsv']. exists a, v. cbn [fst snd].
  split; [split; [|exact Ha]|split; [reflexivity|split; [reflexivity|]]].
  - cbn [heap current_scope]. rewrite split_join; [exact Hres | exact Hne|].
    apply good_names_no_slash, Hgood.
  - eapply get_d_run; eassumption.
Qed.

(** X14: loading a [.protobuf] file into an empty scope registers every
    record.  When each record has as many values as its shape asks for, its
    segments are non-empty and free of ['/'], and its path is free when its
    turn comes (no earlier record has that path or has a parameter on the
    way), [load_parameters] returns the records and leaves the current scope
    where it was; afterwards the path of each record holds a Variable with
    the record's shape, [need_grad] and data. *)
Theorem load_registers_every_record (h : list obj) (c r : addr) (f : gmap string file)
    (path : string) (records : list (list string * value)) :
  snd (splitext path) = dot_protobuf ->
  f !! path = Some (ProtoFile (map to_parameter records)) ->
  h !! c = Some (ODict []) ->
  Forall record_ok records ->
  loadable (map with_Some records) (VNode []) ->
  exists s',
    load_parameters path None (mkState h c r f) = (Ok (map to_parameter records), s') /\
    current_scope s' = c /\ files s' = f /\
    Forall (fun sv => exists a v,
              parameter_at s' (join (fst sv)) a v /\
              shape v = fst (fst (snd sv)) /\
              need_grad v = snd (fst (snd sv)) /\
              get_d a s' = (Ok (snd (snd sv)), s'))
           records.
Proof.
  intros Hext Hf Hc Hok Hl.
  assert (Ht : tree_in h (TNode c [])).
  { split; [|split].
    - apply holds_node. split; [exact Hc|]. split; constructor.
    - rewrite scope_addrs_node. cbn. apply NoDup_singleton.
    - intros a []. }
  destruct (load_protobuf_loop r f records Hok (TNode c []) h Ht)
    as (h' & t' & Hloop & (Hh' & _ & _) & Hroot & Habs).
  { rewrite abs_node. exact Hl. }
  cbn [root] in Hloop, Hroot. rewrite abs_node in Habs. cbn [map] in Habs.
  exists (mkState h' c r f). split; [|split; [reflexivity|split; [reflexivity|]]].
  - rewrite (load_parameters_protobuf path _ (mkState h c r f) Hext Hf).
    rewrite (bind_ok _ _ _ _ _ Hloop). reflexivity.
  - apply (loaded_records_found h' t' c r f records Hh' Hroot Habs Hok Hl).
Qed.

Lemma load_registers_every_record_witness :
  let records := [(["a"; "w"]%string, ([2], false, [1%Z; 2%Z]));
                  (["b"]%string, ([1], true, [3%Z]))] in
  let f : gmap string file := {[ "f.protobuf"%string := ProtoFile (map to_parameter records) ]} in
  exists s',
    load_parameters "f.protobuf" None (mkState [ODict []] 0 0 f) =
      (Ok (map to_parameter records), s') /\
    current_scope s' = 0 /\ files s' = f /\
    Forall (fun sv => exists a v,
              parameter_at s' (join (fst sv)) a v /\
              shape v = fst (fst (snd sv)) /\
              need_grad v = snd (fst (snd sv)) /\
              get_d a s' = (Ok (snd (snd sv)), s'))
           records.
Proof.
  intros records f.
  apply (load_registers_every_record [ODict []] 0 0 f "f.protobuf" records).
  - reflexivity.
  - reflexivity.
  - reflexivity.
  - repeat constructor; discriminate.
  - cbn. auto.
Defined.

(** ** Loading back what was just saved *)

Lemma extends_resolve h h' c names a :
  extends h h' -> resolve h c names = Some a -> resolve h' c names = Some a.
Proof.
  intros E Hres.
  assert (Hne : names <> []) by (destruct names; [discriminate | discriminate]).
  destruct (resolve_split _ _ _ _ Hres) as (x & Hx & Hl).
  apply (resolve_join h' names Hne c x a).
  - eapply extends_resolve_scope; eassumption.
  - eapply extends_lookup_entry; eassumption.
Qed.

(** A parameter of the traversal, as the load finds it: its path leads to
    its Variable, and the buffer of the Variable has the size of its
    shape. *)
Definition registered (h : list obj) (c : addr) (pa : string * addr) : Prop :=
  exists v x,
    resolve h c (split (fst pa)) = Some (snd pa) /\
    h !! snd pa = Some (OVariable v) /\ h !! data v = Some (OArray x) /\
    length x = size_of (shape v).

Lemma dfs_registered h t :
  holds h t -> is_scope t = true -> well_named t -> sound_leaves h t ->
  forall pa, In pa (dfs EmptyString t) -> registered h (root t) pa.
Proof.
  intros Hh Hs Hn Hsound [p a] Hin.
  destruct (dfs_resolve h t Hh (names_ok_abs [] _ t Hn) Hs [] p a) as
    (segs & Hne & Hsegs & Hp & Hres); [constructor | exact Hin |].
  cbn [app] in Hp.
  destruct (Hsound a (dfs_leaves _ _ _ Hin)) as (v & x & Hv & Hx & Hlen).
  exists v, x. cbn [fst snd]. split; [|auto].
  rewrite Hp, split_join; [exact Hres | exact Hne|].
  apply good_names_no_slash, Hsegs.
Qed.

Lemma registered_record h c pa :
  registered h c pa ->
  exists v x,
    h !! snd pa = Some (OVariable v) /\ h !! data v = Some (OArray x) /\
    length x = size_of (shape v) /\
    record_of h pa = mkParameter (fst pa) (shape v) x (need_grad v).
Proof.
  intros (v & x & _ & Hv & Hx & Hlen). exists v, x.
  unfold record_of, leaf_val. rewrite Hv, Hx. auto.
Qed.

(** The views a load of the flat format leaves behind: one for every
    parameter whose [need_grad] is false, since the load asks for the
    parameter with the default [need_grad=True]. *)
Definition reload_views (h : list obj) (params : list (string * addr)) : list obj :=
  flat_map (fun pa => match h !! snd pa with
                      | Some (OVariable v) => if need_grad v then [] else [OVariable v]
                      | _ => []
                      end) params.

Lemma reload_protobuf_record h c r f views pa :
  registered h c pa ->
  load_protobuf_record (record_of h pa) (mkState (h ++ views) c r f) =
  (Ok tt, mkState (h ++ views ++ reload_views h [pa]) c r f).
Proof.
  intros Hreg. destruct (registered_record h c pa Hreg) as (v & x & Hv & Hx & Hlen & Hrec).
  destruct Hreg as (v' & x' & Hres & Hv' & _). rewrite Hv in Hv'. inversion Hv'; subst v'.
  destruct pa as [p a]. cbn [fst snd] in *.
  set (H := h ++ views).
  assert (Hat : parameter_at (mkState H c r f) p a v).
  { split; cbn [heap current_scope].
    - eapply extends_resolve; [apply extends_app | exact Hres].
    - apply lookup_app_l_Some, Hv. }
  assert (HvH : H !! a = Some (OVariable v)) by apply lookup_app_l_Some, Hv.
  assert (HxH : H !! data v = Some (OArray x)) by apply lookup_app_l_Some, Hx.
  assert (Hre : reshape x (shape v) (mkState H c r f) = (Ok x, mkState H c r f)).
  { unfold reshape. rewrite Hlen, Nat.eqb_refl. reflexivity. }
  unfold reload_views. cbn [flat_map snd]. rewrite Hv, app_nil_r.
  unfold load_protobuf_record. rewrite Hrec.
  cbn [variable_name shape_dim parameter_data parameter_need_grad].
  destruct v as [sh g d]. cbn [shape need_grad data] in *. destruct g.
  - rewrite (bind_ok _ _ _ _ _ (found_same H c r f p a _ Hat sh None true eq_refl eq_refl)).
    rewrite (bind_ok _ _ _ _ _ Hre).
    rewrite (bind_ok _ _ _ _ _ (set_d_run H c r f a _ x HvH Hlen)).
    cbn [data]. rewrite (list_insert_id _ _ _ HxH).
    rewrite (set_need_grad_run H c r f a _ true HvH).
    cbn [shape data]. rewrite (list_insert_id _ _ _ HvH), app_nil_r. reflexivity.
  - rewrite (bind_ok _ _ _ _ _
               (found_unlinked H c r f p a _ Hat sh None true eq_refl ltac:(discriminate))).
    cbn [shape data].
    set (H1 := H ++ [OVariable (mkVariable sh true d)]).
    assert (Hnew : H1 !! length H = Some (OVariable (mkVariable sh true d))).
    { unfold H1. rewrite lookup_app_r by lia. rewrite Nat.sub_diag. reflexivity. }
    assert (Hre1 : reshape x sh (mkState H1 c r f) = (Ok x, mkState H1 c r f)).
    { unfold reshape. rewrite Hlen, Nat.eqb_refl. reflexivity. }
    rewrite (bind_ok _ _ _ _ _ Hre1).
    rewrite (bind_ok _ _ _ _ _ (set_d_run H1 c r f (length H) _ x Hnew Hlen)).
    cbn [data].
    rewrite (list_insert_id H1 d (OArray x)) by (unfold H1; apply lookup_app_l_Some, HxH).
    rewrite (set_need_grad_run H1 c r f (length H) _ false Hnew).
    cbn [shape data]. unfold H1.
    rewrite insert_app_r_alt by lia. rewrite Nat.sub_diag. cbn [insert list_insert].
    unfold H. rewrite <- app_assoc. reflexivity.
Qed.

Lemma reload_views_app h l1 l2 :
  reload_views h (l1 ++ l2) = reload_views h l1 ++ reload_views h l2.
Proof. unfold reload_views. apply flat_map_app. Qed.

Lemma reload_protobuf_loop h c r f params :
  (forall pa, In pa params -> registered h c pa) ->
  forall views,
    for_each (map (record_of h) params) (fun parameter _ => load_protobuf_record parameter) tt
      (mkState (h ++ views) c r f) =
    (Ok tt, mkState (h ++ views ++ reload_views h params) c r f).
Proof.
  induction params as [|pa params IH]; intros Hreg views.
  - cbn. rewrite app_nil_r. reflexivity.
  - cbn [map for_each].
    rewrite (bind_ok _ _ _ _ _
               (reload_protobuf_record h c r f views pa (Hreg pa (or_introl eq_refl)))).
    rewrite (IH (fun pa' Hin => Hreg pa' (or_intror Hin)) (views ++ reload_views h [pa])).
    change (pa :: params) with ([pa] ++ params).
    rewrite reload_views_app, <- !app_assoc. reflexivity.
Qed.

Lemma holds_app h tl t : holds h t -> holds (h ++ tl) t.
Proof.
  intros Hh. apply (holds_frame h (h ++ tl) t Hh).
  - intros x Hx. apply lookup_app_l. eapply scope_lt; eassumption.
  - intros x. unfold is_Variable. destruct (h !! x) as [o|] eqn:E; [|discriminate].
    rewrite (lookup_app_l_Some _ _ _ _ E). auto.
Qed.

(** X15: loading back the [.protobuf] file that was just saved changes no
    parameter.  When every name is non-empty and free of ['/'],
    [save_parameters] followed by [load_parameters] of the same path
    returns, every object of the store is as it was, and [get_parameters]
    returns the same mapping as before; all the load adds to the store is
    one unregistered view for each parameter whose [need_grad] is false. *)
Theorem save_then_load_protobuf (s : state) (t : tree) (limit : nat) (path : string) :
  holds (heap s) t -> is_scope t = true -> root t = current_scope s ->
  depth t <= limit -> well_named t -> sound_leaves (heap s) t ->
  snd (splitext path) = dot_protobuf ->
  exists params s',
    get_parameters limit false s = (Ok params, s) /\
    (exec save_parameters limit path ;; load_parameters path None) s =
      (Ok (map (record_of (heap s)) params), s') /\
    heap s' = heap s ++ reload_views (heap s) params /\
    current_scope s' = current_scope s /\
    get_parameters limit false s' = (Ok params, s').
Proof.
  intros Hh Hs Hr Hd Hn Hsound Hext. destruct s as [h c r f].
  cbn [heap current_scope files] in *. subst c.
  set (params := dfs EmptyString t).
  set (R := map (record_of h) params).
  set (f' := <[path := ProtoFile R]> f).
  assert (Hdistinct : NoDup (map fst (dfs EmptyString t)))
    by (eapply source_paths_distinct; eassumption).
  assert (Hget : forall h0 f0, holds h0 t ->
                   get_parameters limit false (mkState h0 (root t) r f0) =
                   (Ok params, mkState h0 (root t) r f0)).
  { intros h0 f0 Hh0.
    pose proof (get_parameters_tree (mkState h0 (root t) r f0) t limit false Hh0 Hs eq_refl Hd)
      as Hg.
    cbn [heap] in Hg. rewrite filter_all in Hg by (intros ?; reflexivity).
    rewrite od_update_distinct in Hg; [exact Hg|].
    cbn [app]. exact Hdistinct. }
  assert (Hreg : forall pa, In pa params -> registered h (root t) pa)
    by (apply dfs_registered; assumption).
  assert (Hvalid : forall pa, In pa params -> leaf_val h (snd pa) <> None).
  { intros pa Hin. destruct (registered_record _ _ _ (Hreg pa Hin)) as (v & x & Hv & Hx & _).
    unfold leaf_val. rewrite Hv, Hx. discriminate. }
  assert (Hsave : save_parameters limit path (mkState h (root t) r f) =
                  (Ok tt, mkState h (root t) r f')).
  { unfold save_parameters. rewrite Hext.
    replace (String.eqb dot_protobuf dot_h5) with false by reflexivity.
    rewrite String.eqb_refl.
    rewrite (bind_ok _ _ _ _ _ (Hget h f Hh)).
    rewrite (bind_ok _ _ _ _ _ (save_protobuf_loop h (root t) r f _ Hvalid [])).
    reflexivity. }
  exists params, (mkState (h ++ reload_views h params) (root t) r f').
  split; [apply Hget, Hh|]. split; [|split; [reflexivity|split; [reflexivity|]]].
  - rewrite (bind_ok _ _ _ _ _ Hsave).
    rewrite load_parameters_protobuf with (records := R);
      [|exact Hext| unfold f'; cbn [files]; apply lookup_insert_eq].
    pose proof (reload_protobuf_loop h (root t) r f' params Hreg []) as Hloop.
    rewrite app_nil_r in Hloop. cbn [app] in Hloop.
    fold R in Hloop. rewrite (bind_ok _ _ _ _ _ Hloop). reflexivity.
  - apply Hget, holds_app, Hh.
Qed.

Lemma save_then_load_protobuf_witness :
  let s := mkState two_scopes 0 0 ∅ in
  exists params s',
    get_parameters 5 false s = (Ok params, s) /\
    (exec save_parameters 5 "params.protobuf" ;; load_parameters "params.protobuf" None) s =
      (Ok (map (record_of (heap s)) params), s') /\
    heap s' = heap s ++ reload_views (heap s) params /\
    current_scope s' = current_scope s /\
    get_parameters 5 false s' = (Ok params, s').
Proof.
  apply (save_then_load_protobuf (mkState two_scopes 0 0 ∅) two_scopes_tree 5 "params.protobuf").
  - exact two_scopes_holds.
  - reflexivity.
  - reflexivity.
  - cbn. lia.
  - exact two_scopes_well_named.
  - exact two_scopes_sound.
  - reflexivity.
Defined.

Lemma reload_h5_entry h c r f datasets pa i proto :
  registered h c pa ->
  od_get (fst pa) datasets = Some (snd (dataset_of h (i, pa))) ->
  load_h5_entry datasets (fst pa) proto (mkState h c r f) =
  (Ok (proto ++ [record_of h pa]), mkState h c r f).
Proof.
  intros Hreg Hds.
  destruct (registered_record h c pa Hreg) as (v & x & Hv & Hx & Hlen & Hrec).
  destruct Hreg as (v' & x' & Hres & Hv' & _). rewrite Hv in Hv'. inversion Hv'; subst v'.
  destruct pa as [p a]. cbn [fst snd] in *.
  assert (Hat : parameter_at (mkState h c r f) p a v) by (split; assumption).
  unfold dataset_of, dataset_of_parameter in Hds. cbn [fst snd] in Hds. rewrite Hrec in Hds.
  cbn [variable_name shape_dim parameter_data parameter_need_grad] in Hds.
  unfold load_h5_entry, h5_get. rewrite Hds.
  rewrite (bind_ok _ _ _ _ _ (eq_refl : ret _ _ = (Ok _, _))).
  cbn [ds_need_grad ds_shape ds_value unwrap].
  rewrite (bind_ok _ _ _ _ _ (eq_refl : ret _ _ = (Ok _, _))).
  rewrite (bind_ok _ _ _ _ _ (found_same h c r f p a v Hat _ None _ eq_refl eq_refl)).
  rewrite (bind_ok _ _ _ _ _ (set_d_run h c r f a v x Hv Hlen)).
  rewrite (list_insert_id _ _ _ Hx).
  rewrite (bind_ok _ _ _ _ _ (get_Variable_run h c r f a v Hv)).
  rewrite (bind_ok _ _ _ _ _ (get_d_run h c r f a v x Hv Hx)).
  rewrite Hrec. reflexivity.
Qed.

Lemma reload_h5_loop h c r f datasets params :
  (forall pa, In pa params ->
     registered h c pa /\
     exists i, od_get (fst pa) datasets = Some (snd (dataset_of h (i, pa)))) ->
  forall proto,
    for_each (map fst params) (load_h5_entry datasets) proto (mkState h c r f) =
    (Ok (proto ++ map (record_of h) params), mkState h c r f).
Proof.
  induction params as [|pa params IH]; intros Hin proto.
  - cbn. rewrite app_nil_r. reflexivity.
  - cbn [map for_each].
    destruct (Hin pa (or_introl eq_refl)) as (Hreg & i & Hds).
    rewrite (bind_ok _ _ _ _ _ (reload_h5_entry h c r f datasets pa i proto Hreg Hds)).
    rewrite (IH (fun pa' H' => Hin pa' (or_intror H'))).
    rewrite <- app_assoc. reflexivity.
Qed.

(** X16: loading back the [.h5] file that was just saved changes nothing
    but the file.  When every name is non-empty and free of ['/'],
    [save_parameters] followed by [load_parameters] of the same path returns
    the records of the parameters in the order of [get_parameters], and the
    store and both scopes are exactly as before the save: the load asks for
    every parameter with the [need_grad] it has, so no view is made. *)
Theorem save_then_load_h5 (s : state) (t : tree) (limit : nat) (path : string) :
  holds (heap s) t -> is_scope t = true -> root t = current_scope s ->
  depth t <= limit -> well_named t -> sound_leaves (heap s) t ->
  snd (splitext path) = dot_h5 ->
  exists params,
    get_parameters limit false s = (Ok params, s) /\
    (exec save_parameters limit path ;; load_parameters path None) s =
      (Ok (map (record_of (heap s)) params),
       set_files (<[path := H5File (map (dataset_of (heap s)) (enumerate params))]> (files s)) s).
Proof.
  intros Hh Hs Hr Hd Hn Hsound Hext. destruct s as [h c r f].
  cbn [heap current_scope files] in *. subst c.
  set (params := dfs EmptyString t).
  set (R := map (record_of h) params).
  set (datasets := map (fun ip => dataset_of_parameter (fst ip) (snd ip)) (enumerate R)).
  set (f' := <[path := H5File datasets]> f).
  assert (Hget : forall f0, get_parameters limit false (mkState h (root t) r f0) =
                            (Ok params, mkState h (root t) r f0))
    by (intros f0; eapply source_get_parameters; eassumption).
  assert (Hvalid : forall pa, In pa params -> leaf_val h (snd pa) <> None)
    by (eapply source_leaves_valid; eassumption).
  assert (Hdistinct : NoDup (map fst params))
    by (eapply source_paths_distinct; eassumption).
  assert (Hreg : forall pa, In pa params -> registered h (root t) pa)
    by (apply dfs_registered; assumption).
  assert (Hnames : map variable_name R = map fst params).
  { unfold R. rewrite map_map. apply map_ext. intros [p a]. unfold record_of. cbn [fst snd].
    destruct (leaf_val h a) as [[[sh g] x]|]; reflexivity. }
  assert (Hwritten : map (dataset_of h) (enumerate params) = datasets).
  { unfold datasets, enumerate, R. rewrite enumerate_from_map, map_map. reflexivity. }
  assert (Hsave : save_parameters limit path (mkState h (root t) r f) =
                  (Ok tt, mkState h (root t) r f')).
  { unfold save_parameters. rewrite Hext, String.eqb_refl.
    rewrite (bind_ok _ _ _ _ _ (Hget f)).
    rewrite (bind_ok _ _ _ _ _ (eq_refl : write_file _ _ _ = (Ok tt, _))).
    unfold set_files. cbn [heap current_scope root_scope files].
    rewrite (bind_ok _ _ _ _ _ (Hget _)).
    rewrite (save_h5_loop h (root t) r path (enumerate params)).
    - cbn [app]. rewrite Hwritten. reflexivity.
    - intros ikv Hin. apply Hvalid. exact (enumerate_In _ _ _ Hin).
    - rewrite <- (map_map snd fst). unfold enumerate. rewrite enumerate_snd. exact Hdistinct.
    - reflexivity. }
  assert (Hfst : map fst datasets = map fst params).
  { rewrite <- Hnames. unfold datasets, enumerate. rewrite map_map.
    cbn [dataset_of_parameter fst].
    rewrite <- (map_map snd variable_name), enumerate_snd. reflexivity. }
  exists params. split; [apply Hget|].
  rewrite (bind_ok _ _ _ _ _ Hsave).
  unfold set_files. cbn [heap current_scope root_scope files]. rewrite Hwritten. fold f'.
  unfold load_parameters. rewrite Hext, String.eqb_refl.
  unfold bind at 1. unfold open_file. cbn [files]. unfold f' at 1.
  rewrite lookup_insert_eq. fold f'.
  unfold datasets at 1. rewrite sorted_keys. fold R. rewrite Hnames.
  rewrite (reload_h5_loop h (root t) r f' datasets params); [reflexivity|].
  intros pa Hin. split; [apply Hreg, Hin|].
  destruct (enumerate_In_inv params pa 0 Hin) as (i & Hi).
  exists i. apply od_get_In; [rewrite Hfst; exact Hdistinct|].
  rewrite <- Hwritten. apply in_map_iff. exists (i, pa). split; [|exact Hi].
  unfold dataset_of, dataset_of_parameter. cbn [fst snd]. f_equal.
  unfold record_of. destruct (leaf_val h (snd pa)) as [[[sh g] x]|]; reflexivity.
Qed.

Lemma save_then_load_h5_witness :
  let s := mkState two_scopes 0 0 ∅ in
  exists params,
    get_parameters 5 false s = (Ok params, s) /\
    (exec save_parameters 5 "params.h5" ;; load_parameters "params.h5" None) s =
      (Ok (map (record_of (heap s)) params),
       set_files (<["params.h5"%string :=
                    H5File (map (dataset_of (heap s)) (enumerate params))]> (files s)) s).
Proof.
  apply (save_then_load_h5 (mkState two_scopes 0 0 ∅) two_scopes_tree 5 "params.h5").
  - exact two_scopes_holds.
  - reflexivity.
  - reflexivity.
  - cbn. lia.
  - exact two_scopes_well_named.
  - exact two_scopes_sound.
  - reflexivity.
Defined.

(** ** What a lookup and a creation never do *)

(** From [h] to [h'] nothing was taken away, replaced or moved: a scope
    has the entries it had, in the order it had them, followed by new
    entries under names that were free in it, and every other object is
    the object it was. *)
Definition only_appended (h h' : list obj) : Prop :=
  forall a,
    match h !! a with
    | Some (ODict d) =>
        exists d', h' !! a = Some (ODict (d ++ d')) /\
                   forall k, In k (map fst d') -> od_get k d = None
    | Some o => h' !! a = Some o
    | None => True
    end.

Lemma only_appended_refl h : only_appended h h.
Proof.
  intros a. destruct (h !! a) as [[d| |]|]; auto.
  exists []. rewrite app_nil_r. split; [reflexivity | intros k []].
Qed.

Lemma only_appended_trans h1 h2 h3 :
  only_appended h1 h2 -> only_appended h2 h3 -> only_appended h1 h3.
Proof.
  intros H12 H23 a. specialize (H12 a). specialize (H23 a).
  destruct (h1 !! a) as [[d| |]|]; auto.
  - destruct H12 as (d1 & E1 & F1). rewrite E1 in H23. destruct H23 as (d2 & E2 & F2).
    exists (d1 ++ d2). rewrite app_assoc. split; [exact E2|].
    intros k Hk. rewrite map_app, in_app_iff in Hk. destruct Hk as [Hk|Hk]; [auto|].
    specialize (F2 k Hk). rewrite od_get_app in F2.
    destruct (od_get k d); [discriminate | reflexivity].
  - rewrite H12 in H23. exact H23.
  - rewrite H12 in H23. exact H23.
Qed.

Lemma only_appended_app h tl : only_appended h (h ++ tl).
Proof.
  intros a. destruct (h !! a) as [[d| |]|] eqn:E; auto;
    try (apply lookup_app_l_Some; exact E).
  exists []. rewrite app_nil_r. split; [apply lookup_app_l_Some, E | intros k []].
Qed.

Lemma only_appended_entry h c d k y tl :
  h !! c = Some (ODict d) -> od_get k d = None ->
  only_appended h (<[c := ODict (d ++ [(k, y)])]> h ++ tl).
Proof.
  intros Hc Hk a.
  assert (Hlt : c < length h) by (eapply lookup_lt_Some; eauto).
  destruct (decide (a = c)) as [->|Hne].
  - rewrite Hc. exists [(k, y)]. split.
    + rewrite lookup_app_l by (rewrite length_insert; lia).
      apply list_lookup_insert_eq. exact Hlt.
    + intros k' [<-|[]]. exact Hk.
  - pose proof (only_appended_app (<[c := ODict (d ++ [(k, y)])]> h) tl a) as H.
    rewrite list_lookup_insert_ne in H by congruence. exact H.
Qed.

Lemma get_parameter_leaf_heap k s : heap (snd (get_parameter_leaf k s)) = heap s.
Proof.
  destruct s as [h c r f]. unfold get_parameter_leaf. unfold_prims. cbn.
  destruct (h !! c) as [[d| |]|]; cbn; try reflexivity.
  destruct (od_get k d) as [p|]; cbn; [|reflexivity].
  destruct (h !! p) as [[]|]; reflexivity.
Qed.

Lemma enter_only_appends n s : only_appended (heap s) (heap (snd (parameter_scope_enter n s))).
Proof.
  destruct s as [h c r f]. cbn [heap].
  destruct (h !! c) as [[d| |]|] eqn:Hc.
  2-4: unfold_prims; cbn; rewrite Hc; cbn; apply only_appended_refl.
  destruct (od_get n d) as [x|] eqn:Hn.
  - destruct (is_dict h x) eqn:Hd.
    + rewrite (enter_present _ _ _ _ _ _ _ Hc Hn Hd). apply only_appended_refl.
    + rewrite (enter_not_dict _ _ _ _ _ _ _ Hc Hn Hd). apply only_appended_refl.
  - rewrite (enter_absent _ _ _ _ _ _ Hc Hn). cbn [snd heap].
    apply only_appended_entry; assumption.
Qed.

Lemma walk_only_appends {A} (leaf : string -> M A) names :
  Forall (fun n => no_slash n = true) names ->
  (forall k s, no_slash k = true -> only_appended (heap s) (heap (snd (leaf k s)))) ->
  forall s, only_appended (heap s) (heap (snd (walk names leaf s))).
Proof.
  intros Hns Hleaf. induction names as [|n [|m rest] IH]; intros s.
  - apply Hleaf. reflexivity.
  - apply Hleaf. inversion Hns; assumption.
  - change (walk (n :: m :: rest) leaf) with (with_parameter_scope n (walk (m :: rest) leaf)).
    rewrite with_parameter_scope_eq.
    pose proof (enter_only_appends n s) as He.
    destruct (parameter_scope_enter n s) as [[prev|e] s1]; cbn [snd] in *; [|exact He].
    inversion Hns as [|? ? _ Hrest]; subst.
    pose proof (IH Hrest s1) as Hb.
    destruct (walk (m :: rest) leaf s1) as [[a|e] s2]; cbn [snd] in *;
      eapply only_appended_trans; eauto.
Qed.

Lemma get_parameter_or_create_leaf_only_appends k sh init ng s :
  no_slash k = true ->
  only_appended (heap s) (heap (snd (get_parameter_or_create_leaf k sh init ng s))).
Proof.
  intros Hk. destruct s as [h c r f]. cbn [heap].
  destruct (h !! c) as [[d| |]|] eqn:Hc.
  2-4: unfold get_parameter_or_create_leaf; rewrite (get_parameter_single _ Hk);
       unfold get_parameter_leaf; unfold_prims; cbn; rewrite Hc; cbn; apply only_appended_refl.
  destruct (od_get k d) as [p|] eqn:Hp.
  - destruct (h !! p) as [[dp|v|x]|] eqn:Hv.
    1,3,4: unfold get_parameter_or_create_leaf; rewrite (get_parameter_single _ Hk);
           unfold get_parameter_leaf; unfold_prims; cbn; rewrite Hc; cbn; rewrite Hp; cbn;
           rewrite Hv; cbn; apply only_appended_refl.
    destruct (decide (shape v = sh)) as [Hs|Hs].
    + destruct (decide (need_grad v = ng)) as [Hg|Hg].
      * rewrite (leaf_same h c r f k d Hk Hc p v sh init ng Hp Hv Hs Hg).
        apply only_appended_refl.
      * rewrite (leaf_unlinked h c r f k d Hk Hc p v sh init ng Hp Hv Hs Hg).
        apply only_appended_app.
    + rewrite (leaf_mismatch h c r f k d Hk Hc p v sh init ng Hp Hv Hs).
      apply only_appended_refl.
  - destruct (decide (length (initial_data sh init) = size_of sh)) as [Hlen|Hlen].
    + rewrite (leaf_create h c r f k d Hk Hc sh init ng Hp Hlen). cbn [snd heap].
      apply only_appended_entry; assumption.
    + destruct init as [i|]; [|exfalso; apply Hlen; apply repeat_length].
      unfold get_parameter_or_create_leaf. rewrite (get_parameter_single _ Hk).
      rewrite (bind_ok _ _ _ _ _ (get_parameter_leaf_absent h c r f k d Hc Hp)).
      rewrite (bind_ok _ _ _ _ _ (Variable_new_run _ _ _ _ _ _)).
      set (h1 := h ++ [OArray (repeat 0%Z (size_of sh)); OVariable (mkVariable sh ng (length h))]).
      assert (Hbad : set_d (S (length h)) (i sh) (mkState h1 c r f) =
                     (Raise ValueError, mkState h1 c r f)).
      { apply set_d_bad with (v := mkVariable sh ng (length h)); [|exact Hlen].
        unfold h1. rewrite lookup_app_r by lia.
        replace (S (length h) - length h) with 1 by lia. reflexivity. }
      rewrite (bind_raise _ _ _ _ _ Hbad). cbn [snd heap]. apply only_appended_app.
Qed.

(** X17: a lookup and a creation only add to the store.  Whatever their
    arguments, and whether they return or raise, [get_parameter] and
    [get_parameter_or_create] leave every scope with the entries it had, in
    the order it had them, and every Variable and every data buffer that
    existed as it was: all they do is append entries to scopes, under names
    that were free, and make new objects. *)
Theorem lookup_and_creation_only_add (s : state) (key : string) (sh : list nat)
    (init : option (list nat -> list float32)) (ng : bool) :
  only_appended (heap s) (heap (snd (get_parameter key s))) /\
  only_appended (heap s) (heap (snd (get_parameter_or_create key sh init ng s))).
Proof.
  split.
  - unfold get_parameter. rewrite get_parameter_names_walk.
    apply walk_only_appends; [apply split_no_slash|].
    intros k s0 _. rewrite get_parameter_leaf_heap. apply only_appended_refl.
  - unfold get_parameter_or_create. rewrite get_parameter_or_create_names_walk.
    apply walk_only_appends; [apply split_no_slash|].
    intros k s0 Hk. apply get_parameter_or_create_leaf_only_appends, Hk.
Qed.

(** ** The two mappings of [get_parameters] *)

(** X18: when no two parameters below the current scope have the same
    path, the mapping of [grad_only=True] is the mapping of
    [grad_only=False] without the parameters whose [need_grad] is false,
    the others in the same order. *)
Theorem grad_only_is_a_filter (s : state) (t : tree) (limit : nat) :
  holds (heap s) t -> is_scope t = true -> root t = current_scope s ->
  depth t <= limit ->
  NoDup (map fst (dfs EmptyString t)) ->
  exists all,
    get_parameters limit false s = (Ok all, s) /\
    get_parameters limit true s =
      (Ok (List.filter (fun pa => var_need_grad (heap s) (snd pa)) all), s).
Proof.
  intros Hh Hs Hr Hd Hnd.
  pose proof (get_parameters_tree s t limit true Hh Hs Hr Hd) as Ht.
  pose proof (get_parameters_tree s t limit false Hh Hs Hr Hd) as Hf.
  rewrite od_update_distinct in Ht by (apply NoDup_keys_filter; exact Hnd).
  rewrite od_update_distinct in Hf by (apply NoDup_keys_filter; exact Hnd).
  cbn [app] in Ht, Hf. rewrite filter_all in Hf by (intros ?; reflexivity).
  exists (dfs EmptyString t). split; [exact Hf | exact Ht].
Qed.

Lemma grad_only_is_a_filter_witness :
  let s := mkState two_scopes 0 0 ∅ in
  exists all,
    get_parameters 5 false s = (Ok all, s) /\
    get_parameters 5 true s =
      (Ok (List.filter (fun pa => var_need_grad (heap s) (snd pa)) all), s).
Proof.
  apply (grad_only_is_a_filter (mkState two_scopes 0 0 ∅) two_scopes_tree 5).
  - exact two_scopes_holds.
  - reflexivity.
  - reflexivity.
  - cbn. lia.
  - apply (bool_decide_unpack _). vm_compute. exact I.
Defined.

(** ** Loading a hierarchical file into an empty scope *)

(** The datasets of the records, with the given [index] attributes. *)
Definition h5_entries (idxs : list nat) (records : list (list string * value))
  : list (string * Dataset) :=
  map (fun isv => dataset_of_parameter (fst isv) (to_parameter (snd isv)))
      (combine idxs records).

Lemma map_snd_combine {X Y Z} (g : Y -> Z) (l1 : list X) (l2 : list Y) :
  length l1 = length l2 -> map (fun xy => g (snd xy)) (combine l1 l2) = map g l2.
Proof.
  revert l2. induction l1 as [|x l1 IH]; intros [|y l2] Hlen; try discriminate;
    [reflexivity|].
  cbn. rewrite IH by (cbn in Hlen; lia). reflexivity.
Qed.

Lemma in_combine_inv {X Y} (l1 : list X) (l2 : list Y) y :
  length l1 = length l2 -> In y l2 -> exists x, In (x, y) (combine l1 l2).
Proof.
  revert l2. induction l1 as [|x l1 IH]; intros [|y' l2] Hlen Hin; try discriminate;
    [destruct Hin|].
  destruct Hin as [->|Hin].
  - exists x. left. reflexivity.
  - destruct (IH l2 ltac:(cbn in Hlen; lia) Hin) as (x' & Hx'). exists x'. right. exact Hx'.
Qed.

Lemma h5_entries_ranked idxs records :
  ranked (fun i : nat => i) idxs ->
  ranked index_rank (map key_of (h5_entries idxs records)).
Proof.
  revert records. induction idxs as [|i idxs IH]; intros [|sv records] Hr; try exact I.
  destruct Hr as [Hlt Hr]. cbn [h5_entries combine map ranked]. split; [|apply IH, Hr].
  apply List.Forall_forall. intros k Hk.
  apply in_map_iff in Hk as (e & <- & He).
  apply in_map_iff in He as ([j sv'] & <- & Hj).
  apply in_combine_l in Hj. rewrite List.Forall_forall in Hlt.
  cbn. apply (Hlt j Hj).
Qed.

Lemma h5_entries_indexed idxs records :
  Forall (fun k => fst k <> None) (map key_of (h5_entries idxs records)).
Proof.
  apply List.Forall_forall. intros k Hk.
  apply in_map_iff in Hk as (e & <- & He).
  apply in_map_iff in He as ([j sv'] & <- & _). discriminate.
Qed.

(** The order in which [load_parameters] takes the datasets of a file. *)
Lemma h5_keys_in_index_order D idxs records :
  Permutation D (h5_entries idxs records) ->
  length idxs = length records ->
  ranked (fun i : nat => i) idxs ->
  map snd (sorted key_leb (map key_of (h5_visit D))) =
  map (fun sv => join (fst sv)) records.
Proof.
  intros Hperm Hlen Hr.
  rewrite (sorted_of_permutation index_rank key_leb _
             (map key_of (h5_entries idxs records))).
  - unfold h5_entries. rewrite !map_map. cbn [key_of dataset_of_parameter snd fst].
    apply (map_snd_combine (fun sv => join (fst sv))). exact Hlen.
  - apply key_leb_by_rank, h5_entries_indexed.
  - apply h5_entries_ranked, Hr.
  - apply Permutation_map. etransitivity; [|exact Hperm].
    unfold h5_visit. apply sorted_perm.
Qed.

(** X19: [load_parameters] takes the datasets of an [.h5] file in the order
    of their [index] attributes, whatever their names and the order of the
    file.  For a file that holds, under distinct names, one dataset for each
    record of a list, with strictly increasing indices along the list,
    loading into an empty scope returns the records in the order of the
    list and leaves the current scope where it was, provided each record has
    as many values as its shape asks for, segments that are non-empty and
    free of ['/'], and a path that is free when its turn comes; afterwards
    the path of each record holds a Variable with the record's shape,
    [need_grad] and data. *)
Theorem load_h5_in_index_order (h : list obj) (c r : addr) (f : gmap string file)
    (path : string) (D : list (string * Dataset)) (idxs : list nat)
    (records : list (list string * value)) :
  snd (splitext path) = dot_h5 ->
  f !! path = Some (H5File D) ->
  h !! c = Some (ODict []) ->
  Permutation D (h5_entries idxs records) ->
  NoDup (map fst D) ->
  length idxs = length records ->
  ranked (fun i : nat => i) idxs ->
  Forall record_ok records ->
  loadable (map with_Some records) (VNode []) ->
  exists s',
    load_parameters path None (mkState h c r f) = (Ok (map to_parameter records), s') /\
    current_scope s' = c /\ files s' = f /\
    Forall (fun sv => exists a v,
              parameter_at s' (join (fst sv)) a v /\
              shape v = fst (fst (snd sv)) /\
              need_grad v = snd (fst (snd sv)) /\
              get_d a s' = (Ok (snd (snd sv)), s'))
           records.
Proof.
  intros Hext Hf Hc Hperm Hnd Hlen Hr Hok Hl.
  assert (Ht : tree_in h (TNode c [])).
  { split; [|split].
    - apply holds_node. split; [exact Hc|]. split; constructor.
    - rewrite scope_addrs_node. cbn. apply NoDup_singleton.
    - intros a []. }
  assert (Hds : Forall (fun sv => exists i,
                          od_get (join (fst sv)) D =
                          Some (snd (dataset_of_parameter i (to_parameter sv)))) records).
  { apply List.Forall_forall. intros sv Hsv.
    destruct (in_combine_inv idxs records sv Hlen Hsv) as (i & Hi).
    exists i. apply od_get_In; [exact Hnd|].
    apply (Permutation_in _ (Permutation_sym Hperm)).
    apply in_map_iff. exists (i, sv). split; [reflexivity | exact Hi]. }
  destruct (load_h5_loop r f D records Hok Hds (TNode c []) h [] Ht)
    as (h' & t' & Hloop & (Hh' & _ & _) & Hroot & Habs).
  { rewrite abs_node. exact Hl. }
  cbn [root app] in Hloop, Hroot. rewrite abs_node in Habs. cbn [map] in Habs.
  exists (mkState h' c r f). split; [|split; [reflexivity|split; [reflexivity|]]].
  - unfold load_parameters. rewrite Hext, String.eqb_refl.
    unfold bind at 1. unfold open_file. cbn [files]. rewrite Hf.
    change (map (fun e : string * Dataset => (ds_index (snd e), fst e)) (h5_visit D))
      with (map key_of (h5_visit D)).
    rewrite (h5_keys_in_index_order D idxs records Hperm Hlen Hr).
    exact Hloop.
  - apply (loaded_records_found h' t' c r f records Hh' Hroot Habs Hok Hl).
Qed.

Lemma load_h5_in_index_order_witness :
  let records := [(["z"]%string, ([1], true, [3%Z]));
                  (["a"; "w"]%string, ([2], false, [1%Z; 2%Z]))] in
  let D := [("a/w"%string, mkDataset [2] [1%Z; 2%Z] (Some false) (Some 7));
            ("z"%string, mkDataset [1] [3%Z] (Some true) (Some 4))] in
  let f : gmap string file := {[ "f.h5"%string := H5File D ]} in
  exists s',
    load_parameters "f.h5" None (mkState [ODict []] 0 0 f) =
      (Ok (map to_parameter records), s') /\
    current_scope s' = 0 /\ files s' = f /\
    Forall (fun sv => exists a v,
              parameter_at s' (join (fst sv)) a v /\
              shape v = fst (fst (snd sv)) /\
              need_grad v = snd (fst (snd sv)) /\
              get_d a s' = (Ok (snd (snd sv)), s'))
           records.
Proof.
  intros records D f.
  apply (load_h5_in_index_order [ODict []] 0 0 f "f.h5" D [4; 7] records).
  - reflexivity.
  - reflexivity.
  - reflexivity.
  - apply perm_swap.
  - apply (bool_decide_unpack _). vm_compute. exact I.
  - reflexivity.
  - cbn. repeat constructor.
  - repeat constructor; discriminate.
  - cbn. auto.
Defined.
